(** * d3-dag: optimal decrossing and Coffman-Graham layering

    A shallow embedding of [src/sugiyama/decross/opt.ts] (the operator
    [optCall] with its helpers [key], [comp], [perms] and [cross], and the
    builders [clowntown] and [opt]) and of the Coffman-Graham layering
    operator ([coffmanGrahamCall], its queue comparator [comp], and the
    builders [width] and [coffmanGraham]), and of the zherebko layout
    ([zherebkoCall] with [nodeSize], [size] and [zherebko]).

    JavaScript numbers that flow into the linear program are rationals
    ([Q]); lengths, indices and layer numbers are integers ([Z]) or naturals;
    the coordinates and sizes of the layout are binary64 floating-point
    numbers ([float]), as in the source.
    Objects used as dictionaries are [gmap]s keyed by strings.  Node objects
    are compared by identity in the source; here a node is its identity, a
    natural number, and the graph is given by its [ichildren] function. *)

From Stdlib Require Import Floats.
From Stdlib Require Import QArith Qminmax Lqa ZArith String Ascii DecimalString.
From stdpp Require Import gmap strings list fin_maps sorting.

Open Scope string_scope.
Open Scope list_scope.

(** ** Errors and results *)

Inductive Error :=
| SizeGuardError      (* "size of dag to decrossOpt is too large ..." *)
| UndefinedError      (* [def] applied to [undefined] *)
| TypeError           (* property assignment on [undefined] *)
| ArgumentsError      (* "got arguments to ..., but constructor takes no aruguments." *)
| WidthError          (* "width must be non-negative: ..." *)
| OutOfFuel.          (* not an exception: the bound on loop rounds was reached *)

Inductive Res (A : Type) :=
| Ok (a : A)
| Err (e : Error).
Arguments Ok {A} a.
Arguments Err {A} e.

Definition res_bind {A B} (r : Res A) (f : A -> Res B) : Res B :=
  match r with
  | Ok a => f a
  | Err e => Err e
  end.

(** [def] of [utils]: the value, or an exception when it is [undefined]. *)
Definition def {A} (o : option A) : Res A :=
  match o with
  | Some a => Ok a
  | None => Err UndefinedError
  end.

Fixpoint res_map {A B} (f : A -> Res B) (l : list A) : Res (list B) :=
  match l with
  | [] => Ok []
  | x :: l' =>
      res_bind (f x) (fun y => res_bind (res_map f l') (fun ys => Ok (y :: ys)))
  end.

Abbreviation Node := nat (only parsing).

(** ** Array helpers *)

Module Js.

(** Relative index of [Array.prototype.slice]: negative counts from the
    end, everything is clamped to [0, len]. *)
Definition relIndex (len i : Z) : Z :=
  if (i <? 0)%Z then Z.max (len + i) 0 else Z.min i len.

Definition slice {A} (l : list A) (start : Z) (stop : option Z) : list A :=
  let len := Z.of_nat (length l) in
  let k := relIndex len start in
  let e := match stop with Some e => relIndex len e | None => len end in
  take (Z.to_nat (e - k)) (drop (Z.to_nat k) l).

(** [Array.prototype.entries]: index-value pairs. *)
Definition entries {A} (l : list A) : list (nat * A) :=
  imap (fun i x => (i, x)) l.

(** [String.prototype.localeCompare] on the identifiers built below, which
    consist of parentheses, blanks and digits only; on those the collation
    order is the code unit order. *)
Definition localeCompare (a b : string) : Q :=
  match String.compare a b with
  | Lt => -1
  | Eq => 0
  | Gt => 1
  end.

(** [Array.prototype.sort] with a comparator that may throw: a stable
    insertion sort that looks only at the sign of the comparator's result.
    An exception in the comparator leaves the array as it was. *)
Fixpoint insertBy {A} (cmp : A -> A -> Res Q) (x : A) (l : list A) : Res (list A) :=
  match l with
  | [] => Ok [x]
  | y :: l' =>
      res_bind (cmp x y) (fun c =>
        if Qle_bool c 0 then Ok (x :: y :: l')
        else res_bind (insertBy cmp x l') (fun r => Ok (y :: r)))
  end.

Fixpoint sortBy {A} (cmp : A -> A -> Res Q) (l : list A) : Res (list A) :=
  match l with
  | [] => Ok []
  | x :: l' => res_bind (sortBy cmp l') (insertBy cmp x)
  end.

(** [sort()] without comparator, on strings: code unit order. *)
Fixpoint insertString (x : string) (l : list string) : list string :=
  match l with
  | [] => [x]
  | y :: l' =>
      match String.compare x y with
      | Gt => y :: insertString x l'
      | _ => x :: y :: l'
      end
  end.

Definition sortStrings (l : list string) : list string :=
  foldr insertString [] l.

(** The JavaScript [v || d] on a possibly missing number: [undefined] and
    [0] are falsy. *)
Definition orElse (v : option Q) (d : Q) : Q :=
  match v with
  | Some q => if Qeq_bool q 0 then d else q
  | None => d
  end.

(** Decimal rendering of an index in a template string. *)
Definition show (n : nat) : string :=
  NilEmpty.string_of_uint (Nat.to_uint n).

End Js.

(** ** The linear program handed to the solver *)

(** A constraint object: [{min: ...}] or [{max: ...}]. *)
Record Bound := { bmin : option Q; bmax : option Q }.

Record Model := {
  optimize : string;
  opType : string;
  constraints : gmap string Bound;
  variables : gmap string (gmap string Q);
  ints : gmap string Q
}.

Definition initModel : Model :=
  {| optimize := "opt"; opType := "min";
     constraints := ∅; variables := ∅; ints := ∅ |}.

(** ** The state a call works on

    The caller's [layers] array, whose inner arrays are sorted in place,
    and the [model] object once it has been created. *)

Record Heap := {
  h_layers : list (list Node);
  h_model : option Model
}.

Definition M (A : Type) : Type := Heap -> Res A * Heap.

Definition ret {A} (a : A) : M A := fun h => (Ok a, h).
Definition throw {A} (e : Error) : M A := fun h => (Err e, h).
Definition lift {A} (r : Res A) : M A := fun h => (r, h).
Definition bind {A B} (m : M A) (f : A -> M B) : M B :=
  fun h =>
    match m h with
    | (Ok a, h') => f a h'
    | (Err e, h') => (Err e, h')
    end.

Declare Scope heap_scope.
Delimit Scope heap_scope with heap.
Notation "'do' x <- m ; k" := (bind m (fun x => k))
  (at level 10, x name, m at level 100, k at level 200) : heap_scope.
Notation "m >>> k" := (bind m (fun _ => k))
  (at level 65, right associativity) : heap_scope.
Open Scope heap_scope.

Fixpoint forM_ {A} (l : list A) (f : A -> M unit) : M unit :=
  match l with
  | [] => ret tt
  | x :: l' => f x >>> forM_ l' f
  end.

Definition getLayers : M (list (list Node)) := fun h => (Ok (h_layers h), h).

Definition getLayer (li : nat) : M (list Node) :=
  fun h => (def (h_layers h !! li), h).

Definition getModel : M Model := fun h => (def (h_model h), h).

Definition putModel (m : Model) : M unit :=
  fun h => (Ok tt, {| h_layers := h_layers h; h_model := Some m |}).

(** [layer.sort(cmp)] on the [li]-th array of [layers]. *)
Definition sortLayer (li : nat) (cmp : Node -> Node -> Res Q) : M unit :=
  fun h =>
    match h_layers h !! li with
    | None => (Err UndefinedError, h)
    | Some layer =>
        match Js.sortBy cmp layer with
        | Ok sorted =>
            (Ok tt, {| h_layers := <[li := sorted]> (h_layers h);
                       h_model := h_model h |})
        | Err e => (Err e, h)
        end
    end.

(** [model.ints[k] = v] *)
Definition setInt (k : string) (v : Q) : M unit :=
  do m <- getModel;
  putModel {| optimize := optimize m; opType := opType m;
              constraints := constraints m; variables := variables m;
              ints := <[k := v]> (ints m) |}.

(** [model.constraints[k] = b] *)
Definition setConstraint (k : string) (b : Bound) : M unit :=
  do m <- getModel;
  putModel {| optimize := optimize m; opType := opType m;
              constraints := <[k := b]> (constraints m);
              variables := variables m; ints := ints m |}.

(** [model.variables[k] = coefs] *)
Definition setVariable (k : string) (coefs : gmap string Q) : M unit :=
  do m <- getModel;
  putModel {| optimize := optimize m; opType := opType m;
              constraints := constraints m;
              variables := <[k := coefs]> (variables m); ints := ints m |}.

(** [model.variables[k][c] = v]: a [TypeError] when [model.variables[k]]
    is [undefined]. *)
Definition setCoef (k c : string) (v : Q) : M unit :=
  do m <- getModel;
  match variables m !! k with
  | None => throw TypeError
  | Some coefs =>
      putModel {| optimize := optimize m; opType := opType m;
                  constraints := constraints m;
                  variables := <[k := <[c := v]> coefs]> (variables m);
                  ints := ints m |}
  end.

Definition boundMax (q : Q) : Bound := {| bmin := None; bmax := Some q |}.
Definition boundMin (q : Q) : Bound := {| bmin := Some q; bmax := None |}.

(** ** The decrossing operator *)

Section Decross.

(** [node.ichildren()], part of the graph abstraction. *)
Variable ichildren : Node -> list Node.

(** [Solve] of the linear-programming library: from a model to the object
    that maps variable names to their solved values. *)
Variable Solve : Model -> gmap string Q.

(** The identifier [`(${i} ${j})`] of the node at position [j] of layer [i]. *)
Definition idString (i j : nat) : string :=
  "(" +:+ Js.show i +:+ " " +:+ Js.show j +:+ ")".

Definition buildIds (layers : list (list Node)) : gmap Node string :=
  foldl (fun ids '(i, layer) =>
           foldl (fun ids '(j, node) => <[node := idString i j]> ids)
                 ids (Js.entries layer))
        ∅ (Js.entries layers).

Section WithIds.

Variable ids : gmap Node string.

(** create a key from nodes *)
Definition key (nodes : list Node) : Res string :=
  res_bind (res_map (fun n => def (ids !! n)) nodes) (fun strs =>
    Ok (String.concat " => " (Js.sortStrings strs))).

(** compare nodes by id *)
Definition comp (n1 n2 : Node) : Res Q :=
  res_bind (def (ids !! n1)) (fun s1 =>
    res_bind (def (ids !! n2)) (fun s2 =>
      Ok (Js.localeCompare s1 s2))).

Definition len {A} (l : list A) : Z := Z.of_nat (length l).

(** First half of [perms]: a variable for each pair of nodes of the layer,
    indicating if they should be flipped. *)
Definition pairVariables (layer : list Node) : M unit :=
  forM_ (Js.entries (Js.slice layer 0 (Some (len layer - 1)%Z))) (fun '(i, n1) =>
    forM_ (Js.slice layer (Z.of_nat i + 1)%Z None) (fun n2 =>
      do pair <- lift (key [n1; n2]);
      setInt pair 1 >>>
      setConstraint pair (boundMax 1) >>>
      setVariable pair (<[pair := 1%Q]> (<["opt" := 0%Q]> ∅)))).

(** Second half of [perms]: constraints to enforce the triangle inequality. *)
Definition triangles (layer : list Node) : M unit :=
  forM_ (Js.entries (Js.slice layer 0 (Some (len layer - 1)%Z))) (fun '(i, n1) =>
    forM_ (Js.entries (Js.slice layer (Z.of_nat i + 1)%Z None)) (fun '(j, n2) =>
      forM_ (Js.slice layer (Z.of_nat i + Z.of_nat j + 2)%Z None) (fun n3 =>
        do pair1 <- lift (key [n1; n2]);
        do pair2 <- lift (key [n1; n3]);
        do pair3 <- lift (key [n2; n3]);
        do triangle <- lift (key [n1; n2; n3]);
        let triangleUp := triangle +:+ "+" in
        setConstraint triangleUp (boundMax 1) >>>
        setCoef pair1 triangleUp 1 >>>
        setCoef pair2 triangleUp (-1) >>>
        setCoef pair3 triangleUp 1 >>>
        let triangleDown := triangle +:+ "-" in
        setConstraint triangleDown (boundMin 0) >>>
        setCoef pair1 triangleDown 1 >>>
        setCoef pair2 triangleDown (-1) >>>
        setCoef pair3 triangleDown 1))).

Definition perms (li : nat) : M unit :=
  sortLayer li comp >>>
  do layer <- getLayer li;
  pairVariables layer >>>
  triangles layer.

Definition cross (li : nat) : M unit :=
  do layer <- getLayer li;
  forM_ (Js.entries (Js.slice layer 0 (Some (len layer - 1)%Z))) (fun '(i, p1) =>
    forM_ (Js.slice layer (Z.of_nat i + 1)%Z None) (fun p2 =>
      do pairp <- lift (key [p1; p2]);
      forM_ (ichildren p1) (fun c1 =>
        forM_ (ichildren p2) (fun c2 =>
          if decide (c1 = c2) then ret tt else
          do pairc <- lift (key [c1; c2]);
          let slack := "slack (" +:+ pairp +:+ ") (" +:+ pairc +:+ ")" in
          let slackUp := slack +:+ " +" in
          let slackDown := slack +:+ " -" in
          setVariable slack
            (<[slackDown := 1%Q]> (<[slackUp := 1%Q]> (<["opt" := 1%Q]> ∅))) >>>
          do sign <- lift (comp c1 c2);
          let flip := Qmax sign 0 in
          setConstraint slackUp (boundMin flip) >>>
          setCoef pairp slackUp 1 >>>
          setCoef pairc slackUp sign >>>
          setConstraint slackDown (boundMin (- flip)) >>>
          setCoef pairp slackDown (-1) >>>
          setCoef pairc slackDown (- sign))))).

(** The comparator of the final sort:
    [comp(n1, n2) * (ordering[key(n1, n2)] || -1)]. *)
Definition finalComp (ordering : gmap string Q) (n1 n2 : Node) : Res Q :=
  res_bind (comp n1 n2) (fun c =>
    res_bind (key [n1; n2]) (fun k =>
      Ok (c * Js.orElse (ordering !! k) (-1))%Q)).

End WithIds.

Record OptOptions := { opt_clowntown : bool }.

Definition sizeOf (layers : list (list Node)) : Z :=
  foldl (fun t l => (t + len l * len l)%Z) 0%Z layers.

Definition indices {A} (l : list A) : list nat := seq 0 (length l).

Definition optCall (options : OptOptions) : M unit :=
  do layers <- getLayers;
  (* check for large input *)
  if negb (opt_clowntown options) && (2500 <? sizeOf layers)%Z
  then throw SizeGuardError
  else
    (* initialize model *)
    putModel initModel >>>
    (* initialize map to create "ids" *)
    let ids := buildIds layers in
    (* add variables and permutation invariants *)
    forM_ (indices layers) (perms ids) >>>
    (* add crossing minimization *)
    forM_ (indices (Js.slice layers 0 (Some (len layers - 1)%Z))) (cross ids) >>>
    (* solve objective *)
    do model <- getModel;
    let ordering := Solve model in
    (* sort layers *)
    forM_ (indices layers) (fun li => sortLayer li (finalComp ids ordering)).

(** Running the operator on the caller's array. *)
Definition runOpt (options : OptOptions) (layers : list (list Node))
  : Res unit * Heap :=
  optCall options {| h_layers := layers; h_model := None |}.

End Decross.

(** ** Operator objects

    Each operator is a closure over its [options] object.  Option objects
    live in a store; a closure holds the reference of the one it captured. *)

Definition Ref := nat.

Definition alloc {O} (o : O) (s : list O) : Ref * list O :=
  (length s, s ++ [o]).

Definition deref {O} (s : list O) (r : Ref) : option O := s !! r.

Record OptOperator := { opt_env : Ref }.

(** [buildOperator(options)] of the decrossing module, on the reference of
    the options object. *)
Definition buildOptOperator (options : Ref) : OptOperator :=
  {| opt_env := options |}.

(** [clowntown(val?)]: the getter when [val] is [undefined], otherwise a
    new operator built on [{ ...options, clowntown: val }]. *)
Definition clowntown (op : OptOperator) (val : option bool)
    (s : list OptOptions) : Res (bool + OptOperator) * list OptOptions :=
  match deref s (opt_env op) with
  | None => (Err UndefinedError, s)
  | Some options =>
      match val with
      | None => (Ok (inl (opt_clowntown options)), s)
      | Some v =>
          let '(r, s') := alloc {| opt_clowntown := v |} s in
          (Ok (inr (buildOptOperator r)), s')
      end
  end.

(** [opt(...args)] *)
Definition opt {V} (args : list V) (s : list OptOptions)
    : Res OptOperator * list OptOptions :=
  if negb (length args =? 0)%nat then (Err ArgumentsError, s)
  else
    let '(r, s') := alloc {| opt_clowntown := false |} s in
    (Ok (buildOptOperator r), s').

(** Calling an operator: [optCall] under the options it captured. *)
Definition callOpt (ichildren : Node -> list Node)
    (Solve : Model -> gmap string Q) (op : OptOperator)
    (s : list OptOptions) (layers : list (list Node)) : Res unit * Heap :=
  match deref s (opt_env op) with
  | None => (Err UndefinedError, {| h_layers := layers; h_model := None |})
  | Some options => runOpt ichildren Solve options layers
  end.

(** ** Coffman-Graham layering *)

(** The graph abstraction: [idescendants] (also the iteration order of the
    dag itself), [iroots] and [ichildren]. *)
Record Dag := {
  d_nodes : list Node;
  d_roots : list Node;
  d_children : Node -> list Node
}.

Definition size (dag : Dag) : Z := Z.of_nat (length (d_nodes dag)).

(** [class Data { before: number[] = []; parents: N[] = []; }] *)
Record Data := { before : list Z; parents : list Node }.

Definition newData : Data := {| before := []; parents := [] |}.

(** [Math.floor(Math.sqrt(n + 0.5))] in exact arithmetic:
    [sqrt (n + 1/2) = sqrt (4 n + 2) / 2]. *)
Definition floorSqrtPlusHalf (n : Z) : Z := (Z.sqrt (4 * n + 2) / 2)%Z.

(** The queue comparator on the [before] lists. *)
Fixpoint compFrom (i : nat) (leftBefore rightBefore : list Z) : bool :=
  match leftBefore with
  | [] => true
  | leftb :: rest =>
      match rightBefore !! i with
      | None => false
      | Some rightb =>
          if (leftb <? rightb)%Z then true
          else if (rightb <? leftb)%Z then false
          else compFrom (S i) rest rightBefore
      end
  end.

Definition compBefore (leftBefore rightBefore : list Z) : bool :=
  compFrom 0 leftBefore rightBefore.

Definition cgComp (data : gmap Node Data) (left right : Node) : Res bool :=
  res_bind (def (data !! left)) (fun l =>
    res_bind (def (data !! right)) (fun r =>
      Ok (compBefore (before l) (before r)))).

(** [Array.prototype.every] with a predicate that may throw. *)
Fixpoint every {A} (f : A -> Res bool) (l : list A) : Res bool :=
  match l with
  | [] => Ok true
  | x :: l' => res_bind (f x) (fun b => if b then every f l' else Ok false)
  end.

Fixpoint res_fold {A S} (f : S -> A -> Res S) (l : list A) (s : S) : Res S :=
  match l with
  | [] => Ok s
  | x :: l' => res_bind (f s x) (res_fold f l')
  end.

(** The interface of the priority queue library: a queue is used through
    [add] and [poll] under the comparator given at construction;
    [pq_items] is what the queue holds. *)
Class PriorityQueue (pq : Type) := {
  pq_new : pq;
  pq_add : (Node -> Node -> Res bool) -> Node -> pq -> Res pq;
  pq_poll : (Node -> Node -> Res bool) -> pq -> Res (option (Node * pq));
  pq_items : pq -> list Node
}.

Definition total_on (cmp : Node -> Node -> Res bool) (l : list Node) : Prop :=
  forall a b, a ∈ l -> b ∈ l -> exists r, cmp a b = Ok r.

(** What the layering needs of a queue: it holds what was added and not yet
    polled, and [poll] hands out one of its elements. *)
Class PriorityQueueLaws (pq : Type) `{PriorityQueue pq} := {
  pq_new_items : pq_items pq_new = [];
  pq_add_items : forall cmp x q,
    total_on cmp (x :: pq_items q) ->
    exists q', pq_add cmp x q = Ok q' /\ pq_items q' ≡ₚ x :: pq_items q;
  pq_poll_empty : forall cmp q,
    pq_items q = [] -> pq_poll cmp q = Ok None;
  pq_poll_items : forall cmp q,
    pq_items q <> [] -> total_on cmp (pq_items q) ->
    exists x q', pq_poll cmp q = Ok (Some (x, q')) /\ pq_items q ≡ₚ x :: pq_items q'
}.

Record CGOptions := { cg_width : Z }.

Section CoffmanGraham.

Context {pq : Type} `{PriorityQueue pq}.

Record CG := {
  s_data : gmap Node Data;     (* the [data] map *)
  s_layer_of : gmap Node Z;    (* the [layer] field of the nodes *)
  s_queue : pq;
  s_i : Z;                     (* node index *)
  s_layer : Z;                 (* layer assigning *)
  s_width : Z                  (* current width *)
}.

Definition maxWidthOf (options : CGOptions) (dag : Dag) : Z :=
  if (cg_width options =? 0)%Z then floorSqrtPlusHalf (size dag)
  else cg_width options.

(** [def(data.get(child)).parents.push(node)] *)
Definition pushParent (node : Node) (data : gmap Node Data) (child : Node)
    : Res (gmap Node Data) :=
  res_bind (def (data !! child)) (fun d =>
    Ok (<[child := {| before := before d; parents := parents d ++ [node] |}]> data)).

(** initialize node data *)
Definition initData (dag : Dag) : Res (gmap Node Data) :=
  let data := foldl (fun m node => <[node := newData]> m) ∅ (d_nodes dag) in
  res_fold (fun data node => res_fold (pushParent node) (d_children dag node) data)
           (d_nodes dag) data.

(** One round of the loop over [node.ichildren()]. *)
Definition visitChild (st : CG) (child : Node) : Res CG :=
  res_bind (def (s_data st !! child)) (fun d =>
    let before' := before d ++ [s_i st] in
    if (length before' =? length (parents d))%nat then
      res_bind (Js.sortBy (fun a b => Ok (inject_Z (b - a))) before') (fun sorted =>
        let data' := <[child := {| before := sorted; parents := parents d |}]> (s_data st) in
        res_bind (pq_add (cgComp data') child (s_queue st)) (fun q =>
          Ok {| s_data := data'; s_layer_of := s_layer_of st; s_queue := q;
                s_i := s_i st; s_layer := s_layer st; s_width := s_width st |}))
    else
      Ok {| s_data := <[child := {| before := before'; parents := parents d |}]> (s_data st);
            s_layer_of := s_layer_of st; s_queue := s_queue st;
            s_i := s_i st; s_layer := s_layer st; s_width := s_width st |}).

(** The body of the [while] loop for the node just polled. *)
Definition visit (dag : Dag) (maxWidth : Z) (node : Node) (st : CG) : Res CG :=
  res_bind
    (if (s_width st <? maxWidth)%Z then
       res_bind (def (s_data st !! node)) (fun d =>
         every (fun p => res_bind (def (s_layer_of st !! p))
                           (fun l => Ok (l <? s_layer st)%Z))
               (parents d))
     else Ok false)
    (fun fits =>
       let st1 :=
         if fits then
           {| s_data := s_data st;
              s_layer_of := <[node := s_layer st]> (s_layer_of st);
              s_queue := s_queue st; s_i := s_i st;
              s_layer := s_layer st; s_width := (s_width st + 1)%Z |}
         else
           {| s_data := s_data st;
              s_layer_of := <[node := (s_layer st + 1)%Z]> (s_layer_of st);
              s_queue := s_queue st; s_i := s_i st;
              s_layer := (s_layer st + 1)%Z; s_width := 1%Z |} in
       res_bind (res_fold visitChild (d_children dag node) st1) (fun st2 =>
         Ok {| s_data := s_data st2; s_layer_of := s_layer_of st2;
               s_queue := s_queue st2; s_i := (s_i st2 + 1)%Z;
               s_layer := s_layer st2; s_width := s_width st2 |})).

(** [while ((node = queue.poll())) { ... }], at most [fuel] rounds. *)
Fixpoint loop (dag : Dag) (maxWidth : Z) (fuel : nat) (st : CG) : Res CG :=
  match fuel with
  | O => Err OutOfFuel
  | S fuel' =>
      res_bind (pq_poll (cgComp (s_data st)) (s_queue st)) (fun r =>
        match r with
        | None => Ok st
        | Some (node, q) =>
            res_bind
              (visit dag maxWidth node
                 {| s_data := s_data st; s_layer_of := s_layer_of st;
                    s_queue := q; s_i := s_i st;
                    s_layer := s_layer st; s_width := s_width st |})
              (loop dag maxWidth fuel')
        end)
  end.

(** The layering call; the result is the [layer] field of every node. *)
Definition coffmanGrahamCall (options : CGOptions) (dag : Dag)
    : Res (gmap Node Z) :=
  let maxWidth := maxWidthOf options dag in
  res_bind (initData dag) (fun data =>
    (* start with root nodes *)
    res_bind (res_fold (fun q root => pq_add (cgComp data) root q)
                       (d_roots dag) pq_new) (fun queue =>
      res_bind
        (loop dag maxWidth (S (length (d_nodes dag)))
           {| s_data := data; s_layer_of := ∅; s_queue := queue;
              s_i := 0; s_layer := 0; s_width := 0 |})
        (fun st => Ok (s_layer_of st)))).

End CoffmanGraham.

Record CoffmanGrahamOperator := { cg_env : Ref }.

Definition buildCGOperator (options : Ref) : CoffmanGrahamOperator :=
  {| cg_env := options |}.

(** [width(maxWidth?)] *)
Definition width (op : CoffmanGrahamOperator) (maxWidth : option Z)
    (s : list CGOptions) : Res (Z + CoffmanGrahamOperator) * list CGOptions :=
  match deref s (cg_env op) with
  | None => (Err UndefinedError, s)
  | Some options =>
      match maxWidth with
      | None => (Ok (inl (cg_width options)), s)
      | Some w =>
          if (w <? 0)%Z then (Err WidthError, s)
          else
            let '(r, s') := alloc {| cg_width := w |} s in
            (Ok (inr (buildCGOperator r)), s')
      end
  end.

(** [coffmanGraham(...args)] *)
Definition coffmanGraham {V} (args : list V) (s : list CGOptions)
    : Res CoffmanGrahamOperator * list CGOptions :=
  if negb (length args =? 0)%nat then (Err ArgumentsError, s)
  else
    let '(r, s') := alloc {| cg_width := 0%Z |} s in
    (Ok (buildCGOperator r), s').

(** A queue that keeps its elements in arrival order and polls the first
    element no other element is strictly before. *)
Fixpoint pickBest (cmp : Node -> Node -> Res bool) (best : Node) (l : list Node)
    : Res Node :=
  match l with
  | [] => Ok best
  | y :: l' =>
      res_bind (cmp y best) (fun b1 =>
        res_bind (cmp best y) (fun b2 =>
          pickBest cmp (if b1 && negb b2 then y else best) l'))
  end.

Fixpoint removeFirst (x : Node) (l : list Node) : list Node :=
  match l with
  | [] => []
  | y :: l' => if decide (x = y) then l' else y :: removeFirst x l'
  end.

#[export] Instance listQueue : PriorityQueue (list Node) := {|
  pq_new := [];
  pq_add := fun _ x q => Ok (q ++ [x]);
  pq_poll := fun cmp q =>
    match q with
    | [] => Ok None
    | x :: q' =>
        res_bind (pickBest cmp x q') (fun b => Ok (Some (b, removeFirst b q)))
    end;
  pq_items := fun q => q
|}.

(** ** The zherebko layout

    The numbers of the layout are JavaScript numbers: binary64 floating-point
    numbers, with the operations of IEEE 754.  The call reads and writes the
    coordinates of the nodes and the points of the links; a link is known by
    its source and its index among the child links of the source. *)

Module Zherebko.

Definition number := float.

(** An integer as a number, rounded to the nearest. *)
Definition ofZ (z : Z) : number := SF2Prim (binary_normalize prec emax z 0 false).

Record Point := { p_x : number; p_y : number }.

(** [ZherebkoInfo] *)
Record Info := { i_width : number; i_height : number }.

Record Drawing := {
  node_at : gmap Node Point;                    (* [node.x], [node.y] *)
  points_of : gmap (Node * nat) (list Point)    (* [link.points] *)
}.

(** The operator: what [buildOperator] closes over. *)
Record Operator := {
  o_nodeWidth : number;
  o_nodeHeight : number;
  o_edgeGap : number;
  o_sizeVal : option (number * number)       (* [null] or [width, height] *)
}.

Definition buildOperator (nodeWidth nodeHeight edgeGap : number)
    (sizeVal : option (number * number)) : Operator :=
  {| o_nodeWidth := nodeWidth; o_nodeHeight := nodeHeight;
     o_edgeGap := edgeGap; o_sizeVal := sizeVal |}.

(** [nodeSize(val?)]: the getter when [val] is [undefined]. *)
Definition nodeSize (op : Operator) (val : option (number * number * number))
    : (number * number * number) + Operator :=
  match val with
  | None => inl (o_nodeWidth op, o_nodeHeight op, o_edgeGap op)
  | Some (newWidth, newHeight, newGap) =>
      inr (buildOperator newWidth newHeight newGap (o_sizeVal op))
  end.

(** [size(val?)]: [val] is [undefined] (the getter), [null] or a pair. *)
Definition size (op : Operator) (val : option (option (number * number)))
    : option (number * number) + Operator :=
  match val with
  | Some v => inr (buildOperator (o_nodeWidth op) (o_nodeHeight op) (o_edgeGap op) v)
  | None =>
      match o_sizeVal op with
      | None => inl None
      | Some (width, height) => inl (Some (width, height))
      end
  end.

(** [zherebko(...args)] *)
Definition zherebko {V} (args : list V) : Res Operator :=
  if negb (length args =? 0)%nat then Err ArgumentsError
  else Ok (buildOperator 1 1 1 None)%float.

(** A loop whose body may leave the model. *)
Fixpoint foldM {A S} (f : S -> A -> option S) (l : list A) (s : S) : option S :=
  match l with
  | [] => Some s
  | x :: l' =>
      match f s x with
      | Some s' => foldM f l' s'
      | None => None
      end
  end.

Section Call.

(** The graph abstraction: [dag.idescendants("before")], [nchildLinksTo],
    the iteration over the dag and the targets of [ichildLinks()]; and
    [greedy], which assigns the lanes. *)
Variable before : list Node.
Variable nchildLinksTo : Node -> Node -> nat.
Variable nodes : list Node.
Variable childLinks : Node -> list Node.
Variable greedy : list (Node * nat) -> gmap Node (list (option Z)).

Variable op : Operator.

(** One round of the topological sort: [levels], [numLevels], [last]. *)
Definition levelStep (st : list (Node * nat) * nat * option Node) (node : Node)
    : list (Node * nat) * nat * option Node :=
  let '(levels, numLevels, last) := st in
  let numLevels :=
    match last with
    | Some l => if (1 <? nchildLinksTo l node)%nat then S numLevels else numLevels
    | None => numLevels
    end in
  (levels ++ [(node, numLevels)], S numLevels, Some node).

Definition topologicalSort : list (Node * nat) * nat :=
  let '(levels, numLevels, _) := foldl levelStep ([], 0%nat, None) before in
  (levels, numLevels).

(** map to coordinates: [minIndex] and [maxIndex] *)
Definition widen (r : Z * Z) (ind : option Z) : Z * Z :=
  match ind with
  | Some i => (Z.min r.1 i, Z.max r.2 i)
  | None => r
  end.

Definition indexRange (indices : gmap Node (list (option Z))) : Z * Z :=
  foldl (fun r inds => foldl widen r inds) (0, 0)%Z (map_to_list indices).*2.

(** assign node positions *)
Definition assignNodes (nodex : number) (levels : list (Node * nat))
    (coords : gmap Node Point) : gmap Node Point :=
  foldl (fun coords '(node, layer) =>
           <[node := {| p_x := nodex;
                        p_y := ((ofZ (Z.of_nat layer) + 0.5) * o_nodeHeight op)%float |}]>
             coords)
        coords levels.

(** The horizontal place of lane [ind]. *)
Definition laneX (minIndex ind : Z) : number :=
  ((ofZ ind - ofZ minIndex + 0.5) * o_edgeGap op
   + (if (0 <? ind)%Z then o_nodeWidth op - o_edgeGap op else 0))%float.

(** The points of a link from [s] to [t]. *)
Definition linkPoints (minIndex : Z) (s t : Point) (ind : option Z) : list Point :=
  [s] ++
  match ind with
  | Some ind =>
      (* assumed long link *)
      let x := laneX minIndex ind in
      let y1 := (p_y s + o_nodeHeight op)%float in
      let y2 := (p_y t - o_nodeHeight op)%float in
      if (o_nodeHeight op / 2 <? y2 - y1)%float
      then [{| p_x := x; p_y := y1 |}; {| p_x := x; p_y := y2 |}]
      else [{| p_x := x; p_y := y1 |}]
  | None => []
  end ++ [t].

(** One link; a node without coordinates is outside the model. *)
Definition assignLink (minIndex : Z) (inds : list (option Z)) (source : Node)
    (d : Drawing) (link : nat * Node) : option Drawing :=
  let '(index, target) := link in
  match node_at d !! source, node_at d !! target with
  | Some s, Some t =>
      Some {| node_at := node_at d;
              points_of := <[(source, index) :=
                               linkPoints minIndex s t (default None (inds !! index))]>
                             (points_of d) |}
  | _, _ => None
  end.

(** assign link points *)
Definition assignLinks (indices : gmap Node (list (option Z))) (minIndex : Z)
    (d : Drawing) : option Drawing :=
  foldM (fun d source =>
           let inds := default [] (indices !! source) in
           foldM (assignLink minIndex inds source) (Js.entries (childLinks source)) d)
        nodes d.

(** [dag.ilinks()]: the links of the dag, each once, as the child links of
    its nodes; the loop above walks them in the same way, by source and
    index. *)
Definition ilinks : list (Node * nat) :=
  nodes ≫= fun source => (fun '(index, _) => (source, index)) <$> Js.entries (childLinks source).

(** [node.x *= newWidth / width; node.y *= newHeight / height] *)
Definition scaleNode (newWidth newHeight width height : number) (p : Point) : Point :=
  {| p_x := (p_x p * (newWidth / width))%float;
     p_y := (p_y p * (newHeight / height))%float |}.

(** [{ x: (x * newWidth) / width, y: (y * newHeight) / height }] *)
Definition scalePoint (newWidth newHeight width height : number) (p : Point) : Point :=
  {| p_x := (p_x p * newWidth / width)%float;
     p_y := (p_y p * newHeight / height)%float |}.

(** rescale to new size; a node without coordinates is outside the model *)
Definition rescale (newWidth newHeight width height : number)
    (levels : list (Node * nat)) (d : Drawing) : option Drawing :=
  match
    foldM (fun coords '(node, _) =>
             match coords !! node with
             | Some p =>
                 Some (<[node := scaleNode newWidth newHeight width height p]> coords)
             | None => None
             end)
          levels (node_at d)
  with
  | None => None
  | Some coords =>
      let pts :=
        foldl (fun pts link =>
                 <[link := scalePoint newWidth newHeight width height
                             <$> default [] (pts !! link)]> pts)
              (points_of d) ilinks in
      Some {| node_at := coords; points_of := pts |}
  end.

Definition zherebkoCall (d : Drawing) : option (Info * Drawing) :=
  (* topological sort *)
  let '(levels, numLevels) := topologicalSort in
  (* get link indices *)
  let indices := greedy levels in
  (* map to coordinates *)
  let '(minIndex, maxIndex) := indexRange indices in
  (* assign node positions *)
  let nodex := ((- ofZ minIndex) * o_edgeGap op + o_nodeWidth op / 2)%float in
  let d1 := {| node_at := assignNodes nodex levels (node_at d);
               points_of := points_of d |} in
  (* assign link points *)
  match assignLinks indices minIndex d1 with
  | None => None
  | Some d2 =>
      let width := ((ofZ maxIndex - ofZ minIndex) * o_edgeGap op + o_nodeWidth op)%float in
      let height := (ofZ (Z.of_nat numLevels) * o_nodeHeight op)%float in
      match o_sizeVal op with
      | None => Some ({| i_width := width; i_height := height |}, d2)
      | Some (newWidth, newHeight) =>
          match rescale newWidth newHeight width height levels d2 with
          | None => None
          | Some d3 => Some ({| i_width := newWidth; i_height := newHeight |}, d3)
          end
      end
  end.

End Call.

End Zherebko.

(** ** Notions the properties are stated with *)

(** Every edge connects adjacent layers: the children of a node of layer
    [i] are nodes of layer [i + 1]. *)
Definition valid_layering (ichildren : Node -> list Node)
    (layers : list (list Node)) : Prop :=
  forall i layer p c,
    layers !! i = Some layer -> p ∈ layer -> c ∈ ichildren p ->
    exists next, layers !! S i = Some next /\ c ∈ next.

(** The size guard lets the layers through. *)
Definition passes_guard (options : OptOptions) (layers : list (list Node)) : Prop :=
  opt_clowntown options = true \/ (sizeOf layers <= 2500)%Z.

(** Number of edges from [p] to [c]. *)
Definition edgeCount (dag : Dag) (p c : Node) : nat :=
  length (filter (fun x => x = c) (d_children dag p)).

(** The parents of [c], in the order the layering call collects them. *)
Definition parentsOf (dag : Dag) (c : Node) : list Node :=
  d_nodes dag ≫= fun p => replicate (edgeCount dag p c) p.

(** A dag as the graph abstraction hands it out: every node once, children
    among the nodes, the roots the nodes without parent, no cycle. *)
Record wf_dag (dag : Dag) : Prop := {
  wf_nodup : NoDup (d_nodes dag);
  wf_closed : forall p c,
    p ∈ d_nodes dag -> c ∈ d_children dag p -> c ∈ d_nodes dag;
  wf_roots_nodup : NoDup (d_roots dag);
  wf_roots : forall r,
    r ∈ d_roots dag <-> r ∈ d_nodes dag /\ parentsOf dag r = [];
  wf_acyclic : exists rank : Node -> nat, forall p c,
    p ∈ d_nodes dag -> c ∈ d_children dag p -> (rank p < rank c)%nat
}.

(** Number of nodes the layering put on layer [l]. *)
Definition countAt (dag : Dag) (layerOf : gmap Node Z) (l : Z) : Z :=
  Z.of_nat (length (filter (fun n => layerOf !! n = Some l) (d_nodes dag))).

(** ** Crossings *)

(** Position of a node in a layer. *)
Fixpoint position (l : list Node) (n : Node) : option nat :=
  match l with
  | [] => None
  | x :: l' => if decide (x = n) then Some 0%nat else S <$> position l' n
  end.

(** The edges to [c1] and to [c2], from a node and from a node after it,
    cross when [c2] stands before [c1] in [bottom]. *)
Definition crosses (bottom : list Node) (c1 c2 : Node) : bool :=
  match position bottom c1, position bottom c2 with
  | Some i1, Some i2 => (i2 <? i1)%nat
  | _, _ => false
  end.

(** Crossings among the edges that leave [p1] and [p2], where [p1] stands
    before [p2]. *)
Definition crossingsOf (ichildren : Node -> list Node) (bottom : list Node)
    (p1 p2 : Node) : nat :=
  sum_list (c1 ← ichildren p1; c2 ← ichildren p2;
            [if crosses bottom c1 c2 then 1%nat else 0%nat]).

(** Crossings between two adjacent layers. *)
Fixpoint crossingsBetween (ichildren : Node -> list Node)
    (top bottom : list Node) : nat :=
  match top with
  | [] => 0
  | p1 :: rest =>
      (sum_list (map (crossingsOf ichildren bottom p1) rest)
       + crossingsBetween ichildren rest bottom)%nat
  end.

(** Total number of edge crossings of a layering. *)
Fixpoint crossings (ichildren : Node -> list Node) (layers : list (list Node)) : nat :=
  match layers with
  | top :: (bottom :: _) as rest =>
      (crossingsBetween ichildren top bottom + crossings ichildren rest)%nat
  | _ => 0
  end.

(** ** What the solver is asked for *)

(** The value the solver reports for a variable; a variable it leaves out
    is at [0]. *)
Definition valueOf (ordering : gmap string Q) (v : string) : Q :=
  default 0%Q (ordering !! v).

(** The row of the constraint (or of the objective) [c]: the variables that
    mention [c], with their coefficients. *)
Definition sparseRow (m : Model) (c : string) : list (string * Q) :=
  omap (fun '(v, coefs) => (fun q => (v, q)) <$> (coefs : gmap string Q) !! c)
       (map_to_list (variables m)).

Definition dot (r : list (string * Q)) (a : string -> Q) : Q :=
  foldr (fun '(v, q) acc => q * a v + acc)%Q 0%Q r.

Definition withinBound (b : Bound) (q : Q) : Prop :=
  match bmin b with Some lo => (lo <= q)%Q | None => True end
  /\ match bmax b with Some hi => (q <= hi)%Q | None => True end.

Definition varNames (m : Model) : list string := (map_to_list (variables m)).*1.

Definition intNames (m : Model) : list string := (map_to_list (ints m)).*1.

(** The constraints as rows with their bounds. *)
Definition systemOf (m : Model) : list (list (string * Q) * Bound) :=
  (fun '(c, b) => (sparseRow m c, b)) <$> map_to_list (constraints m).

(** Modelled from the spec: the mixed-integer solver takes named variables
    with per-constraint coefficients, named constraints with min/max bounds
    and integer designations.  An assignment is feasible when the variables
    are nonnegative, every constraint is within its bounds and the integer
    variables are integers. *)
Definition feasible (m : Model) (a : string -> Q) : Prop :=
  Forall (fun v => (0 <= a v)%Q) (varNames m)
  /\ Forall (fun '(r, b) => withinBound b (dot r a)) (systemOf m)
  /\ Forall (fun v => exists z : Z, (a v == inject_Z z)%Q) (intNames m).

Definition objective (m : Model) (a : string -> Q) : Q :=
  dot (sparseRow m (optimize m)) a.

(** Modelled from the spec: the solver returns a mapping from variable name
    to solved value; for a model to minimize that is a feasible assignment
    of least objective. *)
Definition optimal (m : Model) (ordering : gmap string Q) : Prop :=
  feasible m (valueOf ordering)
  /\ forall a, feasible m a ->
       (objective m (valueOf ordering) <= objective m a)%Q.

(** ** A layering with shared children *)

(** Three nodes over four: node 0 has all four as children, node 1 the last
    three, node 2 the last one. *)
Definition sharedChildren (n : Node) : list Node :=
  match n with
  | 0%nat => [3; 4; 5; 6]%nat
  | 1%nat => [4; 5; 6]%nat
  | 2%nat => [6%nat]
  | _ => []
  end.

Definition sharedLayers : list (list Node) := [[0; 1; 2]; [3; 4; 5; 6]]%nat.

(** The call up to the solver: guard, model, [perms] and [cross]. *)
Definition optBuild (ichildren : Node -> list Node) (options : OptOptions) : M unit :=
  do layers <- getLayers;
  if negb (opt_clowntown options) && (2500 <? sizeOf layers)%Z
  then throw SizeGuardError
  else
    putModel initModel >>>
    let ids := buildIds layers in
    forM_ (indices layers) (perms ids) >>>
    forM_ (indices (Js.slice layers 0 (Some (len layers - 1)%Z))) (cross ichildren ids).

(** The model the call builds for [sharedLayers]. *)
Definition sharedModel : Model :=
  Eval vm_compute in
    match h_model (optBuild sharedChildren {| opt_clowntown := false |}
                     {| h_layers := sharedLayers; h_model := None |}).2 with
    | Some m => m
    | None => initModel
    end.

Definition sharedVars : list string := Eval vm_compute in varNames sharedModel.
Definition sharedInts : list string := Eval vm_compute in intNames sharedModel.
Definition sharedSystem : list (list (string * Q) * Bound) :=
  Eval vm_compute in systemOf sharedModel.
Definition sharedObjective : list (string * Q) :=
  Eval vm_compute in sparseRow sharedModel (optimize sharedModel).

(** The two families of optimal solutions of [sharedModel], by the values of
    the pair variables; the pair of the first and the last node of the lower
    layer is free. *)
Definition firstFamily (a : string -> Q) : Prop :=
  (a "(0 0) => (0 1)" == 0 /\ a "(0 0) => (0 2)" == 1 /\ a "(0 1) => (0 2)" == 1 /\
   a "(1 0) => (1 1)" == 0 /\ a "(1 0) => (1 2)" == 0 /\ a "(1 1) => (1 2)" == 1 /\
   a "(1 1) => (1 3)" == 1 /\ a "(1 2) => (1 3)" == 1 /\
   (a "(1 0) => (1 3)" == 0 \/ a "(1 0) => (1 3)" == 1))%Q.

Definition secondFamily (a : string -> Q) : Prop :=
  (a "(0 0) => (0 1)" == 1 /\ a "(0 0) => (0 2)" == 0 /\ a "(0 1) => (0 2)" == 0 /\
   a "(1 0) => (1 1)" == 1 /\ a "(1 0) => (1 2)" == 1 /\ a "(1 1) => (1 2)" == 0 /\
   a "(1 1) => (1 3)" == 0 /\ a "(1 2) => (1 3)" == 0 /\
   (a "(1 0) => (1 3)" == 0 \/ a "(1 0) => (1 3)" == 1))%Q.

(** Pair variables at given values, as a solver result. *)
Definition pairValues (x01 x02 x12 y01 y02 y03 y12 y13 y23 : Q) : gmap string Q :=
  list_to_map
    [("(0 0) => (0 1)", x01); ("(0 0) => (0 2)", x02); ("(0 1) => (0 2)", x12);
     ("(1 0) => (1 1)", y01); ("(1 0) => (1 2)", y02); ("(1 0) => (1 3)", y03);
     ("(1 1) => (1 2)", y12); ("(1 1) => (1 3)", y13); ("(1 2) => (1 3)", y23)].

(** An optimal solution of [sharedModel] as the solver reports it: the
    variables at [1]. *)
Definition sharedSolution : gmap string Q :=
  list_to_map
    [("(0 0) => (0 2)", 1%Q); ("(0 1) => (0 2)", 1%Q);
     ("(1 0) => (1 3)", 1%Q); ("(1 1) => (1 2)", 1%Q);
     ("(1 1) => (1 3)", 1%Q); ("(1 2) => (1 3)", 1%Q);
     ("slack ((0 0) => (0 1)) ((1 0) => (1 3))", 1%Q)].

(** The multiplier of the final sort as a function of the value. *)
Definition directionOf (q : Q) : Q := if Qeq_bool q 0 then (-1)%Q else q.

(** Two comparators that agree in sign (or in the exception) on a list. *)
Definition agree {A} (cmp1 cmp2 : A -> A -> Res Q) (l : list A) : Prop :=
  forall a b, a ∈ l -> b ∈ l ->
    match cmp1 a b, cmp2 a b with
    | Ok q1, Ok q2 => Qle_bool q1 0 = Qle_bool q2 0
    | Err e1, Err e2 => e1 = e2
    | _, _ => False
    end.

(** * Properties *)

(** ** The size guard *)

(** A result that is not the size-guard error. *)
Definition mild {A} (r : Res A) : Prop := r <> Err SizeGuardError.

(** A computation that, started with a model in place, keeps one and never
    raises the size-guard error. *)
Definition past_guard {A} (m : M A) : Prop :=
  forall h, is_Some (h_model h) ->
    mild (m h).1 /\ is_Some (h_model (m h).2).

Create HintDb guard.

Lemma mild_ok {A} (a : A) : mild (Ok a).
Proof. discriminate. Qed.

Lemma mild_def {A} (o : option A) : mild (def o).
Proof. destruct o; discriminate. Qed.

Lemma mild_err {A B} e : mild (@Err A e) -> mild (@Err B e).
Proof. unfold mild. congruence. Qed.

Lemma mild_bind {A B} (r : Res A) (f : A -> Res B) :
  mild r -> (forall a, mild (f a)) -> mild (res_bind r f).
Proof.
  intros Hr Hf. destruct r as [a|e]; simpl; [apply Hf|].
  exact (mild_err e Hr).
Qed.

Lemma mild_res_map {A B} (f : A -> Res B) l :
  (forall a, mild (f a)) -> mild (res_map f l).
Proof.
  intros Hf. induction l as [|x l IH]; simpl; [apply mild_ok|].
  apply mild_bind; [apply Hf|]. intros y.
  apply mild_bind; [apply IH|]. intros ys. apply mild_ok.
Qed.

Lemma mild_key ids nodes : mild (key ids nodes).
Proof.
  unfold key. apply mild_bind.
  - apply mild_res_map. intros n. apply mild_def.
  - intros strs. apply mild_ok.
Qed.

Lemma mild_comp ids n1 n2 : mild (comp ids n1 n2).
Proof.
  unfold comp. apply mild_bind; [apply mild_def|]. intros s1.
  apply mild_bind; [apply mild_def|]. intros s2. apply mild_ok.
Qed.

Lemma mild_finalComp ids ordering n1 n2 : mild (finalComp ids ordering n1 n2).
Proof.
  unfold finalComp. apply mild_bind; [apply mild_comp|]. intros c.
  apply mild_bind; [apply mild_key|]. intros k. apply mild_ok.
Qed.

Lemma mild_insertBy {A} (cmp : A -> A -> Res Q) x l :
  (forall a b, mild (cmp a b)) -> mild (Js.insertBy cmp x l).
Proof.
  intros Hc. induction l as [|y l IH]; simpl; [apply mild_ok|].
  apply mild_bind; [apply Hc|]. intros c.
  destruct (Qle_bool c 0); [apply mild_ok|].
  apply mild_bind; [apply IH|]. intros r. apply mild_ok.
Qed.

Lemma mild_sortBy {A} (cmp : A -> A -> Res Q) l :
  (forall a b, mild (cmp a b)) -> mild (Js.sortBy cmp l).
Proof.
  intros Hc. induction l as [|x l IH]; simpl; [apply mild_ok|].
  apply mild_bind; [apply IH|]. intros r. by apply mild_insertBy.
Qed.

Lemma past_guard_ret {A} (a : A) : past_guard (ret a).
Proof. intros h Hm. split; [apply mild_ok | exact Hm]. Qed.

Lemma past_guard_lift {A} (r : Res A) : mild r -> past_guard (lift r).
Proof. intros Hr h Hm. split; [exact Hr | exact Hm]. Qed.

Lemma past_guard_throw {A} e : e <> SizeGuardError -> past_guard (@throw A e).
Proof. intros He h Hm. split; [|exact Hm]. simpl. unfold mild. congruence. Qed.

Lemma past_guard_bind {A B} (m : M A) (f : A -> M B) :
  past_guard m -> (forall a, past_guard (f a)) -> past_guard (bind m f).
Proof.
  intros Hm Hf h Hh. unfold bind. specialize (Hm h Hh).
  destruct (m h) as [[a|e] h']; simpl in *.
  - apply Hf, Hm.
  - destruct Hm as [Hmild Hsome]. split; [|exact Hsome].
    exact (mild_err e Hmild).
Qed.

Lemma past_guard_forM {A} (l : list A) (f : A -> M unit) :
  (forall a, past_guard (f a)) -> past_guard (forM_ l f).
Proof.
  intros Hf. induction l as [|x l IH]; simpl.
  - apply past_guard_ret.
  - apply past_guard_bind; [apply Hf | intros _; apply IH].
Qed.

Lemma past_guard_getLayer li : past_guard (getLayer li).
Proof. intros h Hm. split; [apply mild_def | exact Hm]. Qed.

Lemma past_guard_getModel : past_guard getModel.
Proof. intros h Hm. split; [apply mild_def | exact Hm]. Qed.

Lemma past_guard_putModel m : past_guard (putModel m).
Proof. intros h Hm. split; [apply mild_ok | by eexists]. Qed.

Lemma past_guard_sortLayer li cmp :
  (forall a b, mild (cmp a b)) -> past_guard (sortLayer li cmp).
Proof.
  intros Hc h Hm. unfold sortLayer.
  destruct (h_layers h !! li) as [layer|]; [|split; [discriminate | exact Hm]].
  pose proof (mild_sortBy cmp layer Hc) as Hs.
  destruct (Js.sortBy cmp layer) as [sorted|e]; simpl.
  - split; [apply mild_ok | exact Hm].
  - split; [exact (mild_err e Hs) | exact Hm].
Qed.

Lemma past_guard_setInt k v : past_guard (setInt k v).
Proof.
  apply past_guard_bind; [apply past_guard_getModel|].
  intros m. apply past_guard_putModel.
Qed.

Lemma past_guard_setConstraint k b : past_guard (setConstraint k b).
Proof.
  apply past_guard_bind; [apply past_guard_getModel|].
  intros m. apply past_guard_putModel.
Qed.

Lemma past_guard_setVariable k c : past_guard (setVariable k c).
Proof.
  apply past_guard_bind; [apply past_guard_getModel|].
  intros m. apply past_guard_putModel.
Qed.

Lemma past_guard_setCoef k c v : past_guard (setCoef k c v).
Proof.
  apply past_guard_bind; [apply past_guard_getModel|].
  intros m. destruct (variables m !! k).
  - apply past_guard_putModel.
  - by apply past_guard_throw.
Qed.

#[local] Hint Resolve past_guard_ret past_guard_getLayer past_guard_getModel
  past_guard_putModel past_guard_setInt past_guard_setConstraint
  past_guard_setVariable past_guard_setCoef mild_key mild_comp
  mild_finalComp : guard.

Ltac guard_step :=
  first
    [ solve [auto with guard]
    | apply past_guard_forM; intros ?
    | apply past_guard_lift
    | apply past_guard_sortLayer; intros ? ?
    | match goal with |- past_guard (let '(_, _) := ?p in _) => destruct p end
    | match goal with |- past_guard (if ?b then _ else _) => destruct b end
    | apply past_guard_bind; [|intros ?] ].

Lemma past_guard_perms ids li : past_guard (perms ids li).
Proof. unfold perms, pairVariables, triangles. repeat guard_step. Qed.

Lemma past_guard_cross ichildren ids li : past_guard (cross ichildren ids li).
Proof. unfold cross. repeat guard_step. Qed.

#[local] Hint Resolve past_guard_perms past_guard_cross : guard.

Lemma bind_getLayers {B} (f : list (list Node) -> M B) h :
  bind getLayers f h = f (h_layers h) h.
Proof. reflexivity. Qed.

Lemma bind_putModel {B} m (f : unit -> M B) h :
  bind (putModel m) f h = f tt {| h_layers := h_layers h; h_model := Some m |}.
Proof. reflexivity. Qed.

(** C3. A layering whose sum of squared layer sizes exceeds 2500 makes the
    call raise the size-guard error, with the caller's layers untouched and
    no model created; under [clowntown] the same call gets past the guard:
    it creates the model and whatever it returns is not the size-guard
    error. *)
Theorem size_guard_raises_unless_clowntown
    (ichildren : Node -> list Node) (Solve : Model -> gmap string Q)
    (layers : list (list Node)) :
  (2500 < sizeOf layers)%Z ->
  runOpt ichildren Solve {| opt_clowntown := false |} layers
    = (Err SizeGuardError, {| h_layers := layers; h_model := None |})
  /\ (runOpt ichildren Solve {| opt_clowntown := true |} layers).1
       <> Err SizeGuardError
  /\ is_Some (h_model (runOpt ichildren Solve {| opt_clowntown := true |} layers).2).
Proof.
  intros Hbig. split.
  - unfold runOpt, optCall. rewrite bind_getLayers. simpl.
    apply Z.ltb_lt in Hbig. rewrite Hbig. reflexivity.
  - unfold runOpt, optCall. rewrite bind_getLayers. simpl.
    rewrite bind_putModel.
    match goal with
    | |- context [bind ?m ?f] => assert (Hpg : past_guard (bind m f))
    end.
    { repeat guard_step. }
    apply Hpg. by eexists.
Qed.

Definition wideLayering : list (list Node) := [seq 0 51].

Lemma size_guard_raises_witness :
  (2500 < sizeOf wideLayering)%Z
  /\ runOpt (fun _ => []) (fun _ => ∅) {| opt_clowntown := false |} wideLayering
      = (Err SizeGuardError, {| h_layers := wideLayering; h_model := None |})
  /\ (runOpt (fun _ => []) (fun _ => ∅) {| opt_clowntown := true |} wideLayering).1
      <> Err SizeGuardError
  /\ is_Some (h_model (runOpt (fun _ => []) (fun _ => ∅)
                         {| opt_clowntown := true |} wideLayering).2).
Proof.
  split; [reflexivity|].
  apply (size_guard_raises_unless_clowntown (fun _ => []) (fun _ => ∅) wideLayering).
  reflexivity.
Defined.


(** ** Loops that leave the heap alone *)

Lemma forM_skip {A} (l : list A) (f : A -> M unit) h :
  (forall x, x ∈ l -> f x h = (Ok tt, h)) -> forM_ l f h = (Ok tt, h).
Proof.
  induction l as [|x l IH]; intros Hf; simpl; [reflexivity|].
  unfold bind. rewrite Hf by left. apply IH.
  intros y Hy. apply Hf. by right.
Qed.

Lemma elem_of_slice {A} (l : list A) start stop x :
  x ∈ Js.slice l start stop -> x ∈ l.
Proof.
  unfold Js.slice. intros Hx.
  apply elem_of_take in Hx as (i & Hi & _).
  rewrite lookup_drop in Hi. by eapply list_elem_of_lookup_2.
Qed.

Lemma elem_of_entries {A} (l : list A) i x :
  (i, x) ∈ Js.entries l -> l !! i = Some x.
Proof.
  unfold Js.entries. intros Hx.
  apply elem_of_lookup_imap in Hx as (j & y & Heq & Hj).
  by inversion Heq; subst.
Qed.

Lemma key_ok ids nodes :
  (forall n, n ∈ nodes -> is_Some (ids !! n)) -> exists k, key ids nodes = Ok k.
Proof.
  intros Hn. unfold key.
  assert (exists strs, res_map (fun n => def (ids !! n)) nodes = Ok strs) as [strs ->].
  { induction nodes as [|n nodes IH]; simpl; [by eexists|].
    destruct (Hn n) as [s ->]; [by left|]. simpl.
    destruct IH as [strs ->]; [intros m Hm; apply Hn; by right|].
    simpl. by eexists. }
  simpl. by eexists.
Qed.

Lemma comp_ok ids n1 n2 :
  is_Some (ids !! n1) -> is_Some (ids !! n2) -> exists c, comp ids n1 n2 = Ok c.
Proof. intros [s1 H1] [s2 H2]. unfold comp. rewrite H1, H2. simpl. by eexists. Qed.

Lemma sortBy_short {A} (cmp : A -> A -> Res Q) (l : list A) :
  (length l <= 1)%nat -> Js.sortBy cmp l = Ok l.
Proof.
  destruct l as [|x [|y l]]; simpl; intros Hl; [reflexivity..|lia].
Qed.

(** C7. A layer of at most one node makes [perms] add nothing to the model
    (no pair variable, no triangle constraint), and a layer whose nodes have
    no edge to the next layer makes [cross] add nothing (no slack variable,
    no objective term): both return with the heap, model included, as it
    was. *)
Theorem small_layer_and_edgeless_pair_add_nothing
    (ichildren : Node -> list Node) (ids : gmap Node string)
    (h : Heap) (li : nat) (layer : list Node) :
  h_layers h !! li = Some layer ->
  ((length layer <= 1)%nat -> perms ids li h = (Ok tt, h))
  /\ ((forall p, p ∈ layer -> is_Some (ids !! p)) ->
      (forall p, p ∈ layer -> ichildren p = []) ->
      cross ichildren ids li h = (Ok tt, h)).
Proof.
  intros Hli. split.
  - intros Hlen. unfold perms, bind, sortLayer, getLayer.
    rewrite Hli, (sortBy_short _ _ Hlen).
    rewrite (list_insert_id _ _ _ Hli). simpl.
    replace {| h_layers := h_layers h; h_model := h_model h |} with h
      by (by destruct h).
    rewrite Hli. simpl. unfold pairVariables, triangles.
    assert (Js.slice layer 0 (Some (len layer - 1)%Z) = []) as ->.
    { destruct layer as [|x [|y l]]; [reflexivity..|simpl in Hlen; lia]. }
    reflexivity.
  - intros Hids Hch. unfold cross, bind, getLayer. rewrite Hli. simpl.
    apply forM_skip. intros [i p1] Hp1.
    apply elem_of_entries, list_elem_of_lookup_2, elem_of_slice in Hp1.
    apply forM_skip. intros p2 Hp2. apply elem_of_slice in Hp2.
    destruct (key_ok ids [p1; p2]) as [k Hk].
    { intros n Hn. apply Hids.
      apply elem_of_cons in Hn as [->|Hn]; [exact Hp1|].
      by apply list_elem_of_singleton in Hn as ->. }
    unfold bind, lift. rewrite Hk, (Hch p1 Hp1). reflexivity.
Qed.

Definition singleHeap : Heap :=
  {| h_layers := [[0%nat]; [1%nat; 2%nat]]; h_model := Some initModel |}.

Lemma small_layer_witness :
  perms (buildIds (h_layers singleHeap)) 0 singleHeap = (Ok tt, singleHeap)
  /\ cross (fun _ => []) (buildIds (h_layers singleHeap)) 1 singleHeap
      = (Ok tt, singleHeap).
Proof.
  split.
  - destruct (small_layer_and_edgeless_pair_add_nothing
                (fun _ => []) (buildIds (h_layers singleHeap)) singleHeap 0
                [0%nat] eq_refl) as [Hperms _].
    apply Hperms. simpl. lia.
  - destruct (small_layer_and_edgeless_pair_add_nothing
                (fun _ => []) (buildIds (h_layers singleHeap)) singleHeap 1
                [1%nat; 2%nat] eq_refl) as [_ Hcross].
    apply Hcross.
    + intros p Hp. apply elem_of_cons in Hp as [->|Hp]; [by eexists|].
      apply list_elem_of_singleton in Hp as ->. by eexists.
    + reflexivity.
Defined.


(** ** The fallback of the final sort *)








(** ** Operator construction and configuration *)

Lemma deref_alloc_old {O} (s : list O) (o o' : O) r :
  deref s r = Some o -> deref (alloc o' s).2 r = Some o /\ (alloc o' s).1 <> r.
Proof.
  unfold deref, alloc. simpl. intros Hr.
  pose proof (lookup_lt_Some _ _ _ Hr) as Hlt. split.
  - by rewrite lookup_app_l.
  - lia.
Qed.

Lemma deref_alloc_new {O} (s : list O) (o' : O) :
  deref (alloc o' s).2 (alloc o' s).1 = Some o'.
Proof.
  unfold deref, alloc. simpl.
  rewrite lookup_app_r by lia. by rewrite Nat.sub_diag.
Qed.

(** C8. Positional arguments make either factory raise before any options
    object is allocated, and a negative width makes the setter raise with the
    store as it was: no operator comes back, with the width clamped or
    otherwise. *)
Theorem factories_and_width_reject {V}
    (args : list V) (so : list OptOptions) (sc : list CGOptions)
    (op : CoffmanGrahamOperator) (w : Z) :
  args <> [] -> (w < 0)%Z -> is_Some (deref sc (cg_env op)) ->
  opt args so = (Err ArgumentsError, so)
  /\ coffmanGraham args sc = (Err ArgumentsError, sc)
  /\ width op (Some w) sc = (Err WidthError, sc).
Proof.
  intros Hargs Hw [o Ho]. repeat split.
  - unfold opt. destruct args; [done|reflexivity].
  - unfold coffmanGraham. destruct args; [done|reflexivity].
  - unfold width. rewrite Ho. apply Z.ltb_lt in Hw. by rewrite Hw.
Qed.

Lemma factories_and_width_reject_witness :
  opt [tt] [] = (Err ArgumentsError, [])
  /\ coffmanGraham [tt] [{| cg_width := 0 |}]
      = (Err ArgumentsError, [{| cg_width := 0 |}])
  /\ width {| cg_env := 0 |} (Some (-1)%Z) [{| cg_width := 0 |}]
      = (Err WidthError, [{| cg_width := 0 |}]).
Proof.
  apply (factories_and_width_reject [tt] [] [{| cg_width := 0 |}]
           {| cg_env := 0 |} (-1)%Z).
  - discriminate.
  - reflexivity.
  - by eexists.
Defined.


(** C9. A setter called with a valid value returns a new operator on a
    fresh options object; the options object of the operator it was called
    on is still what it was, so that operator's getter answers as before,
    and the new operator's getter answers the value set. *)
Theorem setters_leave_operator_unchanged
    (so : list OptOptions) (opo : OptOperator) (o : OptOptions) (v : bool)
    (sc : list CGOptions) (opc : CoffmanGrahamOperator) (c : CGOptions) (w : Z) :
  deref so (opt_env opo) = Some o ->
  deref sc (cg_env opc) = Some c ->
  (0 <= w)%Z ->
  (exists opo' so',
      clowntown opo (Some v) so = (Ok (inr opo'), so')
      /\ opt_env opo' <> opt_env opo
      /\ deref so' (opt_env opo) = Some o
      /\ clowntown opo None so = (Ok (inl (opt_clowntown o)), so)
      /\ clowntown opo None so' = (Ok (inl (opt_clowntown o)), so')
      /\ clowntown opo' None so' = (Ok (inl v), so'))
  /\ (exists opc' sc',
      width opc (Some w) sc = (Ok (inr opc'), sc')
      /\ cg_env opc' <> cg_env opc
      /\ deref sc' (cg_env opc) = Some c
      /\ width opc None sc = (Ok (inl (cg_width c)), sc)
      /\ width opc None sc' = (Ok (inl (cg_width c)), sc')
      /\ width opc' None sc' = (Ok (inl w), sc')).
Proof.
  intros Ho Hc Hw. split.
  - destruct (deref_alloc_old so o {| opt_clowntown := v |} _ Ho) as [Hold Hne].
    pose proof (deref_alloc_new so {| opt_clowntown := v |}) as Hnew.
    unfold alloc in Hold, Hne, Hnew. simpl in Hold, Hne, Hnew.
    exists (buildOptOperator (length so)), (so ++ [{| opt_clowntown := v |}]).
    unfold clowntown, alloc. simpl. rewrite Ho, Hold, Hnew.
    repeat split; auto.
  - destruct (deref_alloc_old sc c {| cg_width := w |} _ Hc) as [Hold Hne].
    pose proof (deref_alloc_new sc {| cg_width := w |}) as Hnew.
    unfold alloc in Hold, Hne, Hnew. simpl in Hold, Hne, Hnew.
    exists (buildCGOperator (length sc)), (sc ++ [{| cg_width := w |}]).
    unfold width, alloc. simpl. rewrite Hc, Hold, Hnew.
    assert ((w <? 0)%Z = false) as -> by lia.
    repeat split; auto.
Qed.

Lemma setters_leave_operator_unchanged_witness :
  (exists opo' so',
      clowntown {| opt_env := 0 |} (Some true) [{| opt_clowntown := false |}]
        = (Ok (inr opo'), so')
      /\ opt_env opo' <> 0%nat
      /\ deref so' 0 = Some {| opt_clowntown := false |}
      /\ clowntown {| opt_env := 0 |} None [{| opt_clowntown := false |}]
          = (Ok (inl false), [{| opt_clowntown := false |}])
      /\ clowntown {| opt_env := 0 |} None so' = (Ok (inl false), so')
      /\ clowntown opo' None so' = (Ok (inl true), so'))
  /\ (exists opc' sc',
      width {| cg_env := 0 |} (Some 3%Z) [{| cg_width := 0 |}]
        = (Ok (inr opc'), sc')
      /\ cg_env opc' <> 0%nat
      /\ deref sc' 0 = Some {| cg_width := 0 |}
      /\ width {| cg_env := 0 |} None [{| cg_width := 0 |}]
          = (Ok (inl 0%Z), [{| cg_width := 0 |}])
      /\ width {| cg_env := 0 |} None sc' = (Ok (inl 0%Z), sc')
      /\ width opc' None sc' = (Ok (inl 3%Z), sc')).
Proof.
  apply (setters_leave_operator_unchanged
           [{| opt_clowntown := false |}] {| opt_env := 0 |}
           {| opt_clowntown := false |} true
           [{| cg_width := 0 |}] {| cg_env := 0 |} {| cg_width := 0 |} 3%Z).
  - reflexivity.
  - reflexivity.
  - discriminate.
Defined.


(** ** The automatic width *)

(** The rounded square root the documentation of [width] speaks of:
    [Math.round(Math.sqrt(n))] in exact arithmetic, as
    [floor ((sqrt (4 n) + 1) / 2)]. *)
Definition roundSqrt (n : Z) : Z := ((Z.sqrt (4 * n) + 1) / 2)%Z.

(** [floorSqrtPlusHalf n] is the integer [k] with [k² <= n + 1/2 < (k+1)²]. *)
Lemma floorSqrtPlusHalf_spec n :
  (0 <= n)%Z ->
  let k := floorSqrtPlusHalf n in
  (0 <= k /\ 2 * (k * k) <= 2 * n + 1 < 2 * ((k + 1) * (k + 1)))%Z.
Proof.
  intros Hn k. subst k. unfold floorSqrtPlusHalf.
  pose proof (Z.sqrt_spec (4 * n + 2) ltac:(lia)) as Hs.
  pose proof (Z.sqrt_nonneg (4 * n + 2)) as H0.
  set (s := Z.sqrt (4 * n + 2)) in *.
  pose proof (Z.div_mod s 2 ltac:(lia)) as Hd.
  pose proof (Z.mod_pos_bound s 2 ltac:(lia)) as Hm.
  set (k := (s / 2)%Z) in *. unfold Z.succ in Hs.
  assert (s = 2 * k \/ s = 2 * k + 1)%Z as [Hk|Hk] by lia;
    rewrite Hk in Hs; nia.
Qed.

(** [roundSqrt n] is the integer [k] with [k - 1/2 <= sqrt n < k + 1/2]. *)
Lemma roundSqrt_spec n :
  (0 <= n)%Z ->
  let k := roundSqrt n in
  (0 <= k /\ (2 * k - 1 <= 0 \/ (2 * k - 1) * (2 * k - 1) <= 4 * n)
   /\ 4 * n < (2 * k + 1) * (2 * k + 1))%Z.
Proof.
  intros Hn k. subst k. unfold roundSqrt.
  pose proof (Z.sqrt_spec (4 * n) ltac:(lia)) as Hs.
  pose proof (Z.sqrt_nonneg (4 * n)) as H0.
  set (s := Z.sqrt (4 * n)) in *.
  pose proof (Z.div_mod (s + 1) 2 ltac:(lia)) as Hd.
  pose proof (Z.mod_pos_bound (s + 1) 2 ltac:(lia)) as Hm.
  set (k := ((s + 1) / 2)%Z) in *. unfold Z.succ in Hs.
  assert (s = 2 * k - 1 \/ s = 2 * k)%Z as [Hk|Hk] by lia;
    rewrite Hk in Hs; nia.
Qed.

(** The half added under the root never changes the floor: the automatic
    width is the integer square root of the number of nodes. *)
Lemma floorSqrtPlusHalf_sqrt n : (0 <= n)%Z -> floorSqrtPlusHalf n = Z.sqrt n.
Proof.
  intros Hn.
  pose proof (floorSqrtPlusHalf_spec n Hn) as Hk. simpl in Hk.
  set (k := floorSqrtPlusHalf n) in *.
  symmetry. apply Z.sqrt_unique. nia.
Qed.

Definition threeNodes : Dag :=
  {| d_nodes := [0; 1; 2]; d_roots := [0; 1; 2]; d_children := fun _ => [] |}.

(** C5. With width 0 a dag of three nodes gets the maximum width
    [floor (sqrt 3.5) = 1], whereas the square root of 3 rounds to 2. *)
Theorem auto_width_three_nodes :
  maxWidthOf {| cg_width := 0 |} threeNodes = 1%Z
  /\ roundSqrt (size threeNodes) = 2%Z.
Proof. split; reflexivity. Qed.

(** ** The queue comparator *)

Lemma compFrom_prefix pre l t :
  compFrom (length pre) l (pre ++ l ++ t) = true.
Proof.
  revert pre. induction l as [|x l IH]; intros pre; simpl; [reflexivity|].
  rewrite lookup_app_r by lia. rewrite Nat.sub_diag. simpl.
  rewrite Z.ltb_irrefl.
  specialize (IH (pre ++ [x])).
  rewrite length_app in IH. simpl in IH.
  rewrite Nat.add_1_r in IH. rewrite <- app_assoc in IH. exact IH.
Qed.

Lemma compFrom_longer pre l x t :
  compFrom (length pre) (l ++ x :: t) (pre ++ l) = false.
Proof.
  revert pre. induction l as [|y l IH]; intros pre; simpl.
  - rewrite app_nil_r. by rewrite lookup_ge_None_2.
  - rewrite lookup_app_r by lia. rewrite Nat.sub_diag. simpl.
    rewrite Z.ltb_irrefl.
    specialize (IH (pre ++ [y])).
    rewrite length_app in IH. simpl in IH.
    rewrite Nat.add_1_r in IH. rewrite <- app_assoc in IH. exact IH.
Qed.

Definition prefixData : gmap Node Data :=
  <[0%nat := {| before := [3%Z]; parents := [] |}]>
    (<[1%nat := {| before := [3%Z; 1%Z]; parents := [] |}]> ∅).

(** C6, as stated, fails: node 0 with list [3] and node 1 with list [3; 1]
    do not compare equal, node 0 compares less than node 1. *)
Lemma prefix_compares_less :
  cgComp prefixData 0 1 = Ok true /\ cgComp prefixData 1 0 = Ok false.
Proof. split; reflexivity. Qed.

(** C6, amended. When the list of [left] is a proper prefix of the list of
    [right], [left] compares less than [right] and [right] does not compare
    less than [left]. *)
Theorem proper_prefix_compares_less
    (data : gmap Node Data) (left right : Node) (l r : Data) (x : Z) (t : list Z) :
  data !! left = Some l -> data !! right = Some r ->
  before r = before l ++ x :: t ->
  cgComp data left right = Ok true /\ cgComp data right left = Ok false.
Proof.
  intros Hl Hr Hpre. unfold cgComp. rewrite Hl, Hr. simpl.
  unfold compBefore. rewrite Hpre. split; f_equal.
  - exact (compFrom_prefix [] (before l) (x :: t)).
  - exact (compFrom_longer [] (before l) x t).
Qed.

Lemma proper_prefix_witness :
  cgComp prefixData 0 1 = Ok true /\ cgComp prefixData 1 0 = Ok false.
Proof.
  apply (proper_prefix_compares_less prefixData 0 1
           {| before := [3%Z]; parents := [] |}
           {| before := [3%Z; 1%Z]; parents := [] |} 1%Z []); reflexivity.
Defined.


(** ** Sorting returns a permutation *)

Lemma insertBy_perm {A} (cmp : A -> A -> Res Q) x l :
  (forall y, y ∈ l -> exists q, cmp x y = Ok q) ->
  exists l', Js.insertBy cmp x l = Ok l' /\ l' ≡ₚ x :: l.
Proof.
  induction l as [|y l IH]; intros Hc; simpl.
  - by exists [x].
  - destruct (Hc y) as [q ->]; [by left|]. simpl.
    destruct (Qle_bool q 0); [by eexists|].
    destruct IH as (l' & -> & Hl'); [intros z Hz; apply Hc; by right|].
    simpl. eexists; split; [reflexivity|].
    rewrite Hl'. apply Permutation_swap.
Qed.

Lemma sortBy_perm {A} (cmp : A -> A -> Res Q) l :
  (forall a b, a ∈ l -> b ∈ l -> exists q, cmp a b = Ok q) ->
  exists l', Js.sortBy cmp l = Ok l' /\ l' ≡ₚ l.
Proof.
  induction l as [|x l IH]; intros Hc; simpl.
  - by exists [].
  - destruct IH as (l' & -> & Hl').
    { intros a b Ha Hb. apply Hc; by right. }
    simpl. destruct (insertBy_perm cmp x l') as (l'' & -> & Hl'').
    { intros y Hy. apply Hc; [by left|]. right. by rewrite <- Hl'. }
    exists l''. split; [reflexivity|]. by rewrite Hl'', Hl'.
Qed.

(** ** Slices as [take] and [drop] *)

Lemma slice_from {A} (l : list A) (k : nat) :
  Js.slice l (Z.of_nat k) None = drop k l.
Proof.
  unfold Js.slice, Js.relIndex.
  assert ((Z.of_nat k <? 0)%Z = false) as -> by (apply Z.ltb_ge; lia).
  destruct (decide (k <= length l)%nat) as [Hk|Hk].
  - rewrite Z.min_l by lia. rewrite Nat2Z.id.
    apply take_ge. rewrite length_drop. lia.
  - rewrite Z.min_r by lia. rewrite Nat2Z.id.
    rewrite (drop_ge l k) by lia. rewrite drop_all. by rewrite take_nil.
Qed.

Lemma slice_init {A} (l : list A) :
  Js.slice l 0 (Some (len l - 1)%Z) = take (length l - 1) l.
Proof.
  unfold Js.slice, Js.relIndex, len.
  change (0 <? 0)%Z with false. cbv iota.
  rewrite (Z.min_l 0) by lia. change (Z.to_nat 0) with 0%nat. rewrite drop_0.
  destruct l as [|x l]; [by rewrite !take_nil|].
  assert ((Z.of_nat (length (x :: l)) - 1 <? 0)%Z = false) as ->
    by (apply Z.ltb_ge; simpl; lia).
  rewrite Z.min_l by lia. f_equal. simpl. lia.
Qed.

Lemma entries_lookup {A} (l : list A) i x :
  (i, x) ∈ Js.entries l <-> l !! i = Some x.
Proof.
  split; [apply elem_of_entries|].
  intros Hi. unfold Js.entries.
  exact (elem_of_lookup_imap_2 (fun i x => (i, x)) l x i Hi).
Qed.

(** [a] stands before [b] in [l]; [a] and [b] stand at two places of [l]. *)
Definition before_in (l : list Node) (a b : Node) : Prop :=
  exists i j, (i < j)%nat /\ l !! i = Some a /\ l !! j = Some b.

Definition apart (l : list Node) (a b : Node) : Prop :=
  exists i j, i <> j /\ l !! i = Some a /\ l !! j = Some b.

Lemma apart_before_in l a b : apart l a b -> before_in l a b \/ before_in l b a.
Proof.
  intros (i & j & Hij & Hi & Hj).
  destruct (decide (i < j)%nat); [left | right].
  - by exists i, j.
  - exists j, i. split; [lia|done].
Qed.

Lemma apart_distinct l a b : a ∈ l -> b ∈ l -> a <> b -> apart l a b.
Proof.
  intros [i Hi]%list_elem_of_lookup_1 [j Hj]%list_elem_of_lookup_1 Hab.
  exists i, j. split; [|done]. intros ->. congruence.
Qed.

Lemma before_in_elem l a b : before_in l a b -> a ∈ l /\ b ∈ l.
Proof.
  intros (i & j & _ & Hi & Hj).
  split; by eapply list_elem_of_lookup_2.
Qed.

Lemma pairs_loop_before_in l i a b :
  (i, a) ∈ Js.entries (take (length l - 1) l) -> b ∈ drop (S i) l ->
  before_in l a b.
Proof.
  intros Ha%entries_lookup [j Hj]%list_elem_of_lookup_1.
  rewrite lookup_drop in Hj.
  apply lookup_take_Some in Ha as [Ha _].
  exists i, (S i + j)%nat. split; [lia|done].
Qed.

Lemma before_in_pairs_loop l a b :
  before_in l a b ->
  exists i, (i, a) ∈ Js.entries (take (length l - 1) l) /\ b ∈ drop (S i) l.
Proof.
  intros (i & j & Hij & Hi & Hj). exists i. split.
  - apply entries_lookup. apply lookup_take_Some. split; [done|].
    apply lookup_lt_Some in Hj. lia.
  - apply list_elem_of_lookup. exists (j - S i)%nat.
    rewrite lookup_drop. by replace (S i + (j - S i))%nat with j by lia.
Qed.

Lemma triples_loop_before_in l i j n1 n2 n3 :
  (i, n1) ∈ Js.entries (take (length l - 1) l) ->
  (j, n2) ∈ Js.entries (drop (S i) l) ->
  n3 ∈ drop (i + j + 2) l ->
  before_in l n1 n2 /\ before_in l n1 n3 /\ before_in l n2 n3.
Proof.
  intros H1%entries_lookup H2%entries_lookup [k H3]%list_elem_of_lookup_1.
  rewrite lookup_drop in H2, H3.
  apply lookup_take_Some in H1 as [H1 _].
  repeat split.
  - exists i, (S i + j)%nat. split; [lia|done].
  - exists i, (i + j + 2 + k)%nat. split; [lia|done].
  - exists (S i + j)%nat, (i + j + 2 + k)%nat. split; [lia|done].
Qed.

(** ** Keys *)

Lemma sortStrings_swap a b : Js.sortStrings [a; b] = Js.sortStrings [b; a].
Proof.
  unfold Js.sortStrings. simpl.
  rewrite (String.compare_antisym b a).
  destruct (String.compare a b) eqn:Hab; simpl; try reflexivity.
  apply String.compare_eq_iff in Hab. by subst.
Qed.

Lemma key_swap ids a b : key ids [a; b] = key ids [b; a].
Proof.
  unfold key. cbn [res_map].
  destruct (ids !! a) as [sa|], (ids !! b) as [sb|];
    cbn [def res_bind]; try reflexivity.
  by rewrite sortStrings_swap.
Qed.

(** ** Building the model without exception *)

(** The model has the variable [k]. *)
Definition hasVar (k : string) (h : Heap) : Prop :=
  exists m, h_model h = Some m /\ is_Some (variables m !! k).

(** [builds R m K]: started on a model that has the variables [R], the
    computation [m] returns normally, leaves the layers as they are, keeps
    every variable of the model and adds the variables [K]. *)
Definition builds (R : string -> Prop) (m : M unit) (K : string -> Prop) : Prop :=
  forall h, is_Some (h_model h) -> (forall k, R k -> hasVar k h) ->
    exists h', m h = (Ok tt, h') /\ h_layers h' = h_layers h /\
      is_Some (h_model h') /\ (forall k, hasVar k h -> hasVar k h') /\
      (forall k, K k -> hasVar k h').

Definition none : string -> Prop := fun _ => False.

Lemma builds_weaken (R R' K K' : string -> Prop) m :
  (forall k, R k -> R' k) -> (forall k, K' k -> K k) ->
  builds R m K -> builds R' m K'.
Proof.
  intros HR HK Hb h Hm Hpre.
  destruct (Hb h Hm) as (h' & Hrun & Hl & Hm' & Hmono & Hnew); [by auto|].
  exists h'. repeat split; auto.
Qed.

Lemma builds_ret R : builds R (ret tt) none.
Proof. intros h Hm _. exists h. repeat split; auto. intros k []. Qed.

Lemma builds_then R m1 K1 m2 K2 :
  builds R m1 K1 -> builds (fun k => R k \/ K1 k) m2 K2 ->
  builds R (m1 >>> m2) (fun k => K1 k \/ K2 k).
Proof.
  intros H1 H2 h Hm Hpre.
  destruct (H1 h Hm Hpre) as (h1 & Hrun1 & Hl1 & Hm1 & Hmono1 & Hnew1).
  destruct (H2 h1 Hm1) as (h2 & Hrun2 & Hl2 & Hm2 & Hmono2 & Hnew2).
  { intros k [Hk|Hk]; auto. }
  exists h2. unfold bind. rewrite Hrun1, Hrun2.
  repeat split; auto; [congruence|].
  intros k [Hk|Hk]; auto.
Qed.

Lemma builds_seq R m1 m2 K :
  builds R m1 none -> builds R m2 K -> builds R (m1 >>> m2) K.
Proof.
  intros H1 H2.
  apply (builds_weaken R R (fun k => none k \/ K k) K); [auto | by right |].
  apply builds_then; [exact H1|].
  apply (builds_weaken R _ K K); [|auto|exact H2].
  intros k Hk. by left.
Qed.

Lemma builds_lift {A} (r : Res A) a (f : A -> M unit) R K :
  r = Ok a -> builds R (f a) K -> builds R (bind (lift r) f) K.
Proof.
  intros -> Hf h Hm Hpre.
  destruct (Hf h Hm Hpre) as (h' & Hrun & Hrest).
  exists h'. split; [|exact Hrest]. unfold bind, lift. exact Hrun.
Qed.

Lemma builds_forM {A} (l : list A) (f : A -> M unit) R (K : A -> string -> Prop) :
  (forall x, x ∈ l -> builds R (f x) (K x)) ->
  builds R (forM_ l f) (fun k => exists x, x ∈ l /\ K x k).
Proof.
  induction l as [|x l IH]; intros Hf; simpl.
  - apply (builds_weaken R R none); [auto| |apply builds_ret].
    intros k (x & Hx & _). by apply elem_of_nil in Hx.
  - apply (builds_weaken R R (fun k => K x k \/ exists y, y ∈ l /\ K y k)); [auto| |].
    + intros k (y & Hy & Hk). apply elem_of_cons in Hy as [->|Hy]; eauto.
    + apply builds_then; [apply Hf; by left|].
      apply (builds_weaken R (fun k => R k \/ K x k)
               (fun k => exists y, y ∈ l /\ K y k)
               (fun k => exists y, y ∈ l /\ K y k)); [by left|auto|].
      apply IH. intros y Hy. apply Hf. by right.
Qed.

Lemma builds_forM_none {A} (l : list A) (f : A -> M unit) R :
  (forall x, x ∈ l -> builds R (f x) none) -> builds R (forM_ l f) none.
Proof.
  intros Hf.
  apply (builds_weaken R R (fun k => exists x, x ∈ l /\ none k)); [auto|intros k []|].
  by apply (builds_forM l f R (fun _ => none)).
Qed.

Lemma builds_setInt R k v : builds R (setInt k v) none.
Proof.
  intros h [m Hm] _. unfold setInt, bind, getModel, putModel. rewrite Hm. simpl.
  eexists. split; [reflexivity|]. simpl. repeat split; [by eexists| |intros ? []].
  intros k' (m' & Hm' & Hk'). rewrite Hm in Hm'. inversion Hm'; subst.
  eexists. split; [reflexivity|]. exact Hk'.
Qed.

Lemma builds_setConstraint R k b : builds R (setConstraint k b) none.
Proof.
  intros h [m Hm] _. unfold setConstraint, bind, getModel, putModel.
  rewrite Hm. simpl.
  eexists. split; [reflexivity|]. simpl. repeat split; [by eexists| |intros ? []].
  intros k' (m' & Hm' & Hk'). rewrite Hm in Hm'. inversion Hm'; subst.
  eexists. split; [reflexivity|]. exact Hk'.
Qed.

Lemma builds_setVariable R k c : builds R (setVariable k c) (fun k' => k' = k).
Proof.
  intros h [m Hm] _. unfold setVariable, bind, getModel, putModel.
  rewrite Hm. simpl.
  eexists. split; [reflexivity|]. simpl. repeat split; [by eexists| |].
  - intros k' (m' & Hm' & Hk'). rewrite Hm in Hm'. inversion Hm'; subst.
    eexists. split; [reflexivity|]. simpl.
    destruct (decide (k = k')) as [->|Hne].
    + rewrite lookup_insert_eq. by eexists.
    + by rewrite lookup_insert_ne.
  - intros k' ->. eexists. split; [reflexivity|]. simpl.
    rewrite lookup_insert_eq. by eexists.
Qed.

Lemma builds_setCoef (R : string -> Prop) k c v :
  R k -> builds R (setCoef k c v) none.
Proof.
  intros HR h [m Hm] Hpre. unfold setCoef, bind, getModel, putModel.
  rewrite Hm. simpl.
  destruct (Hpre k HR) as (m' & Hm' & [coefs Hk]).
  rewrite Hm in Hm'. inversion Hm'; subst m'. rewrite Hk.
  eexists. split; [reflexivity|]. simpl. repeat split; [by eexists| |intros ? []].
  intros k' (m' & Hm'' & Hk'). rewrite Hm in Hm''. inversion Hm''; subst.
  eexists. split; [reflexivity|]. simpl.
  destruct (decide (k = k')) as [->|Hne].
  - rewrite lookup_insert_eq. by eexists.
  - by rewrite lookup_insert_ne.
Qed.

Lemma key_pair_ok ids (l : list Node) a b :
  (forall n, n ∈ l -> is_Some (ids !! n)) -> a ∈ l -> b ∈ l ->
  exists k, key ids [a; b] = Ok k.
Proof.
  intros Hids Ha Hb. apply key_ok. intros n Hn.
  apply elem_of_cons in Hn as [->|Hn]; [by apply Hids|].
  apply list_elem_of_singleton in Hn as ->. by apply Hids.
Qed.

Lemma pairVariables_builds ids layer R :
  (forall n, n ∈ layer -> is_Some (ids !! n)) ->
  builds R (pairVariables ids layer)
    (fun k => exists a b, before_in layer a b /\ key ids [a; b] = Ok k).
Proof.
  intros Hids. unfold pairVariables. rewrite slice_init.
  set (K1 := fun (x : nat * Node) (k : string) =>
               exists n2, n2 ∈ drop (S x.1) layer /\ key ids [x.2; n2] = Ok k).
  apply (builds_weaken R R
           (fun k => exists x, x ∈ Js.entries (take (length layer - 1) layer)
                               /\ K1 x k)).
  { auto. }
  { intros k (a & b & Hab & Hk).
    apply before_in_pairs_loop in Hab as (i & Ha & Hb).
    exists (i, a). split; [exact Ha|]. by exists b. }
  apply builds_forM. intros [i n1] Hn1.
  replace (Z.of_nat i + 1)%Z with (Z.of_nat (S i)) by lia.
  rewrite slice_from.
  apply (builds_weaken R R
           (fun k => exists n2, n2 ∈ drop (S i) layer
                                /\ key ids [n1; n2] = Ok k)).
  { auto. }
  { intros k Hk. exact Hk. }
  apply (builds_forM _ _ R (fun n2 k => key ids [n1; n2] = Ok k)).
  intros n2 Hn2.
  destruct (before_in_elem _ _ _ (pairs_loop_before_in layer i n1 n2 Hn1 Hn2))
    as [H1 H2].
  destruct (key_pair_ok ids layer n1 n2 Hids H1 H2) as [k Hk].
  apply (builds_lift _ k); [exact Hk|].
  apply builds_seq; [apply builds_setInt|].
  apply builds_seq; [apply builds_setConstraint|].
  apply (builds_weaken R R (fun k' => k' = k)); [auto| |apply builds_setVariable].
  intros k' Hk'. congruence.
Qed.

Lemma triangles_builds ids layer (R : string -> Prop) :
  (forall n, n ∈ layer -> is_Some (ids !! n)) ->
  (forall a b k, before_in layer a b -> key ids [a; b] = Ok k -> R k) ->
  builds R (triangles ids layer) none.
Proof.
  intros Hids HR. unfold triangles. rewrite slice_init.
  apply builds_forM_none. intros [i n1] Hn1.
  replace (Z.of_nat i + 1)%Z with (Z.of_nat (S i)) by lia.
  rewrite slice_from.
  apply builds_forM_none. intros [j n2] Hn2.
  replace (Z.of_nat i + Z.of_nat j + 2)%Z with (Z.of_nat (i + j + 2)) by lia.
  rewrite slice_from.
  apply builds_forM_none. intros n3 Hn3.
  destruct (triples_loop_before_in layer i j n1 n2 n3 Hn1 Hn2 Hn3)
    as (H12 & H13 & H23).
  destruct (before_in_elem _ _ _ H12) as [E1 E2].
  destruct (before_in_elem _ _ _ H13) as [_ E3].
  destruct (key_pair_ok ids layer n1 n2 Hids E1 E2) as [k12 Hk12].
  destruct (key_pair_ok ids layer n1 n3 Hids E1 E3) as [k13 Hk13].
  destruct (key_pair_ok ids layer n2 n3 Hids E2 E3) as [k23 Hk23].
  destruct (key_ok ids [n1; n2; n3]) as [k123 Hk123].
  { intros n Hn. apply Hids.
    repeat (apply elem_of_cons in Hn as [->|Hn]; [done|]).
    by apply elem_of_nil in Hn. }
  apply (builds_lift _ k12); [exact Hk12|].
  apply (builds_lift _ k13); [exact Hk13|].
  apply (builds_lift _ k23); [exact Hk23|].
  apply (builds_lift _ k123); [exact Hk123|].
  cbv zeta.
  repeat (apply builds_seq;
          [first [apply builds_setConstraint | apply builds_setCoef; eauto]|]).
  apply builds_setCoef; eauto.
Qed.

(** [perms] on a layer whose nodes all have an identifier: the layer is
    permuted, the other layers stay, and every two places of the layer have
    their pair variable. *)
Lemma perms_spec ids li h layer :
  h_layers h !! li = Some layer ->
  (forall n, n ∈ layer -> is_Some (ids !! n)) ->
  is_Some (h_model h) ->
  exists sorted h',
    perms ids li h = (Ok tt, h')
    /\ sorted ≡ₚ layer
    /\ h_layers h' = <[li := sorted]> (h_layers h)
    /\ is_Some (h_model h')
    /\ (forall k, hasVar k h -> hasVar k h')
    /\ (forall a b k, apart sorted a b -> key ids [a; b] = Ok k -> hasVar k h').
Proof.
  intros Hli Hids Hm.
  destruct (sortBy_perm (comp ids) layer) as (sorted & Hsort & Hperm).
  { intros a b Ha Hb. apply comp_ok; by apply Hids. }
  assert (Hids' : forall n, n ∈ sorted -> is_Some (ids !! n)).
  { intros n Hn. apply Hids. by rewrite <- Hperm. }
  set (h1 := {| h_layers := <[li := sorted]> (h_layers h); h_model := h_model h |}).
  assert (Hb : builds none (pairVariables ids sorted >>> triangles ids sorted)
                 (fun k => (exists a b, before_in sorted a b /\ key ids [a; b] = Ok k)
                           \/ none k)).
  { apply builds_then; [by apply pairVariables_builds|].
    apply triangles_builds; [exact Hids'|].
    intros a b k Hab Hk. right. eauto. }
  destruct (Hb h1) as (h' & Hrun & Hl & Hm' & Hmono & Hnew); [exact Hm|intros ? []|].
  exists sorted, h'. split.
  - unfold perms, bind at 1, sortLayer. rewrite Hli, Hsort. fold h1.
    unfold bind at 1, getLayer. simpl h_layers.
    rewrite list_lookup_insert_eq by (by eapply lookup_lt_Some). simpl.
    exact Hrun.
  - repeat split; auto.
    intros a b k Hab Hk. apply Hnew. left.
    destruct (apart_before_in _ _ _ Hab) as [Hb1|Hb2]; [by eauto|].
    exists b, a. split; [exact Hb2|]. by rewrite key_swap.
Qed.

Lemma cross_spec ichildren ids li h layer :
  h_layers h !! li = Some layer ->
  is_Some (h_model h) ->
  (forall n, n ∈ layer -> is_Some (ids !! n)) ->
  (forall p c, p ∈ layer -> c ∈ ichildren p -> is_Some (ids !! c)) ->
  (forall a b k, before_in layer a b -> key ids [a; b] = Ok k -> hasVar k h) ->
  (forall p1 p2 c1 c2 k, p1 ∈ layer -> p2 ∈ layer ->
     c1 ∈ ichildren p1 -> c2 ∈ ichildren p2 -> c1 <> c2 ->
     key ids [c1; c2] = Ok k -> hasVar k h) ->
  exists h',
    cross ichildren ids li h = (Ok tt, h')
    /\ h_layers h' = h_layers h
    /\ is_Some (h_model h')
    /\ (forall k, hasVar k h -> hasVar k h').
Proof.
  intros Hli Hm Hids Hcids Hpairs Hchildren.
  unfold cross, bind at 1, getLayer. rewrite Hli. simpl.
  set (R := fun k => hasVar k h).
  match goal with
  | |- context [forM_ ?l ?f h] => assert (Hb : builds R (forM_ l f) none)
  end.
  { rewrite slice_init. apply builds_forM_none. intros [i p1] Hp1.
    replace (Z.of_nat i + 1)%Z with (Z.of_nat (S i)) by lia.
    rewrite slice_from. apply builds_forM_none. intros p2 Hp2.
    pose proof (pairs_loop_before_in layer i p1 p2 Hp1 Hp2) as Hbefore.
    destruct (before_in_elem _ _ _ Hbefore) as [E1 E2].
    destruct (key_pair_ok ids layer p1 p2 Hids E1 E2) as [pairp Hpairp].
    apply (builds_lift _ pairp); [exact Hpairp|].
    apply builds_forM_none. intros c1 Hc1.
    apply builds_forM_none. intros c2 Hc2.
    destruct (decide (c1 = c2)) as [Heq|Hne]; [apply builds_ret|].
    destruct (key_ok ids [c1; c2]) as [pairc Hpairc].
    { intros n Hn.
      apply elem_of_cons in Hn as [->|Hn]; [exact (Hcids p1 c1 E1 Hc1)|].
      apply list_elem_of_singleton in Hn as ->. exact (Hcids p2 c2 E2 Hc2). }
    destruct (comp_ok ids c1 c2) as [sign Hsign];
      [exact (Hcids p1 c1 E1 Hc1) | exact (Hcids p2 c2 E2 Hc2) |].
    assert (HRp : R pairp) by exact (Hpairs p1 p2 pairp Hbefore Hpairp).
    assert (HRc : R pairc)
      by exact (Hchildren p1 p2 c1 c2 pairc E1 E2 Hc1 Hc2 Hne Hpairc).
    apply (builds_lift _ pairc); [exact Hpairc|]. cbv zeta.
    apply builds_seq.
    { match goal with
      | |- builds _ (setVariable ?k _) _ =>
          apply (builds_weaken R R (fun k' => k' = k) none);
            [auto | intros ? [] | apply builds_setVariable]
      end. }
    apply (builds_lift _ sign); [exact Hsign|]. cbv zeta.
    repeat (apply builds_seq;
            [first [apply builds_setConstraint | by apply builds_setCoef]|]).
    by apply builds_setCoef. }
  destruct (Hb h Hm) as (h' & Hrun & Hl & Hm' & Hmono & _); [auto|].
  exists h'. repeat split; auto.
Qed.

(** ** Every node of the layers has an identifier *)

Lemma ids_fold_dom (g : nat -> string) (ps : list (nat * Node)) (ids : gmap Node string) :
  let ids' := foldl (fun ids '(j, node) => <[node := g j]> ids) ids ps in
  (forall n, is_Some (ids !! n) -> is_Some (ids' !! n))
  /\ (forall j n, (j, n) ∈ ps -> is_Some (ids' !! n)).
Proof.
  revert ids. induction ps as [|[j node] ps IH]; intros ids; simpl.
  - split; [auto|]. intros j n Hn. by apply elem_of_nil in Hn.
  - destruct (IH (<[node := g j]> ids)) as [Hmono Hcover]. split.
    + intros n Hn. apply Hmono.
      destruct (decide (node = n)) as [->|Hne].
      * rewrite lookup_insert_eq. by eexists.
      * by rewrite lookup_insert_ne.
    + intros j' n Hn. apply elem_of_cons in Hn as [Heq|Hn].
      * inversion Heq; subst. apply Hmono. rewrite lookup_insert_eq. by eexists.
      * by eapply Hcover.
Qed.

Lemma buildIds_fold_dom (ls : list (nat * list Node)) (ids : gmap Node string) :
  let ids' :=
    foldl (fun ids '(i, layer) =>
             foldl (fun ids '(j, node) => <[node := idString i j]> ids)
                   ids (Js.entries layer)) ids ls in
  (forall n, is_Some (ids !! n) -> is_Some (ids' !! n))
  /\ (forall i layer n, (i, layer) ∈ ls -> n ∈ layer -> is_Some (ids' !! n)).
Proof.
  revert ids. induction ls as [|[i layer] ls IH]; intros ids; simpl.
  - split; [auto|]. intros i layer n Hl. by apply elem_of_nil in Hl.
  - destruct (ids_fold_dom (idString i) (Js.entries layer) ids) as [Hmono1 Hcover1].
    match goal with
    | |- context [foldl _ ?ids1 ls] => destruct (IH ids1) as [Hmono Hcover]
    end.
    split.
    + intros n Hn. apply Hmono, Hmono1, Hn.
    + intros i' layer' n Hl Hn. apply elem_of_cons in Hl as [Heq|Hl].
      * inversion Heq; subst. apply Hmono.
        apply list_elem_of_lookup_1 in Hn as [j Hj].
        apply (Hcover1 j). by apply entries_lookup.
      * by eapply Hcover.
Qed.

Lemma buildIds_dom layers layer n :
  layer ∈ layers -> n ∈ layer -> is_Some (buildIds layers !! n).
Proof.
  intros Hl Hn. unfold buildIds.
  destruct (buildIds_fold_dom (Js.entries layers) ∅) as [_ Hcover].
  apply list_elem_of_lookup_1 in Hl as [i Hi].
  apply (Hcover i layer); [|exact Hn]. by apply entries_lookup.
Qed.

(** ** Loops over the layers *)

Lemma forM_seq_inv (I : nat -> Heap -> Prop) (f : nat -> M unit) s n :
  (forall i h, (s <= i < s + n)%nat -> I i h ->
     exists h', f i h = (Ok tt, h') /\ I (S i) h') ->
  forall h, I s h -> exists h', forM_ (seq s n) f h = (Ok tt, h') /\ I (s + n)%nat h'.
Proof.
  revert s. induction n as [|n IH]; intros s Hf h Hh; simpl.
  - exists h. rewrite Nat.add_0_r. by split.
  - destruct (Hf s h) as (h1 & Hrun1 & Hh1); [lia|exact Hh|].
    destruct (IH (S s)) with (h := h1) as (h2 & Hrun2 & Hh2); [|exact Hh1|].
    { intros i h' Hi. apply Hf. lia. }
    exists h2. unfold bind. rewrite Hrun1, Hrun2. split; [reflexivity|].
    by replace (s + S n)%nat with (S s + n)%nat by lia.
Qed.

Lemma bind_ok {A B} (m : M A) (f : A -> M B) h a h' :
  m h = (Ok a, h') -> bind m f h = f a h'.
Proof. intros Hm. unfold bind. by rewrite Hm. Qed.

Lemma finalComp_ok ids ordering (l : list Node) a b :
  (forall n, n ∈ l -> is_Some (ids !! n)) -> a ∈ l -> b ∈ l ->
  exists q, finalComp ids ordering a b = Ok q.
Proof.
  intros Hids Ha Hb. unfold finalComp.
  destruct (comp_ok ids a b) as [c ->]; [by apply Hids..|].
  destruct (key_pair_ok ids l a b Hids Ha Hb) as [k ->].
  simpl. by eexists.
Qed.

(** C4. On a valid layering that passes the size guard the call returns
    normally, and each layer of the result is a permutation of the layer it
    was: no node added, removed or duplicated. *)
Theorem optCall_permutes_each_layer
    (ichildren : Node -> list Node) (Solve : Model -> gmap string Q)
    (options : OptOptions) (layers : list (list Node)) :
  valid_layering ichildren layers ->
  passes_guard options layers ->
  exists layers' model,
    runOpt ichildren Solve options layers
      = (Ok tt, {| h_layers := layers'; h_model := Some model |})
    /\ Forall2 (≡ₚ) layers layers'.
Proof.
  intros Hvalid Hguard. unfold runOpt, optCall.
  rewrite bind_getLayers. cbv beta. cbn [h_layers].
  assert (Hg : negb (opt_clowntown options) && (2500 <? sizeOf layers)%Z = false).
  { destruct Hguard as [-> | Hle]; [reflexivity|].
    apply andb_false_iff. right. apply Z.ltb_ge. lia. }
  rewrite Hg, bind_putModel. cbv beta. cbn [h_layers].
  set (ids := buildIds layers).
  set (h1 := {| h_layers := layers; h_model := Some initModel |}).
  assert (Hids : forall layer n, layer ∈ layers -> n ∈ layer -> is_Some (ids !! n)).
  { intros layer n Hl Hn. by eapply buildIds_dom. }
  (* add variables and permutation invariants *)
  set (I := fun (i : nat) (h : Heap) =>
    Forall2 (≡ₚ) layers (h_layers h) /\ is_Some (h_model h) /\
    forall li layer, (li < i)%nat -> h_layers h !! li = Some layer ->
      forall a b k, apart layer a b -> key ids [a; b] = Ok k -> hasVar k h).
  destruct (forM_seq_inv I (perms ids) 0 (length layers)) with (h := h1)
    as (h2 & Hrun2 & HF2 & Hm2 & Hvars2).
  { intros i h [_ Hi] (HF & Hm & Hvars).
    destruct (lookup_lt_is_Some_2 layers i) as [l0 Hl0]; [lia|].
    destruct (Forall2_lookup_l _ _ _ i l0 HF Hl0) as (layer & Hlayer & Hperm).
    destruct (perms_spec ids i h layer Hlayer)
      as (sorted & h' & Hrun & Hsp & Hl' & Hm' & Hmono & Hnew); [|exact Hm|].
    { intros n Hn. apply (Hids l0); [by eapply list_elem_of_lookup_2|].
      by rewrite Hperm. }
    exists h'. split; [exact Hrun|]. split; [|split; [exact Hm'|]].
    - rewrite Hl', <- (list_insert_id layers i l0 Hl0).
      apply Forall2_insert; [exact HF|]. by rewrite Hsp.
    - intros li layer' Hli Hlk a b k Hab Hk. rewrite Hl' in Hlk.
      destruct (decide (li = i)) as [->|Hne].
      + rewrite list_lookup_insert_eq in Hlk by (by eapply lookup_lt_Some).
        inversion Hlk; subst. by eapply Hnew.
      + rewrite list_lookup_insert_ne in Hlk by done.
        apply Hmono. eapply Hvars; [|exact Hlk|exact Hab|exact Hk]. lia. }
  { repeat split; [apply Forall2_same_length_lookup_2; [done|]|by eexists|].
    - intros i x y Hx Hy. simpl in Hy. rewrite Hx in Hy. by inversion Hy.
    - intros li layer Hli. lia. }
  simpl in Hvars2.
  unfold indices at 1. rewrite (bind_ok _ _ _ _ _ Hrun2).
  (* add crossing minimization *)
  pose proof (Forall2_length _ _ _ HF2) as Hlen.
  set (J := fun (_ : nat) (h : Heap) =>
    h_layers h = h_layers h2 /\ is_Some (h_model h) /\
    forall k, hasVar k h2 -> hasVar k h).
  unfold indices at 1. rewrite slice_init, length_take.
  destruct (forM_seq_inv J (cross ichildren ids) 0
              ((length layers - 1) `min` length layers)) with (h := h2)
    as (h3 & Hrun3 & HL3 & Hm3 & Hvars3).
  { intros i h [_ Hi] (HL & Hm & Hmono).
    destruct (lookup_lt_is_Some_2 layers i) as [l0 Hl0]; [lia|].
    destruct (lookup_lt_is_Some_2 layers (S i)) as [n0 Hn0]; [lia|].
    destruct (Forall2_lookup_l _ _ _ i l0 HF2 Hl0) as (layer & Hlayer & Hperm).
    destruct (Forall2_lookup_l _ _ _ (S i) n0 HF2 Hn0) as (next & Hnext & Hpermn).
    assert (Hin : forall p c, p ∈ layer -> c ∈ ichildren p -> c ∈ n0).
    { intros p c Hp Hc. rewrite <- Hperm in Hp.
      destruct (Hvalid i l0 p c Hl0 Hp Hc) as (nx & Hnx & Hcn).
      rewrite Hn0 in Hnx. by inversion Hnx; subst. }
    destruct (cross_spec ichildren ids i h layer)
      as (h' & Hrun & Hl' & Hm' & Hmono').
    - by rewrite HL.
    - exact Hm.
    - intros n Hn. apply (Hids l0); [by eapply list_elem_of_lookup_2|].
      by rewrite Hperm.
    - intros p c Hp Hc. apply (Hids n0); [by eapply list_elem_of_lookup_2|].
      by eapply Hin.
    - intros a b k Hab Hk. apply Hmono.
      refine (Hvars2 i layer _ Hlayer a b k _ Hk); [lia|].
      destruct Hab as (x & y & Hxy & Hx & Hy). exists x, y.
      split; [lia|done].
    - intros p1 p2 c1 c2 k Hp1 Hp2 Hc1 Hc2 Hne Hk. apply Hmono.
      refine (Hvars2 (S i) next _ Hnext c1 c2 k _ Hk); [lia|].
      apply apart_distinct; [| |exact Hne]; rewrite <- Hpermn.
      + exact (Hin p1 c1 Hp1 Hc1).
      + exact (Hin p2 c2 Hp2 Hc2).
    - exists h'. split; [exact Hrun|]. split; [congruence|]. split; [exact Hm'|].
      intros k Hk. by apply Hmono', Hmono. }
  { by repeat split. }
  rewrite (bind_ok _ _ _ _ _ Hrun3).
  (* solve objective, sort layers *)
  destruct Hm3 as [model Hmodel].
  unfold bind at 1, getModel. rewrite Hmodel. simpl.
  set (ordering := Solve model).
  set (F := fun (_ : nat) (h : Heap) =>
    Forall2 (≡ₚ) layers (h_layers h) /\ h_model h = Some model).
  unfold indices.
  destruct (forM_seq_inv F (fun li => sortLayer li (finalComp ids ordering)) 0
              (length layers)) with (h := h3) as (h4 & Hrun4 & HF4 & Hm4).
  { intros i h [_ Hi] (HF & Hm).
    destruct (lookup_lt_is_Some_2 layers i) as [l0 Hl0]; [lia|].
    destruct (Forall2_lookup_l _ _ _ i l0 HF Hl0) as (layer & Hlayer & Hperm).
    destruct (sortBy_perm (finalComp ids ordering) layer) as (sorted & Hsort & Hsp).
    { intros a b Ha Hb. apply (finalComp_ok ids ordering layer); [|done..].
      intros n Hn. apply (Hids l0); [by eapply list_elem_of_lookup_2|].
      by rewrite Hperm. }
    unfold sortLayer. rewrite Hlayer, Hsort. eexists. split; [reflexivity|].
    split; [|exact Hm]. simpl.
    rewrite <- (list_insert_id layers i l0 Hl0).
    apply Forall2_insert; [exact HF|]. by rewrite Hsp. }
  { split; [by rewrite HL3|exact Hmodel]. }
  rewrite Hrun4. destruct h4 as [layers4 model4]. simpl in *. subst model4.
  by exists layers4, model.
Qed.

Definition crossedChildren (n : Node) : list Node :=
  match n with
  | 0%nat => [3%nat]
  | 1%nat => [2%nat]
  | _ => []
  end.

Definition crossedLayers : list (list Node) := [[0%nat; 1%nat]; [2%nat; 3%nat]].

Lemma crossedLayers_valid : valid_layering crossedChildren crossedLayers.
Proof.
  intros i layer p c Hl Hp Hc.
  destruct i as [|[|i]]; simpl in Hl; inversion Hl; subst; clear Hl.
  - exists [2%nat; 3%nat]. split; [reflexivity|].
    repeat (apply elem_of_cons in Hp as [->|Hp]);
      try (by apply elem_of_nil in Hp); simpl in Hc;
      apply list_elem_of_singleton in Hc as ->; repeat constructor.
  - repeat (apply elem_of_cons in Hp as [->|Hp]);
      try (by apply elem_of_nil in Hp); simpl in Hc;
      by apply elem_of_nil in Hc.
Qed.

Lemma optCall_permutes_witness :
  exists layers' model,
    runOpt crossedChildren (fun _ => ∅) {| opt_clowntown := false |} crossedLayers
      = (Ok tt, {| h_layers := layers'; h_model := Some model |})
    /\ Forall2 (≡ₚ) crossedLayers layers'.
Proof.
  apply (optCall_permutes_each_layer crossedChildren (fun _ => ∅)
           {| opt_clowntown := false |} crossedLayers).
  - exact crossedLayers_valid.
  - right. vm_compute. discriminate.
Defined.

(** ** The layering: counting parents *)

Lemma edgeCount_pos dag p c : edgeCount dag p c <> 0%nat <-> c ∈ d_children dag p.
Proof.
  unfold edgeCount. split.
  - intros Hne. destruct (filter (fun x => x = c) (d_children dag p)) as [|x l] eqn:Hf;
      [done|].
    assert (Hx : x ∈ filter (fun x => x = c) (d_children dag p))
      by (rewrite Hf; by left).
    apply list_elem_of_filter in Hx as [-> Hx]. exact Hx.
  - intros Hc Hz.
    assert (Hx : c ∈ filter (fun x => x = c) (d_children dag p))
      by (by apply list_elem_of_filter).
    destruct (filter (fun x => x = c) (d_children dag p)); [|done].
    by apply elem_of_nil in Hx.
Qed.

Lemma elem_of_parentsOf dag p c :
  p ∈ parentsOf dag c <-> p ∈ d_nodes dag /\ c ∈ d_children dag p.
Proof.
  unfold parentsOf. rewrite list_elem_of_bind. split.
  - intros (q & Hp & Hq). apply elem_of_replicate in Hp as [-> Hne].
    split; [exact Hq|]. by apply edgeCount_pos.
  - intros [Hp Hc]. exists p. split; [|exact Hp].
    apply elem_of_replicate. split; [done|]. by apply edgeCount_pos.
Qed.

Lemma filter_eq_replicate (p q : Node) n :
  length (filter (fun x => x = p) (replicate n q)) = if decide (q = p) then n else 0%nat.
Proof.
  induction n as [|n IH]; simpl; [by destruct (decide (q = p))|].
  destruct (decide (q = p)) as [->|Hne].
  - rewrite filter_cons_True by done. simpl. by rewrite IH.
  - by rewrite filter_cons_False.
Qed.

Lemma count_parent_in (f : Node -> nat) (ps : list Node) (p : Node) :
  NoDup ps ->
  length (filter (fun x => x = p) (ps ≫= fun q => replicate (f q) q))
  = if decide (p ∈ ps) then f p else 0%nat.
Proof.
  induction ps as [|q ps IH]; intros Hnd.
  - destruct (decide (p ∈ [])) as [Hin|]; [by apply elem_of_nil in Hin|done].
  - apply NoDup_cons in Hnd as [Hq Hnd].
    rewrite bind_cons, filter_app, length_app, filter_eq_replicate, (IH Hnd).
    destruct (decide (q = p)) as [->|Hne].
    + rewrite (decide_True (P := p ∈ p :: ps)) by left.
      rewrite (decide_False (P := p ∈ ps)) by done. lia.
    + destruct (decide (p ∈ ps)) as [Hin|Hnin].
      * rewrite (decide_True (P := p ∈ q :: ps)) by (by right). lia.
      * rewrite (decide_False (P := p ∈ q :: ps)); [lia|].
        intros [?|?]%elem_of_cons; congruence.
Qed.

Lemma count_parent dag p c :
  NoDup (d_nodes dag) -> p ∈ d_nodes dag ->
  length (filter (fun x => x = p) (parentsOf dag c)) = edgeCount dag p c.
Proof.
  intros Hnd Hp. unfold parentsOf.
  rewrite (count_parent_in (fun q => edgeCount dag q c) _ p Hnd).
  by rewrite decide_True.
Qed.

Lemma filter_done_cons (D l : list Node) (p : Node) :
  p ∉ D ->
  length (filter (fun x => x ∈ p :: D) l)
  = (length (filter (fun x => x = p) l) + length (filter (fun x => x ∈ D) l))%nat.
Proof.
  intros Hp. induction l as [|x l IH]; [reflexivity|].
  rewrite !filter_cons.
  destruct (decide (x = p)) as [->|Hne].
  - rewrite (decide_True (P := p ∈ p :: D)) by left.
    rewrite (decide_False (P := p ∈ D)) by done.
    simpl. lia.
  - destruct (decide (x ∈ D)) as [Hin|Hnin].
    + rewrite (decide_True (P := x ∈ p :: D)) by (by right). simpl. lia.
    + rewrite (decide_False (P := x ∈ p :: D)); [exact IH|].
      intros [?|?]%elem_of_cons; congruence.
Qed.

Lemma filter_full {A} (P : A -> Prop) `{forall x, Decision (P x)} (l : list A) :
  length (filter P l) = length l -> forall x, x ∈ l -> P x.
Proof.
  induction l as [|y l IH]; intros Hlen x Hx; [by apply elem_of_nil in Hx|].
  rewrite filter_cons in Hlen. destruct (decide (P y)) as [Hy|Hy].
  - simpl in Hlen. apply elem_of_cons in Hx as [->|Hx]; [exact Hy|].
    apply IH; [lia|exact Hx].
  - pose proof (length_filter P l). simpl in Hlen. lia.
Qed.

Lemma filter_all {A} (P : A -> Prop) `{forall x, Decision (P x)} (l : list A) :
  (forall x, x ∈ l -> P x) -> length (filter P l) = length l.
Proof.
  induction l as [|y l IH]; intros HP; [reflexivity|].
  rewrite filter_cons_True by (apply HP; by left). simpl.
  rewrite IH; [reflexivity|]. intros x Hx. apply HP. by right.
Qed.

(** ** The layering: initial data *)

Lemma data_eta (d : Data) : {| before := before d; parents := parents d ++ [] |} = d.
Proof. destruct d. simpl. by rewrite app_nil_r. Qed.

Lemma pushParent_fold node cs (data : gmap Node Data) :
  (forall c, c ∈ cs -> is_Some (data !! c)) ->
  exists data',
    res_fold (pushParent node) cs data = Ok data'
    /\ forall n,
        data' !! n
        = (fun d => {| before := before d;
                       parents := parents d
                                  ++ replicate (length (filter (fun x => x = n) cs)) node |})
            <$> data !! n.
Proof.
  revert data. induction cs as [|c cs IH]; intros data Hdom; simpl.
  - exists data. split; [reflexivity|]. intros n.
    destruct (data !! n) as [d|]; simpl; [|reflexivity]. by rewrite data_eta.
  - destruct (Hdom c) as [d Hd]; [by left|].
    unfold pushParent at 1. rewrite Hd. simpl.
    set (d' := {| before := before d; parents := parents d ++ [node] |}).
    destruct (IH (<[c := d']> data)) as (data' & Hrun & Hlook).
    { intros c' Hc'. destruct (decide (c = c')) as [->|Hne].
      - rewrite lookup_insert_eq. by eexists.
      - rewrite lookup_insert_ne by done. apply Hdom. by right. }
    exists data'. split; [exact Hrun|]. intros n. rewrite Hlook.
    destruct (decide (c = n)) as [->|Hne].
    + rewrite lookup_insert_eq, Hd, filter_cons_True by done. simpl.
      by rewrite <- app_assoc.
    + rewrite lookup_insert_ne by done. by rewrite filter_cons_False.
Qed.

Lemma newData_fold (ps : list Node) (m : gmap Node Data) :
  let m' := foldl (fun m node => <[node := newData]> m) m ps in
  (forall n, n ∈ ps -> m' !! n = Some newData)
  /\ (forall n, m !! n = Some newData -> m' !! n = Some newData).
Proof.
  revert m. induction ps as [|p ps IH]; intros m; simpl.
  - split; [|auto]. intros n Hn. by apply elem_of_nil in Hn.
  - destruct (IH (<[p := newData]> m)) as [Hin Hkeep]. split.
    + intros n Hn. apply elem_of_cons in Hn as [->|Hn]; [|by apply Hin].
      apply Hkeep. by rewrite lookup_insert_eq.
    + intros n Hn. apply Hkeep. destruct (decide (p = n)) as [->|Hne].
      * by rewrite lookup_insert_eq.
      * by rewrite lookup_insert_ne.
Qed.

Lemma parents_fold dag (rest pre : list Node) (data : gmap Node Data) :
  (forall n, n ∈ d_nodes dag ->
     data !! n = Some {| before := [];
                         parents := pre ≫= fun p => replicate (edgeCount dag p n) p |}) ->
  (forall p c, p ∈ rest -> c ∈ d_children dag p -> c ∈ d_nodes dag) ->
  exists data',
    res_fold (fun data node => res_fold (pushParent node) (d_children dag node) data)
             rest data = Ok data'
    /\ forall n, n ∈ d_nodes dag ->
         data' !! n
         = Some {| before := [];
                   parents := (pre ++ rest) ≫= fun p => replicate (edgeCount dag p n) p |}.
Proof.
  revert pre data. induction rest as [|p rest IH]; intros pre data Hdata Hclosed; simpl.
  - exists data. split; [reflexivity|]. intros n Hn. rewrite app_nil_r. by apply Hdata.
  - destruct (pushParent_fold p (d_children dag p) data) as (data1 & Hrun1 & Hlook1).
    { intros c Hc. rewrite Hdata; [by eexists|]. eapply Hclosed; [by left|exact Hc]. }
    rewrite Hrun1. simpl.
    destruct (IH (pre ++ [p]) data1) as (data' & Hrun & Hlook).
    { intros n Hn. rewrite Hlook1, (Hdata n Hn). simpl.
      rewrite bind_app. do 3 f_equal. simpl. by rewrite app_nil_r. }
    { intros q c Hq Hc. eapply Hclosed; [by right|exact Hc]. }
    exists data'. split; [exact Hrun|]. intros n Hn.
    rewrite (Hlook n Hn). by rewrite <- app_assoc.
Qed.

Lemma initData_spec dag :
  wf_dag dag ->
  exists data,
    initData dag = Ok data
    /\ forall n, n ∈ d_nodes dag ->
         data !! n = Some {| before := []; parents := parentsOf dag n |}.
Proof.
  intros Hwf. unfold initData.
  destruct (newData_fold (d_nodes dag) ∅) as [Hnew _].
  destruct (parents_fold dag (d_nodes dag) []
              (foldl (fun m node => <[node := newData]> m) ∅ (d_nodes dag)))
    as (data & Hrun & Hlook).
  - intros n Hn. by rewrite Hnew.
  - intros p c Hp Hc. by eapply (wf_closed dag Hwf).
  - exists data. split; [exact Hrun|]. exact Hlook.
Qed.

(** ** The layering: invariants of the loop *)

Section Layering.

Context {pq : Type} `{PriorityQueueLaws pq}.
Variable dag : Dag.
Variable maxWidth : Z.
Hypothesis Hwf : wf_dag dag.
Hypothesis HmaxWidth : d_nodes dag <> [] -> (1 <= maxWidth)%Z.
Hypothesis HmaxWidth0 : (0 <= maxWidth)%Z.

(** Occurrences of [n] in a list of children. *)
Definition occ (cs : list Node) (n : Node) : nat :=
  length (filter (fun x => x = n) cs).

(** All parents of [n] are done, counting [extra n] edges of the node whose
    children are being visited. *)
Definition ready (D : list Node) (extra : Node -> nat) (n : Node) : Prop :=
  (length (filter (fun x => x ∈ D) (parentsOf dag n)) + extra n
   = length (parentsOf dag n))%nat.

(** The [data] map: the parents are the parents, and [before] has one entry
    for each edge from a done node. *)
Definition data_inv (D : list Node) (extra : Node -> nat)
    (data : gmap Node Data) : Prop :=
  forall n, n ∈ d_nodes dag ->
    exists d, data !! n = Some d /\ parents d = parentsOf dag n
      /\ length (before d)
         = (length (filter (fun x => x ∈ D) (parentsOf dag n)) + extra n)%nat.

(** The queue holds, once each, the nodes that are ready and not done. *)
Definition queue_inv (D : list Node) (extra : Node -> nat) (self : list Node)
    (items : list Node) : Prop :=
  NoDup items
  /\ (forall n, n ∈ items -> n ∈ d_nodes dag /\ (n ∉ D) /\ (n ∉ self))
  /\ (forall n, n ∈ d_nodes dag -> n ∉ self ->
        ((n ∈ items \/ n ∈ D) <-> ready D extra n)).

(** The layers assigned so far, to the nodes [D]. *)
Definition layer_inv (D : list Node) (layerOf : gmap Node Z) (layer width : Z) : Prop :=
  NoDup D
  /\ (forall n, n ∈ D -> n ∈ d_nodes dag)
  /\ (forall n, is_Some (layerOf !! n) <-> n ∈ D)
  /\ (forall n l, layerOf !! n = Some l -> (0 <= l <= layer)%Z)
  /\ (forall c p lc, layerOf !! c = Some lc -> p ∈ parentsOf dag c ->
        exists lp, layerOf !! p = Some lp /\ (lp < lc)%Z)
  /\ countAt dag layerOf layer = width
  /\ (forall l, (countAt dag layerOf l <= maxWidth)%Z).

Lemma occ_snoc cs c n :
  occ (cs ++ [c]) n = (occ cs n + (if decide (c = n) then 1 else 0))%nat.
Proof.
  unfold occ. rewrite filter_app, length_app. f_equal.
  rewrite filter_cons, filter_nil. by destruct (decide (c = n)).
Qed.

Lemma occ_app_le cs1 cs2 n : (occ cs1 n <= occ (cs1 ++ cs2) n)%nat.
Proof. unfold occ. rewrite filter_app, length_app. lia. Qed.

Lemma edgeCount_self p : p ∈ d_nodes dag -> edgeCount dag p p = 0%nat.
Proof.
  intros Hp. destruct (wf_acyclic dag Hwf) as [rank Hrank].
  destruct (decide (edgeCount dag p p = 0%nat)) as [|Hne]; [done|].
  apply edgeCount_pos in Hne. specialize (Hrank p p Hp Hne). lia.
Qed.

Lemma ready_bound (D : list Node) p n cs1 cs2 :
  p ∈ d_nodes dag -> p ∉ D -> d_children dag p = cs1 ++ cs2 ->
  (length (filter (fun x => x ∈ D) (parentsOf dag n)) + occ cs1 n
   <= length (parentsOf dag n))%nat.
Proof.
  intros Hp HpD Hcs.
  pose proof (length_filter (fun x => x ∈ p :: D) (parentsOf dag n)) as Hle.
  rewrite (filter_done_cons D _ p HpD) in Hle.
  rewrite (count_parent dag p n (wf_nodup dag Hwf) Hp) in Hle.
  pose proof (occ_app_le cs1 cs2 n) as Hocc. rewrite <- Hcs in Hocc.
  unfold occ in *. unfold edgeCount in Hle. lia.
Qed.

Lemma cgComp_total (data : gmap Node Data) (l : list Node) :
  (forall n, n ∈ l -> is_Some (data !! n)) -> total_on (cgComp data) l.
Proof.
  intros Hdom a b Ha Hb. unfold cgComp.
  destruct (Hdom a Ha) as [da ->]. destruct (Hdom b Hb) as [db ->].
  simpl. by eexists.
Qed.

Lemma data_inv_dom (D : list Node) extra data n :
  data_inv D extra data -> n ∈ d_nodes dag -> is_Some (data !! n).
Proof. intros Hd Hn. destruct (Hd n Hn) as (d & -> & _). by eexists. Qed.


(** *** Visiting one child *)

Lemma sort_before_ok (l : list Z) :
  exists sorted,
    Js.sortBy (fun a b => Ok (inject_Z (b - a))) l = Ok sorted
    /\ length sorted = length l.
Proof.
  destruct (sortBy_perm (fun a b : Z => Ok (inject_Z (b - a))) l)
    as (sorted & Hs & Hp).
  { intros a b _ _. by eexists. }
  exists sorted. split; [exact Hs|]. by rewrite Hp.
Qed.

Lemma visitChild_spec (D : list Node) p cs1 c cs2 (st : CG) :
  p ∈ d_nodes dag -> p ∉ D -> d_children dag p = cs1 ++ c :: cs2 ->
  data_inv D (occ cs1) (s_data st) ->
  queue_inv D (occ cs1) [p] (pq_items (s_queue st)) ->
  exists st',
    visitChild st c = Ok st'
    /\ data_inv D (occ (cs1 ++ [c])) (s_data st')
    /\ queue_inv D (occ (cs1 ++ [c])) [p] (pq_items (s_queue st'))
    /\ s_layer_of st' = s_layer_of st /\ s_i st' = s_i st
    /\ s_layer st' = s_layer st /\ s_width st' = s_width st.
Proof.
  intros Hp HpD Hcs Hdata (Hnd & Hitems & Hiff).
  assert (Hc : c ∈ d_children dag p).
  { rewrite Hcs. apply elem_of_app. right. by left. }
  assert (Hself : forall n, n <> p -> n ∉ [p]).
  { intros n Hn Hin. by apply list_elem_of_singleton in Hin. }
  assert (Hcn : c ∈ d_nodes dag) by (by eapply (wf_closed dag Hwf)).
  assert (Hcp : c <> p).
  { intros ->. apply edgeCount_pos in Hc. by rewrite edgeCount_self in Hc. }
  destruct (Hdata c Hcn) as (d & Hd & Hpar & Hlen).
  pose proof (ready_bound D p c (cs1 ++ [c]) cs2 Hp HpD) as Hbound.
  rewrite <- app_assoc in Hbound. specialize (Hbound Hcs).
  rewrite occ_snoc, decide_True in Hbound by done.
  assert (Hold : ~ (c ∈ pq_items (s_queue st) \/ c ∈ D)).
  { intros Hin. apply Hiff in Hin; [|done|by apply Hself].
    unfold ready in Hin. lia. }
  assert (Hextra : forall n, n <> c -> occ (cs1 ++ [c]) n = occ cs1 n).
  { intros n Hn. rewrite occ_snoc, decide_False by done. lia. }
  unfold visitChild. rewrite Hd. simpl.
  rewrite length_app. simpl.
  destruct (Nat.eqb_spec (length (before d) + 1) (length (parents d)))
    as [Hready|Hnot]; [rewrite Hpar in Hready | rewrite Hpar in Hnot].
  - (* ready: sort and enqueue *)
    destruct (sort_before_ok (before d ++ [s_i st])) as (sorted & -> & Hsl).
    simpl.
    set (data' := <[c := {| before := sorted; parents := parents d |}]> (s_data st)).
    assert (Hdata' : data_inv D (occ (cs1 ++ [c])) data').
    { intros n Hn. destruct (decide (n = c)) as [->|Hne].
      - eexists. unfold data'. rewrite lookup_insert_eq. split; [reflexivity|].
        simpl. split; [exact Hpar|].
        rewrite Hsl, length_app, occ_snoc, decide_True by done. simpl. lia.
      - destruct (Hdata n Hn) as (dn & Hdn & Hparn & Hlenn).
        exists dn. unfold data'. rewrite lookup_insert_ne by done.
        split; [exact Hdn|]. split; [exact Hparn|]. by rewrite Hextra. }
    destruct (pq_add_items (cgComp data') c (s_queue st)) as (q' & -> & Hq').
    { apply cgComp_total. intros n Hn. eapply data_inv_dom; [exact Hdata'|].
      apply elem_of_cons in Hn as [->|Hn]; [exact Hcn|]. by apply Hitems. }
    simpl. eexists. split; [reflexivity|]. simpl.
    split; [exact Hdata'|]. split; [|done].
    split; [|split].
    + rewrite Hq'. apply NoDup_cons. split; [|exact Hnd]. tauto.
    + intros n Hn. rewrite Hq' in Hn.
      apply elem_of_cons in Hn as [->|Hn]; [|by apply Hitems].
      split; [exact Hcn|]. split; [tauto|by apply Hself].
    + intros n Hn Hns. rewrite Hq'. destruct (decide (n = c)) as [->|Hne].
      * split; [|intros _; left; by left].
        intros _. unfold ready. rewrite occ_snoc, decide_True by done. lia.
      * unfold ready. rewrite Hextra by done. rewrite <- (Hiff n Hn Hns).
        rewrite elem_of_cons. tauto.
  - (* not ready yet *)
    eexists. split; [reflexivity|]. simpl. split; [|split; [|done]].
    + intros n Hn. destruct (decide (n = c)) as [->|Hne].
      * eexists. rewrite lookup_insert_eq. split; [reflexivity|].
        simpl. split; [exact Hpar|].
        rewrite length_app, occ_snoc, decide_True by done. simpl. lia.
      * destruct (Hdata n Hn) as (dn & Hdn & Hparn & Hlenn).
        exists dn. rewrite lookup_insert_ne by done.
        split; [exact Hdn|]. split; [exact Hparn|]. by rewrite Hextra.
    + split; [exact Hnd|]. split; [exact Hitems|].
      intros n Hn Hns. destruct (decide (n = c)) as [->|Hne].
      * split; [tauto|]. unfold ready.
        rewrite occ_snoc, decide_True by done. lia.
      * unfold ready. rewrite Hextra by done. by apply Hiff.
Qed.

Lemma children_loop (D : list Node) p cs2 : forall cs1 (st : CG),
  p ∈ d_nodes dag -> p ∉ D -> d_children dag p = cs1 ++ cs2 ->
  data_inv D (occ cs1) (s_data st) ->
  queue_inv D (occ cs1) [p] (pq_items (s_queue st)) ->
  exists st',
    res_fold visitChild cs2 st = Ok st'
    /\ data_inv D (occ (d_children dag p)) (s_data st')
    /\ queue_inv D (occ (d_children dag p)) [p] (pq_items (s_queue st'))
    /\ s_layer_of st' = s_layer_of st /\ s_i st' = s_i st
    /\ s_layer st' = s_layer st /\ s_width st' = s_width st.
Proof.
  induction cs2 as [|c cs2 IH]; intros cs1 st Hp HpD Hcs Hdata Hqueue; simpl.
  - rewrite app_nil_r in Hcs. rewrite Hcs. by exists st.
  - destruct (visitChild_spec D p cs1 c cs2 st Hp HpD Hcs Hdata Hqueue)
      as (st1 & -> & Hdata1 & Hqueue1 & E1 & E2 & E3 & E4).
    simpl. destruct (IH (cs1 ++ [c]) st1) as (st' & Hrun & Hd' & Hq' & F1 & F2 & F3 & F4);
      [done|done|by rewrite <- app_assoc|done|done|].
    exists st'. split; [exact Hrun|]. split; [exact Hd'|]. split; [exact Hq'|].
    repeat split; congruence.
Qed.

(** *** Assigning a layer *)

Lemma every_layers (layerOf : gmap Node Z) (layer : Z) (l : list Node) :
  (forall x, x ∈ l -> is_Some (layerOf !! x)) ->
  exists b,
    every (fun p => res_bind (def (layerOf !! p)) (fun lp => Ok (lp <? layer)%Z)) l
      = Ok b
    /\ (b = true ->
        forall x, x ∈ l -> exists lx, layerOf !! x = Some lx /\ (lx < layer)%Z).
Proof.
  induction l as [|y l IH]; intros Hl; simpl.
  - exists true. split; [reflexivity|]. intros _ x Hx. by apply elem_of_nil in Hx.
  - destruct (Hl y) as [ly Hy]; [by left|]. rewrite Hy. simpl.
    destruct (Z.ltb_spec ly layer) as [Hlt|Hge].
    + destruct IH as (b & -> & Hb); [intros x Hx; apply Hl; by right|].
      exists b. split; [reflexivity|]. intros -> x Hx.
      apply elem_of_cons in Hx as [->|Hx]; [by exists ly|by apply Hb].
    + exists false. by split.
Qed.

Lemma filter_insert_count (layerOf : gmap Node Z) p (l l' : Z) (ns : list Node) :
  NoDup ns -> layerOf !! p = None ->
  length (filter (fun n => <[p := l]> layerOf !! n = Some l') ns)
  = (length (filter (fun n => layerOf !! n = Some l') ns)
     + (if decide (p ∈ ns /\ l = l') then 1 else 0))%nat.
Proof.
  intros Hnd Hp. induction ns as [|x ns IH].
  - rewrite decide_False; [reflexivity|]. intros [Hin _]. by apply elem_of_nil in Hin.
  - apply NoDup_cons in Hnd as [Hx Hnd]. specialize (IH Hnd).
    destruct (decide (x = p)) as [->|Hne].
    + rewrite (decide_False (P := p ∈ ns /\ l = l')) in IH by tauto.
      rewrite (filter_cons_False (fun n => layerOf !! n = Some l'))
        by (rewrite Hp; done).
      destruct (decide (l = l')) as [->|Hl].
      * rewrite filter_cons_True by (by rewrite lookup_insert_eq).
        rewrite (decide_True (P := p ∈ p :: ns /\ l' = l')) by (split; [left|done]).
        simpl. lia.
      * rewrite filter_cons_False by (rewrite lookup_insert_eq; congruence).
        rewrite (decide_False (P := p ∈ p :: ns /\ l = l')) by tauto. lia.
    + assert (Hiff : (p ∈ x :: ns /\ l = l') <-> (p ∈ ns /\ l = l')).
      { rewrite elem_of_cons. split; [|tauto]. intros [[?|?] ?]; [congruence|tauto]. }
      assert (Hsame : (if decide (p ∈ x :: ns /\ l = l') then 1 else 0)%nat
                      = (if decide (p ∈ ns /\ l = l') then 1 else 0)%nat).
      { destruct (decide (p ∈ ns /\ l = l')).
        - by rewrite decide_True by tauto.
        - by rewrite decide_False by tauto. }
      rewrite Hsame.
      destruct (decide (layerOf !! x = Some l')) as [Hx'|Hx'].
      * rewrite filter_cons_True by (by rewrite lookup_insert_ne).
        rewrite (filter_cons_True (fun n => layerOf !! n = Some l')) by done.
        simpl. lia.
      * rewrite filter_cons_False by (by rewrite lookup_insert_ne).
        rewrite (filter_cons_False (fun n => layerOf !! n = Some l')) by done.
        lia.
Qed.

Lemma countAt_insert (layerOf : gmap Node Z) p (l l' : Z) :
  p ∈ d_nodes dag -> layerOf !! p = None ->
  countAt dag (<[p := l]> layerOf) l'
  = (countAt dag layerOf l' + (if decide (l = l') then 1 else 0))%Z.
Proof.
  intros Hp Hnone. unfold countAt.
  rewrite (filter_insert_count layerOf p l l' _ (wf_nodup dag Hwf) Hnone).
  destruct (decide (l = l')) as [->|Hne].
  - rewrite decide_True by done. lia.
  - rewrite decide_False by tauto. lia.
Qed.

Lemma countAt_above (layerOf : gmap Node Z) (layer l : Z) :
  (forall n lx, layerOf !! n = Some lx -> (0 <= lx <= layer)%Z) ->
  (layer < l)%Z -> countAt dag layerOf l = 0%Z.
Proof.
  intros Hrange Hl. unfold countAt.
  assert (Hnil : forall ns : list Node,
            filter (fun n => layerOf !! n = Some l) ns = []).
  { induction ns as [|x ns IH]; [done|].
    rewrite filter_cons_False; [exact IH|].
    intros Hx. specialize (Hrange x l Hx). lia. }
  by rewrite Hnil.
Qed.

Lemma layer_inv_assign (D : list Node) layerOf layer width p l' layer' width' :
  layer_inv D layerOf layer width ->
  p ∈ d_nodes dag -> p ∉ D ->
  (forall x, x ∈ parentsOf dag p -> exists lx, layerOf !! x = Some lx /\ (lx < l')%Z) ->
  (l' = layer /\ layer' = layer /\ width' = (width + 1)%Z /\ (width < maxWidth)%Z)
  \/ (l' = (layer + 1)%Z /\ layer' = (layer + 1)%Z /\ width' = 1%Z) ->
  (0 <= layer)%Z ->
  layer_inv (p :: D) (<[p := l']> layerOf) layer' width'.
Proof.
  intros (Hnd & Hsub & Hdom & Hrange & Hord & Hwidth & Hmax) Hp HpD Hpar Hcase Hlayer.
  assert (Hnone : layerOf !! p = None).
  { destruct (layerOf !! p) eqn:E; [|done]. exfalso. apply HpD, Hdom. by eexists. }
  assert (Hmw : (1 <= maxWidth)%Z).
  { apply HmaxWidth. intros Hnil. rewrite Hnil in Hp. by apply elem_of_nil in Hp. }
  split; [by apply NoDup_cons|]. split.
  { intros n Hn. apply elem_of_cons in Hn as [->|Hn]; auto. }
  split.
  { intros n. rewrite elem_of_cons. destruct (decide (p = n)) as [->|Hne].
    - rewrite lookup_insert_eq. split; [by left|by eexists].
    - rewrite lookup_insert_ne by done. rewrite Hdom. split; [by right|].
      intros [?|?]; [congruence|done]. }
  split.
  { intros n l. destruct (decide (p = n)) as [->|Hne].
    - rewrite lookup_insert_eq. intros [= <-]. lia.
    - rewrite lookup_insert_ne by done. intros Hn.
      specialize (Hrange n l Hn). lia. }
  split.
  { intros c q lc. destruct (decide (p = c)) as [->|Hne].
    - rewrite lookup_insert_eq. intros [= <-] Hq.
      destruct (Hpar q Hq) as (lq & Hlq & Hlt). exists lq. split; [|exact Hlt].
      rewrite lookup_insert_ne; [exact Hlq|]. intros ->. congruence.
    - rewrite lookup_insert_ne by done. intros Hc Hq.
      destruct (Hord c q lc Hc Hq) as (lq & Hlq & Hlt). exists lq.
      split; [|exact Hlt]. rewrite lookup_insert_ne; [exact Hlq|].
      intros ->. congruence. }
  split.
  { rewrite (countAt_insert _ _ _ _ Hp Hnone).
    destruct Hcase as [(-> & -> & -> & _)|(-> & -> & ->)].
    - rewrite decide_True by done. lia.
    - rewrite decide_True by done.
      rewrite (countAt_above layerOf layer) by (auto; lia). lia. }
  intros l. rewrite (countAt_insert _ _ _ _ Hp Hnone).
  destruct (decide (l' = l)) as [<-|Hne]; [|specialize (Hmax l); lia].
  destruct Hcase as [(-> & -> & -> & Hlt)|(-> & -> & ->)].
  - lia.
  - rewrite (countAt_above layerOf layer) by (auto; lia). lia.
Qed.

(** *** One round of the loop *)

Lemma visit_children (D : list Node) p (st : CG) :
  p ∈ d_nodes dag -> p ∉ D -> ready D (occ []) p ->
  data_inv D (occ []) (s_data st) ->
  queue_inv D (occ []) [p] (pq_items (s_queue st)) ->
  exists st',
    res_fold visitChild (d_children dag p) st = Ok st'
    /\ data_inv (p :: D) (occ []) (s_data st')
    /\ queue_inv (p :: D) (occ []) [] (pq_items (s_queue st'))
    /\ s_layer_of st' = s_layer_of st /\ s_i st' = s_i st
    /\ s_layer st' = s_layer st /\ s_width st' = s_width st.
Proof.
  intros Hp HpD Hready Hdata Hqueue.
  destruct (children_loop D p (d_children dag p) [] st Hp HpD eq_refl Hdata Hqueue)
    as (st' & Hrun & Hdata' & (Hnd & Hitems & Hiff) & Hsame).
  assert (Hcount : forall n,
    length (filter (fun x => x ∈ p :: D) (parentsOf dag n))
    = (length (filter (fun x => x ∈ D) (parentsOf dag n))
       + occ (d_children dag p) n)%nat).
  { intros n. rewrite (filter_done_cons D _ p HpD).
    rewrite (count_parent dag p n (wf_nodup dag Hwf) Hp).
    unfold occ, edgeCount. lia. }
  assert (Hrdy : forall n,
    ready (p :: D) (occ []) n <-> ready D (occ (d_children dag p)) n).
  { intros n. unfold ready. rewrite Hcount. unfold occ at 2. simpl. lia. }
  exists st'. split; [exact Hrun|]. split; [|split; [|exact Hsame]].
  - intros n Hn. destruct (Hdata' n Hn) as (d & Hd & Hpar & Hlen).
    exists d. split; [exact Hd|]. split; [exact Hpar|].
    rewrite Hlen, Hcount. unfold occ at 3. simpl. lia.
  - split; [exact Hnd|]. split.
    + intros n Hn. destruct (Hitems n Hn) as (Hnn & HnD & Hnp).
      split; [exact Hnn|]. split; [|apply not_elem_of_nil].
      intros [->|?]%elem_of_cons; [|done]. apply Hnp. by left.
    + intros n Hn _. rewrite Hrdy. destruct (decide (n = p)) as [->|Hne].
      * split; [|intros _; right; by left]. intros _.
        unfold ready in *. fold (edgeCount dag p p).
        replace (occ (d_children dag p) p) with (edgeCount dag p p) by reflexivity.
        rewrite (edgeCount_self p Hp). unfold occ in Hready. simpl in Hready.
        exact Hready.
      * rewrite <- (Hiff n Hn); [|by intros ->%list_elem_of_singleton].
        rewrite elem_of_cons. tauto.
Qed.

Lemma visit_spec (D : list Node) p (st : CG) :
  p ∈ d_nodes dag -> p ∉ D -> ready D (occ []) p ->
  data_inv D (occ []) (s_data st) ->
  queue_inv D (occ []) [p] (pq_items (s_queue st)) ->
  layer_inv D (s_layer_of st) (s_layer st) (s_width st) ->
  (0 <= s_layer st)%Z ->
  exists st',
    visit dag maxWidth p st = Ok st'
    /\ data_inv (p :: D) (occ []) (s_data st')
    /\ queue_inv (p :: D) (occ []) [] (pq_items (s_queue st'))
    /\ layer_inv (p :: D) (s_layer_of st') (s_layer st') (s_width st')
    /\ (0 <= s_layer st')%Z.
Proof.
  intros Hp HpD Hready Hdata Hqueue Hlayers Hnonneg.
  destruct (Hdata p Hp) as (d & Hd & Hpar & Hlen).
  pose proof Hlayers as (_ & _ & Hdom & Hrange & _).
  assert (Hdone : forall x, x ∈ parentsOf dag p ->
            exists lx, s_layer_of st !! x = Some lx /\ (lx <= s_layer st)%Z).
  { intros x Hx. unfold ready, occ in Hready. simpl in Hready.
    rewrite Nat.add_0_r in Hready.
    pose proof (filter_full _ _ Hready x Hx) as HxD.
    apply Hdom in HxD as [lx Hlx]. exists lx. split; [exact Hlx|].
    specialize (Hrange x lx Hlx). lia. }
  assert (Hfits : exists fits,
    (if (s_width st <? maxWidth)%Z then
       res_bind (def (s_data st !! p)) (fun d =>
         every (fun q => res_bind (def (s_layer_of st !! q))
                           (fun l => Ok (l <? s_layer st)%Z))
               (parents d))
     else Ok false) = Ok fits
    /\ (fits = true ->
        (s_width st < maxWidth)%Z
        /\ forall x, x ∈ parentsOf dag p ->
             exists lx, s_layer_of st !! x = Some lx /\ (lx < s_layer st)%Z)).
  { destruct (Z.ltb_spec (s_width st) maxWidth) as [Hlt|Hge]; [|by exists false].
    rewrite Hd. simpl. rewrite Hpar.
    destruct (every_layers (s_layer_of st) (s_layer st) (parentsOf dag p))
      as (b & Hb & Hall).
    { intros x Hx. destruct (Hdone x Hx) as (lx & Hlx & _). by eexists. }
    exists b. split; [exact Hb|]. intros ->. split; [exact Hlt|]. by apply Hall. }
  destruct Hfits as (fits & Hcond & Hfit).
  unfold visit. rewrite Hcond. simpl.
  match goal with
  | |- context [res_fold visitChild _ ?st1] =>
      destruct (visit_children D p st1 Hp HpD Hready)
        as (st2 & -> & Hdata2 & Hqueue2 & E1 & E2 & E3 & E4);
        [by destruct fits | by destruct fits |]
  end.
  simpl. eexists. split; [reflexivity|]. simpl.
  split; [exact Hdata2|]. split; [exact Hqueue2|].
  rewrite E1, E3, E4. destruct fits; simpl.
  - destruct (Hfit eq_refl) as [Hlt Hall]. split; [|exact Hnonneg].
    eapply layer_inv_assign; [exact Hlayers|exact Hp|exact HpD|exact Hall| |exact Hnonneg].
    left. by repeat split.
  - split; [|lia].
    eapply layer_inv_assign; [exact Hlayers|exact Hp|exact HpD| | |exact Hnonneg].
    + intros x Hx. destruct (Hdone x Hx) as (lx & Hlx & Hle).
      exists lx. split; [exact Hlx|lia].
    + right. by repeat split.
Qed.

(** *** The loop *)

Lemma loop_spec (fuel : nat) : forall (st : CG) (D : list Node),
  data_inv D (occ []) (s_data st) ->
  queue_inv D (occ []) [] (pq_items (s_queue st)) ->
  layer_inv D (s_layer_of st) (s_layer st) (s_width st) ->
  (0 <= s_layer st)%Z ->
  (length (d_nodes dag) - length D < fuel)%nat ->
  exists st' D',
    loop dag maxWidth fuel st = Ok st'
    /\ queue_inv D' (occ []) [] (pq_items (s_queue st'))
    /\ layer_inv D' (s_layer_of st') (s_layer st') (s_width st')
    /\ pq_items (s_queue st') = [].
Proof.
  induction fuel as [|fuel IH]; intros st D Hdata Hqueue Hlayers Hnonneg Hfuel;
    [lia|].
  simpl. destruct (decide (pq_items (s_queue st) = [])) as [Hempty|Hne].
  - rewrite (pq_poll_empty _ _ Hempty). simpl. by exists st, D.
  - destruct Hqueue as (Hnd & Hitems & Hiff).
    destruct (pq_poll_items (cgComp (s_data st)) (s_queue st) Hne)
      as (x & q & -> & Hperm).
    { apply cgComp_total. intros n Hn. eapply data_inv_dom; [exact Hdata|].
      by apply Hitems. }
    simpl.
    assert (Hx : x ∈ pq_items (s_queue st)) by (rewrite Hperm; by left).
    destruct (Hitems x Hx) as (Hxn & HxD & _).
    rewrite Hperm in Hnd. apply NoDup_cons in Hnd as [Hxq Hndq].
    set (st1 := {| s_data := s_data st; s_layer_of := s_layer_of st;
                   s_queue := q; s_i := s_i st; s_layer := s_layer st;
                   s_width := s_width st |}).
    destruct (visit_spec D x st1 Hxn HxD)
      as (st2 & -> & Hdata2 & Hqueue2 & Hlayers2 & Hnonneg2);
      [ |exact Hdata| |exact Hlayers|exact Hnonneg|].
    + apply Hiff; [exact Hxn|apply not_elem_of_nil|by left].
    + simpl. split; [exact Hndq|]. split.
      * intros n Hn. destruct (Hitems n) as (Hnn & HnD & _).
        { rewrite Hperm. by right. }
        split; [exact Hnn|]. split; [exact HnD|].
        intros ->%list_elem_of_singleton. done.
      * intros n Hn Hnx. rewrite <- (Hiff n Hn) by apply not_elem_of_nil.
        rewrite Hperm, elem_of_cons.
        assert (n <> x) by (intros ->; apply Hnx; by left). tauto.
    + simpl. apply (IH st2 (x :: D)); [done..|].
      destruct Hlayers2 as (HndD & HsubD & _).
      pose proof (submseteq_length _ _ (NoDup_submseteq _ _ HndD HsubD)) as Hle.
      simpl in *. lia.
Qed.

Lemma all_done (D : list Node) :
  queue_inv D (occ []) [] [] -> forall n, n ∈ d_nodes dag -> n ∈ D.
Proof.
  intros (_ & _ & Hiff). destruct (wf_acyclic dag Hwf) as [rank Hrank].
  assert (Hk : forall k n, (rank n < k)%nat -> n ∈ d_nodes dag -> n ∈ D).
  { induction k as [|k IH]; intros n Hlt Hn; [lia|].
    assert (Hready : ready D (occ []) n).
    { unfold ready, occ. simpl. rewrite Nat.add_0_r. apply filter_all.
      intros x [Hx Hc]%elem_of_parentsOf. apply IH; [|exact Hx].
      specialize (Hrank x n Hx Hc). lia. }
    destruct (proj2 (Hiff n Hn (not_elem_of_nil n)) Hready) as [Hin|Hin];
      [destruct (not_elem_of_nil _ Hin) | exact Hin]. }
  intros n Hn. apply (Hk (S (rank n))); [lia|exact Hn].
Qed.

End Layering.

(** ** The layering call *)

Lemma enqueue_roots {pq : Type} `{PriorityQueueLaws pq}
    (data : gmap Node Data) (rs : list Node) : forall q : pq,
  (forall n, n ∈ rs ++ pq_items q -> is_Some (data !! n)) ->
  exists q',
    res_fold (fun q root => pq_add (cgComp data) root q) rs q = Ok q'
    /\ pq_items q' ≡ₚ rs ++ pq_items q.
Proof.
  induction rs as [|r rs IH]; intros q Hdom; simpl.
  - by exists q.
  - destruct (pq_add_items (cgComp data) r q) as (q1 & -> & Hq1).
    { apply cgComp_total. intros n Hn. apply Hdom.
      apply elem_of_cons in Hn as [->|Hn]; [by left|].
      right. apply elem_of_app. by right. }
    simpl. destruct (IH q1) as (q' & Hrun & Hq').
    { intros n Hn. apply Hdom. rewrite Hq1 in Hn.
      apply elem_of_app in Hn as [Hn|Hn].
      - right. apply elem_of_app. by left.
      - apply elem_of_cons in Hn as [->|Hn]; [by left|].
        right. apply elem_of_app. by right. }
    exists q'. split; [exact Hrun|]. rewrite Hq', Hq1.
    by rewrite Permutation_middle.
Qed.

Lemma filter_none_done (l : list Node) : filter (fun x => x ∈ []) l = [].
Proof.
  induction l as [|x l IH]; [done|].
  rewrite filter_cons_False; [exact IH|]. apply not_elem_of_nil.
Qed.

Lemma maxWidthOf_pos options dag :
  (0 <= cg_width options)%Z ->
  (0 <= maxWidthOf options dag)%Z
  /\ (d_nodes dag <> [] -> (1 <= maxWidthOf options dag)%Z).
Proof.
  intros Hw. unfold maxWidthOf.
  destruct (Z.eqb_spec (cg_width options) 0) as [Hz|Hnz].
  - assert (Hsize : (0 <= size dag)%Z) by (unfold size; lia).
    rewrite (floorSqrtPlusHalf_sqrt _ Hsize). split; [apply Z.sqrt_nonneg|].
    intros Hne. change 1%Z with (Z.sqrt 1). apply Z.sqrt_le_mono.
    unfold size. destruct (d_nodes dag); [done|simpl; lia].
  - split; [lia|]. intros _. lia.
Qed.

Lemma countAt_empty dag l : countAt dag ∅ l = 0%Z.
Proof.
  unfold countAt. induction (d_nodes dag) as [|x ns IH]; [done|].
  rewrite filter_cons_False; [exact IH|]. by rewrite lookup_empty.
Qed.

(** C2. On a dag (no cycle, the roots its parentless nodes) and with a
    nonnegative configured width, the layering call returns normally; in
    its result every node has a nonnegative layer, every edge goes from a
    layer to a strictly greater one, and no layer holds more nodes than the
    maximum width: the configured width when that is positive, and when it
    is 0 the automatic width, the integer square root of the number of
    nodes (which is at most the rounded square root). *)
Theorem coffmanGraham_layers {pq : Type} `{PriorityQueueLaws pq}
    (options : CGOptions) (dag : Dag) :
  wf_dag dag -> (0 <= cg_width options)%Z ->
  exists layerOf,
    coffmanGrahamCall (pq := pq) options dag = Ok layerOf
    /\ (forall n, n ∈ d_nodes dag ->
          exists l, layerOf !! n = Some l /\ (0 <= l)%Z)
    /\ (forall p c lp lc,
          p ∈ d_nodes dag -> c ∈ d_children dag p ->
          layerOf !! p = Some lp -> layerOf !! c = Some lc -> (lp < lc)%Z)
    /\ ((0 < cg_width options)%Z ->
        forall l, (countAt dag layerOf l <= cg_width options)%Z)
    /\ (cg_width options = 0%Z ->
        forall l, (countAt dag layerOf l <= Z.sqrt (size dag))%Z).
Proof.
  intros Hwf Hw. destruct (maxWidthOf_pos options dag Hw) as [Hmw0 Hmw1].
  unfold coffmanGrahamCall.
  destruct (initData_spec dag Hwf) as (data & -> & Hdata). cbn [res_bind].
  destruct (enqueue_roots data (d_roots dag) pq_new) as (queue & -> & Hqueue).
  { intros n Hn. rewrite pq_new_items, app_nil_r in Hn.
    apply (wf_roots dag Hwf) in Hn as [Hn _]. rewrite (Hdata n Hn). by eexists. }
  rewrite pq_new_items, app_nil_r in Hqueue. cbn [res_bind].
  destruct (loop_spec dag (maxWidthOf options dag) Hwf Hmw1
              (S (length (d_nodes dag)))
              {| s_data := data; s_layer_of := ∅; s_queue := queue;
                 s_i := 0; s_layer := 0; s_width := 0 |} [])
    as (st & D & -> & Hq & Hl & Hempty).
  - intros n Hn. eexists. split; [exact (Hdata n Hn)|]. simpl.
    split; [reflexivity|]. by rewrite filter_none_done.
  - simpl. split; [rewrite Hqueue; apply (wf_roots_nodup dag Hwf)|]. split.
    + intros n Hn. rewrite Hqueue in Hn. apply (wf_roots dag Hwf) in Hn as [Hn _].
      split; [exact Hn|]. split; apply not_elem_of_nil.
    + intros n Hn _. rewrite Hqueue. unfold ready, occ.
      rewrite filter_none_done. simpl. rewrite (wf_roots dag Hwf n). split.
      * intros [[_ Hr]|Hin]; [by rewrite Hr|destruct (not_elem_of_nil _ Hin)].
      * intros Hlen. left. split; [exact Hn|].
        by destruct (parentsOf dag n).
  - simpl. split; [apply NoDup_nil_2|]. split.
    { intros n Hn. destruct (not_elem_of_nil _ Hn). }
    split.
    { intros n. rewrite lookup_empty. split.
      - intros [? ?]. done.
      - intros Hn. destruct (not_elem_of_nil _ Hn). }
    split; [intros n l; by rewrite lookup_empty|].
    split; [intros c p lc; by rewrite lookup_empty|].
    split; [apply countAt_empty|].
    intros l. rewrite countAt_empty. exact Hmw0.
  - simpl. lia.
  - simpl. lia.
  - cbn [res_bind]. exists (s_layer_of st). split; [reflexivity|].
    rewrite Hempty in Hq.
    pose proof (all_done dag Hwf D Hq) as Hall.
    destruct Hl as (_ & _ & Hdom & Hrange & Hord & _ & Hmax).
    split; [|split; [|split]].
    + intros n Hn. apply Hall, Hdom in Hn as [l Hl]. exists l.
      split; [exact Hl|]. specialize (Hrange n l Hl). lia.
    + intros p c lp lc Hp Hc Hlp Hlc.
      destruct (Hord c p lc Hlc) as (lp' & Hlp' & Hlt);
        [by apply elem_of_parentsOf|].
      rewrite Hlp in Hlp'. inversion Hlp'; subst. exact Hlt.
    + intros Hpos l. specialize (Hmax l). unfold maxWidthOf in Hmax.
      destruct (Z.eqb_spec (cg_width options) 0) as [Hz|_]; [lia|exact Hmax].
    + intros Hz l. specialize (Hmax l). unfold maxWidthOf in Hmax.
      rewrite Hz in Hmax. simpl in Hmax.
      rewrite floorSqrtPlusHalf_sqrt in Hmax by (unfold size; lia). exact Hmax.
Qed.

(** The list queue is a queue. *)
Lemma pickBest_in (cmp : Node -> Node -> Res bool) (S : list Node) :
  total_on cmp S ->
  forall l best, best ∈ S -> (forall y, y ∈ l -> y ∈ S) ->
  exists b, pickBest cmp best l = Ok b /\ (b = best \/ b ∈ l).
Proof.
  intros Htot. induction l as [|y l IH]; intros best Hbest Hl; simpl.
  - exists best. by split; [|left].
  - assert (Hy : y ∈ S) by (apply Hl; by left).
    destruct (Htot y best Hy Hbest) as [b1 ->].
    destruct (Htot best y Hbest Hy) as [b2 ->]. simpl.
    destruct (IH (if b1 && negb b2 then y else best)) as (b & -> & Hb).
    { by destruct (b1 && negb b2). }
    { intros z Hz. apply Hl. by right. }
    exists b. split; [reflexivity|].
    destruct Hb as [->|Hb]; [|right; by right].
    destruct (b1 && negb b2); [right; by left|by left].
Qed.

Lemma removeFirst_perm x (l : list Node) : x ∈ l -> l ≡ₚ x :: removeFirst x l.
Proof.
  induction l as [|y l IH]; intros Hx; [destruct (not_elem_of_nil _ Hx)|].
  simpl. destruct (decide (x = y)) as [->|Hne]; [done|].
  apply elem_of_cons in Hx as [?|Hx]; [congruence|].
  rewrite (IH Hx) at 1. apply Permutation_swap.
Qed.

#[export] Instance listQueue_laws : PriorityQueueLaws (list Node).
Proof.
  split.
  - reflexivity.
  - intros cmp x q _. exists (q ++ [x]). split; [reflexivity|].
    simpl. by rewrite Permutation_app_comm.
  - intros cmp q Hq. simpl in Hq. by rewrite Hq.
  - intros cmp q Hne Htot. simpl in *. destruct q as [|x q]; [done|].
    destruct (pickBest_in cmp (x :: q) Htot q x) as (b & Hb & Hin);
      [by left|intros y Hy; by right|].
    exists b, (removeFirst b (x :: q)). simpl. rewrite Hb. simpl.
    split; [reflexivity|]. apply removeFirst_perm.
    destruct Hin as [->|Hin]; [by left|by right].
Qed.

Definition squareDag : Dag :=
  {| d_nodes := [0; 1; 2; 3]%nat;
     d_roots := [0%nat];
     d_children := fun n =>
       match n with
       | 0%nat => [1; 2]%nat
       | 1%nat => [3%nat]
       | 2%nat => [3%nat]
       | _ => []
       end |}.

Lemma squareDag_wf : wf_dag squareDag.
Proof.
  split.
  - apply (bool_decide_unpack _). by vm_compute.
  - intros p c Hp Hc. simpl in *.
    repeat (apply elem_of_cons in Hp as [->|Hp]);
      try (destruct (not_elem_of_nil _ Hp)); simpl in Hc;
      repeat (apply elem_of_cons in Hc as [->|Hc]);
      try (destruct (not_elem_of_nil _ Hc));
      apply (bool_decide_unpack _); by vm_compute.
  - apply (bool_decide_unpack _). by vm_compute.
  - intros r. simpl. split.
    + intros ->%list_elem_of_singleton. split; [by left|reflexivity].
    + intros [Hr Hp].
      repeat (apply elem_of_cons in Hr as [->|Hr]);
        try (destruct (not_elem_of_nil _ Hr)); [by left|discriminate..].
  - exists (fun n => n). intros p c Hp Hc. simpl in *.
    repeat (apply elem_of_cons in Hp as [->|Hp]);
      try (destruct (not_elem_of_nil _ Hp)); simpl in Hc;
      repeat (apply elem_of_cons in Hc as [->|Hc]);
      try (destruct (not_elem_of_nil _ Hc)); lia.
Qed.

Lemma coffmanGraham_layers_witness :
  exists layerOf,
    coffmanGrahamCall (pq := list Node) {| cg_width := 1 |} squareDag = Ok layerOf
    /\ (forall n, n ∈ d_nodes squareDag ->
          exists l, layerOf !! n = Some l /\ (0 <= l)%Z)
    /\ (forall p c lp lc,
          p ∈ d_nodes squareDag -> c ∈ d_children squareDag p ->
          layerOf !! p = Some lp -> layerOf !! c = Some lc -> (lp < lc)%Z)
    /\ ((0 < cg_width {| cg_width := 1 |})%Z ->
        forall l, (countAt squareDag layerOf l <= cg_width {| cg_width := 1 |})%Z)
    /\ (cg_width {| cg_width := 1 |} = 0%Z ->
        forall l, (countAt squareDag layerOf l <= Z.sqrt (size squareDag))%Z).
Proof.
  apply (coffmanGraham_layers (pq := list Node) {| cg_width := 1 |} squareDag).
  - exact squareDag_wf.
  - simpl. lia.
Defined.

(** ** The call as model construction followed by the final sort *)

Lemma optCall_split ichildren Solve options h :
  optCall ichildren Solve options h
  = match optBuild ichildren options h with
    | (Ok _, h') =>
        match h_model h' with
        | Some model =>
            forM_ (indices (h_layers h))
                  (fun li => sortLayer li
                               (finalComp (buildIds (h_layers h)) (Solve model))) h'
        | None => (Err UndefinedError, h')
        end
    | (Err e, h') => (Err e, h')
    end.
Proof.
  unfold optCall, optBuild. rewrite !bind_getLayers. cbv beta.
  destruct (negb (opt_clowntown options) && (2500 <? sizeOf (h_layers h))%Z);
    [reflexivity|].
  rewrite !bind_putModel. cbv beta zeta.
  set (h1 := {| h_layers := h_layers h; h_model := Some initModel |}).
  unfold bind.
  destruct (forM_ (indices (h_layers h)) (perms (buildIds (h_layers h))) h1)
    as [[[]|e] h2]; [|reflexivity].
  destruct (forM_ _ (cross ichildren (buildIds (h_layers h))) h2)
    as [[[]|e] h3]; [|reflexivity].
  unfold getModel. by destruct (h_model h3).
Qed.

(** ** Sorting under comparators that agree in sign *)

Lemma insertBy_elem {A} (cmp : A -> A -> Res Q) x l l' :
  Js.insertBy cmp x l = Ok l' -> forall y, y ∈ l' -> y = x \/ y ∈ l.
Proof.
  revert l'. induction l as [|z l IH]; intros l'; simpl.
  - intros [= <-] y Hy. apply list_elem_of_singleton in Hy. by left.
  - destruct (cmp x z) as [c|e]; simpl; [|discriminate].
    destruct (Qle_bool c 0).
    + intros [= <-] y Hy. apply elem_of_cons in Hy as [->|Hy]; [by left|by right].
    + destruct (Js.insertBy cmp x l) as [r|e]; simpl; [|discriminate].
      intros [= <-] y Hy. apply elem_of_cons in Hy as [->|Hy].
      * right. by left.
      * destruct (IH r eq_refl y Hy) as [->|Hin]; [by left|right; by right].
Qed.

Lemma sortBy_elem {A} (cmp : A -> A -> Res Q) l l' :
  Js.sortBy cmp l = Ok l' -> forall y, y ∈ l' -> y ∈ l.
Proof.
  revert l'. induction l as [|x l IH]; intros l'; simpl.
  - by intros [= <-].
  - destruct (Js.sortBy cmp l) as [r|e]; simpl; [|discriminate].
    intros Hins y Hy.
    destruct (insertBy_elem cmp x r l' Hins y Hy) as [->|Hin]; [by left|].
    right. by apply (IH r).
Qed.

Lemma insertBy_agree {A} (cmp1 cmp2 : A -> A -> Res Q) x l :
  (forall y, y ∈ l ->
     match cmp1 x y, cmp2 x y with
     | Ok q1, Ok q2 => Qle_bool q1 0 = Qle_bool q2 0
     | Err e1, Err e2 => e1 = e2
     | _, _ => False
     end) ->
  Js.insertBy cmp1 x l = Js.insertBy cmp2 x l.
Proof.
  induction l as [|y l IH]; intros Hc; simpl; [reflexivity|].
  pose proof (Hc y ltac:(by left)) as Hy.
  destruct (cmp1 x y) as [q1|e1], (cmp2 x y) as [q2|e2]; simpl;
    try done; [|by subst].
  rewrite Hy. destruct (Qle_bool q2 0); [reflexivity|].
  rewrite IH; [reflexivity|]. intros z Hz. apply Hc. by right.
Qed.

Lemma sortBy_agree {A} (cmp1 cmp2 : A -> A -> Res Q) l :
  agree cmp1 cmp2 l -> Js.sortBy cmp1 l = Js.sortBy cmp2 l.
Proof.
  induction l as [|x l IH]; intros Hc; simpl; [reflexivity|].
  rewrite IH by (intros a b Ha Hb; apply Hc; by right).
  destruct (Js.sortBy cmp2 l) as [r|e] eqn:Hr; simpl; [|reflexivity].
  apply insertBy_agree. intros y Hy. apply Hc; [by left|].
  right. by apply (sortBy_elem cmp2 l r).
Qed.

Lemma sortLayers_agree (cmp1 cmp2 : Node -> Node -> Res Q) (lis : list nat) :
  forall h,
    (forall layer, layer ∈ h_layers h -> agree cmp1 cmp2 layer) ->
    forM_ lis (fun li => sortLayer li cmp1) h
    = forM_ lis (fun li => sortLayer li cmp2) h.
Proof.
  induction lis as [|li lis IH]; intros h Hagree; simpl; [reflexivity|].
  unfold bind, sortLayer.
  destruct (h_layers h !! li) as [layer|] eqn:Hli; [|reflexivity].
  assert (Hl : agree cmp1 cmp2 layer)
    by (apply Hagree; by eapply list_elem_of_lookup_2).
  rewrite (sortBy_agree cmp1 cmp2 layer Hl).
  destruct (Js.sortBy cmp2 layer) as [sorted|e] eqn:Hsort; [|reflexivity].
  apply IH. simpl. intros layer' Hin.
  apply list_elem_of_lookup_1 in Hin as [i Hi].
  destruct (decide (i = li)) as [->|Hne].
  - rewrite list_lookup_insert_eq in Hi by (by eapply lookup_lt_Some).
    inversion Hi; subst. intros a b Ha Hb.
    apply Hl; by apply (sortBy_elem cmp2 layer layer').
  - rewrite list_lookup_insert_ne in Hi by done.
    apply Hagree. by eapply list_elem_of_lookup_2.
Qed.

Lemma orElse_directionOf (o : gmap string Q) k :
  Js.orElse (o !! k) (-1) = directionOf (valueOf o k).
Proof. unfold valueOf, directionOf. by destruct (o !! k). Qed.

Lemma directionOf_proper q q' : (q == q')%Q -> (directionOf q == directionOf q')%Q.
Proof.
  intros Hq. unfold directionOf.
  assert (Qeq_bool q 0 = Qeq_bool q' 0) as ->.
  { apply eq_true_iff_eq. rewrite !Qeq_bool_iff. by rewrite Hq. }
  by destruct (Qeq_bool q' 0).
Qed.

Lemma sign_proper (c q q' : Q) :
  (q == q')%Q -> Qle_bool (c * q) 0 = Qle_bool (c * q') 0.
Proof. intros Hq. apply eq_true_iff_eq. rewrite !Qle_bool_iff. by rewrite Hq. Qed.

Lemma comp_self ids n c : comp ids n n = Ok c -> c = 0%Q.
Proof.
  unfold comp, def, res_bind. destruct (ids !! n) as [s|]; [|discriminate].
  intros H. injection H as <-. unfold Js.localeCompare.
  pose proof (String.compare_antisym s s) as Hs.
  by destruct (String.compare s s).
Qed.

(** Two solver results with the same values for the pair variables of the
    layers give rise to the same final order. *)
Lemma finalComp_agree ids (o1 o2 : gmap string Q) (l : list Node) :
  (forall a b k, a ∈ l -> b ∈ l -> a <> b -> key ids [a; b] = Ok k ->
     (valueOf o1 k == valueOf o2 k)%Q) ->
  agree (finalComp ids o1) (finalComp ids o2) l.
Proof.
  intros Hval a b Ha Hb. unfold finalComp.
  destruct (comp ids a b) as [c|e] eqn:Hc; simpl; [|reflexivity].
  destruct (key ids [a; b]) as [k|e] eqn:Hk; simpl; [|reflexivity].
  rewrite !orElse_directionOf.
  destruct (decide (a = b)) as [->|Hne].
  - rewrite (comp_self ids b c Hc). apply eq_true_iff_eq.
    rewrite !Qle_bool_iff. split; intros _; [|]; ring_simplify; apply Qle_refl.
  - apply sign_proper, directionOf_proper. by apply (Hval a b).
Qed.

(** ** Shared children: the model and its optimal solutions *)

Lemma sharedBuild :
  optBuild sharedChildren {| opt_clowntown := false |}
           {| h_layers := sharedLayers; h_model := None |}
  = (Ok tt, {| h_layers := sharedLayers; h_model := Some sharedModel |}).
Proof. vm_compute. reflexivity. Qed.

Lemma sharedVars_eq : varNames sharedModel = sharedVars.
Proof. vm_compute. reflexivity. Qed.

Lemma sharedInts_eq : intNames sharedModel = sharedInts.
Proof. vm_compute. reflexivity. Qed.

Lemma sharedSystem_eq : systemOf sharedModel = sharedSystem.
Proof. vm_compute. reflexivity. Qed.

Lemma sharedObjective_eq : sparseRow sharedModel (optimize sharedModel) = sharedObjective.
Proof. vm_compute. reflexivity. Qed.

Lemma binary (q : Q) :
  (exists z : Z, (q == inject_Z z)%Q) -> (0 <= q)%Q -> (q <= 1)%Q ->
  (q == 0)%Q \/ (q == 1)%Q.
Proof.
  intros [z Hz] H0 H1. rewrite Hz in *.
  assert (0 <= z <= 1)%Z as Hr.
  { unfold Qle, inject_Z in H0, H1. simpl in H0, H1. lia. }
  assert (z = 0 \/ z = 1)%Z as [->| ->] by lia; [left|right]; reflexivity.
Qed.

Ltac explode H :=
  repeat match type of H with
  | Forall _ (_ :: _) => let C := fresh "C" in apply Forall_cons in H as [C H]
  | Forall _ [] => clear H
  end.

Ltac split_binary k :=
  match goal with
  | H : (?a k == 0)%Q \/ (?a k == 1)%Q |- _ => destruct H as [H|H]
  end.

Ltac prune := try (exfalso; lra).

(** No feasible assignment of [sharedModel] costs less than [1], and the
    ones that cost [1] are those of the two families. *)
Lemma shared_optimum (a : string -> Q) :
  feasible sharedModel a -> (objective sharedModel a <= 1)%Q ->
  (1 <= objective sharedModel a)%Q /\ (firstFamily a \/ secondFamily a).
Proof.
  intros (Hpos & Hsys & Hint) Hobj.
  unfold objective in *. rewrite sharedObjective_eq in *.
  rewrite sharedVars_eq in Hpos. rewrite sharedSystem_eq in Hsys.
  rewrite sharedInts_eq in Hint.
  unfold sharedVars in Hpos. unfold sharedSystem in Hsys.
  unfold sharedInts in Hint. unfold sharedObjective in *.
  explode Hpos. explode Hsys. explode Hint.
  unfold withinBound, firstFamily, secondFamily in *.
  cbn [dot foldr bmin bmax] in *.
  repeat match goal with H : _ /\ _ |- _ => destruct H end.
  repeat match goal with H : True |- _ => clear H end.
  repeat match goal with
  | H : exists z : Z, (?q == inject_Z z)%Q |- _ => apply binary in H; [|lra|lra]
  end.
  split_binary "(0 0) => (0 1)"; split_binary "(0 0) => (0 2)";
    split_binary "(0 1) => (0 2)"; prune.
  all: (split_binary "(1 0) => (1 1)"; split_binary "(1 0) => (1 2)";
        split_binary "(1 1) => (1 2)"; prune).
  all: (split_binary "(1 1) => (1 3)"; split_binary "(1 2) => (1 3)"; prune).
  all: (first
    [ exfalso; lra
    | split;
      [ lra
      | first [ left; repeat split; first [assumption | tauto]
              | right; repeat split; first [assumption | tauto] ] ] ]).
Qed.

Lemma sharedSolution_feasible : feasible sharedModel (valueOf sharedSolution).
Proof.
  unfold feasible.
  rewrite sharedVars_eq, sharedSystem_eq, sharedInts_eq.
  unfold sharedVars, sharedSystem, sharedInts.
  repeat split.
  - repeat (apply Forall_cons; split; [vm_compute; discriminate|]).
    by apply Forall_nil.
  - repeat (apply Forall_cons; split; [vm_compute; intuition discriminate|]).
    by apply Forall_nil.
  - repeat (apply Forall_cons; split;
            [first [ exists 0%Z; vm_compute; reflexivity
                   | exists 1%Z; vm_compute; reflexivity ]|]).
    by apply Forall_nil.
Qed.

Lemma sharedSolution_objective : (objective sharedModel (valueOf sharedSolution) == 1)%Q.
Proof. vm_compute. reflexivity. Qed.

Lemma sharedSolution_optimal : optimal sharedModel sharedSolution.
Proof.
  split; [exact sharedSolution_feasible|].
  intros a Ha. rewrite sharedSolution_objective.
  destruct (Qlt_le_dec 1 (objective sharedModel a)) as [Hlt|Hle].
  - by apply Qlt_le_weak.
  - by destruct (shared_optimum a Ha Hle).
Qed.

(** The final sort of [sharedLayers] only looks at the pair variables. *)
Lemma shared_agree (o ref : gmap string Q) :
  Forall (fun k => (valueOf o k == valueOf ref k)%Q) sharedInts ->
  forall layer, layer ∈ sharedLayers ->
    agree (finalComp (buildIds sharedLayers) o)
          (finalComp (buildIds sharedLayers) ref) layer.
Proof.
  intros Hval layer Hl. apply finalComp_agree. intros a b k Ha Hb Hne Hk.
  unfold sharedInts in Hval. explode Hval.
  unfold sharedLayers in Hl.
  repeat (apply elem_of_cons in Hl as [->|Hl]); [| |by apply elem_of_nil in Hl].
  - repeat (apply elem_of_cons in Ha as [->|Ha]); [| | |by apply elem_of_nil in Ha].
    all: repeat (apply elem_of_cons in Hb as [->|Hb]);
      try (by apply elem_of_nil in Hb); try done.
    all: vm_compute in Hk; injection Hk as <-; assumption.
  - repeat (apply elem_of_cons in Ha as [->|Ha]); [| | | |by apply elem_of_nil in Ha].
    all: repeat (apply elem_of_cons in Hb as [->|Hb]);
      try (by apply elem_of_nil in Hb); try done.
    all: vm_compute in Hk; injection Hk as <-; assumption.
Qed.

Ltac same_values :=
  repeat (apply Forall_cons; split;
    [ match goal with
      | |- (_ == ?r)%Q =>
          let v := eval vm_compute in r in
          replace r with v by (vm_compute; reflexivity)
      end; assumption | ]);
  by apply Forall_nil.

Ltac sorted_as ref layers' :=
  rewrite (sortLayers_agree _ (finalComp (buildIds sharedLayers) ref));
  [ exists layers'; split; [vm_compute; reflexivity|];
    split; [repeat constructor; solve_Permutation|];
    split; vm_compute; reflexivity
  | intros layer Hlayer; cbn [h_layers] in Hlayer;
    apply (shared_agree _ ref); [unfold sharedInts; same_values | exact Hlayer] ].

Lemma sharedLayers_valid : valid_layering sharedChildren sharedLayers.
Proof.
  intros i layer p c Hi Hp Hc.
  destruct i as [|[|i]]; simpl in Hi; [| |done].
  - injection Hi as <-. exists [3; 4; 5; 6]%nat. split; [reflexivity|].
    repeat (apply elem_of_cons in Hp as [->|Hp]); [| | |by apply elem_of_nil in Hp].
    all: simpl in Hc; repeat (apply elem_of_cons in Hc as [->|Hc]);
      try (by apply elem_of_nil in Hc); repeat constructor.
  - injection Hi as <-.
    repeat (apply elem_of_cons in Hp as [->|Hp]); [| | | |by apply elem_of_nil in Hp].
    all: simpl in Hc; by apply elem_of_nil in Hc.
Qed.

(** C1. The call does not always reach the least number of crossings, nor
    stay below the crossings of the order it was given.  Nodes 0, 1, 2 stand
    over nodes 3, 4, 5, 6; node 0 has all four as children, node 1 the last
    three and node 2 the last one: a valid layering that passes the size
    guard and has 3 crossings as given.  Nodes 0 and 1 share more than one
    pair of children, and the slack variable is named after the pair of
    parents and the pair of children only, so that a later write of the same
    name replaces the earlier one.  Whatever optimal solution of the model
    the solver returns, the call returns normally with layers that have 4
    crossings. *)
Theorem shared_children_not_minimized (Solve : Model -> gmap string Q) :
  optimal sharedModel (Solve sharedModel) ->
  valid_layering sharedChildren sharedLayers
  /\ passes_guard {| opt_clowntown := false |} sharedLayers
  /\ exists layers',
       runOpt sharedChildren Solve {| opt_clowntown := false |} sharedLayers
         = (Ok tt, {| h_layers := layers'; h_model := Some sharedModel |})
       /\ Forall2 (≡ₚ) sharedLayers layers'
       /\ crossings sharedChildren sharedLayers = 3%nat
       /\ crossings sharedChildren layers' = 4%nat.
Proof.
  intros [Hfeas Hmin].
  split; [exact sharedLayers_valid|].
  split; [right; vm_compute; discriminate|].
  pose proof (Hmin _ sharedSolution_feasible) as Hle.
  rewrite sharedSolution_objective in Hle.
  destruct (shared_optimum _ Hfeas Hle) as [_ Hfam].
  unfold runOpt. rewrite optCall_split, sharedBuild.
  cbn [h_model h_layers].
  set (o := Solve sharedModel) in *.
  destruct Hfam as [Hfam|Hfam]; unfold firstFamily, secondFamily in Hfam;
    destruct Hfam as (X01 & X02 & X12 & Y01 & Y02 & Y12 & Y13 & Y23 & [Y03|Y03]).
  - sorted_as (pairValues 0 1 1 0 0 0 1 1 1) [[1; 0; 2]; [4; 5; 6; 3]]%nat.
  - sorted_as (pairValues 0 1 1 0 0 1 1 1 1) [[1; 0; 2]; [4; 5; 3; 6]]%nat.
  - sorted_as (pairValues 1 0 0 1 1 0 0 0 0) [[2; 0; 1]; [6; 3; 5; 4]]%nat.
  - sorted_as (pairValues 1 0 0 1 1 1 0 0 0) [[2; 0; 1]; [3; 6; 5; 4]]%nat.
Qed.

Lemma shared_children_witness :
  optimal sharedModel sharedSolution
  /\ exists layers',
       runOpt sharedChildren (fun _ => sharedSolution)
              {| opt_clowntown := false |} sharedLayers
         = (Ok tt, {| h_layers := layers'; h_model := Some sharedModel |})
       /\ Forall2 (≡ₚ) sharedLayers layers'
       /\ crossings sharedChildren sharedLayers = 3%nat
       /\ crossings sharedChildren layers' = 4%nat.
Proof.
  split; [exact sharedSolution_optimal|].
  destruct (shared_children_not_minimized (fun _ => sharedSolution)
              sharedSolution_optimal) as (_ & _ & H).
  exact H.
Defined.


(** * Further properties of the operators *)

(** ** The final sort looks at the sign of the solved values only *)

Lemma directionOf_sign (q : Q) :
  ((0 < q)%Q -> (0 < directionOf q)%Q) /\ (~ (0 < q)%Q -> (directionOf q < 0)%Q).
Proof.
  unfold directionOf. destruct (Qeq_bool q 0) eqn:Hq.
  - apply Qeq_bool_iff in Hq. split; intros Hs; lra.
  - apply Qeq_bool_neq in Hq. split; intros Hs; [exact Hs|].
    destruct (Q_dec q 0) as [[Hlt|Hgt]|Heq]; [exact Hlt|by destruct Hs|by destruct Hq].
Qed.

Lemma sign_same (c q1 q2 : Q) :
  ((0 < q1)%Q <-> (0 < q2)%Q) ->
  Qle_bool (c * directionOf q1) 0 = Qle_bool (c * directionOf q2) 0.
Proof.
  intros Hiff. apply eq_true_iff_eq. rewrite !Qle_bool_iff.
  destruct (directionOf_sign q1) as [Hp1 Hn1], (directionOf_sign q2) as [Hp2 Hn2].
  destruct (Qlt_le_dec 0 q1) as [Hpos|Hneg].
  - specialize (Hp1 Hpos). specialize (Hp2 (proj1 Hiff Hpos)).
    split; intros Hle; nra.
  - assert (Hq1 : ~ (0 < q1)%Q) by (intros Hlt; lra).
    assert (Hq2 : ~ (0 < q2)%Q) by (intros Hlt; apply Hq1; by apply Hiff).
    specialize (Hn1 Hq1). specialize (Hn2 Hq2).
    split; intros Hle; nra.
Qed.

(** X1. The order the call leaves depends on the solver's result only through
    which variables have a positive value: two solvers whose results are
    positive at the same variables give the same outcome. *)
Theorem final_order_depends_on_signs_only
    (ichildren : Node -> list Node) (Solve1 Solve2 : Model -> gmap string Q)
    (options : OptOptions) (layers : list (list Node)) :
  (forall m k, (0 < valueOf (Solve1 m) k)%Q <-> (0 < valueOf (Solve2 m) k)%Q) ->
  runOpt ichildren Solve1 options layers = runOpt ichildren Solve2 options layers.
Proof.
  intros Hsign. unfold runOpt. rewrite !optCall_split.
  destruct (optBuild ichildren options _) as [[[]|e] h']; [|reflexivity].
  destruct (h_model h') as [model|]; [|reflexivity].
  apply sortLayers_agree. intros layer _ a b _ _. unfold finalComp.
  destruct (comp _ a b) as [c|e]; simpl; [|reflexivity].
  destruct (key _ [a; b]) as [k|e]; simpl; [|reflexivity].
  rewrite !orElse_directionOf. apply sign_same, Hsign.
Qed.

Lemma final_order_depends_on_signs_only_witness :
  runOpt crossedChildren (fun _ => {[ "(1 0) => (1 1)" := 1%Q ]})
         {| opt_clowntown := false |} crossedLayers
  = runOpt crossedChildren (fun _ => {[ "(1 0) => (1 1)" := (1 # 2)%Q ]})
           {| opt_clowntown := false |} crossedLayers.
Proof.
  apply (final_order_depends_on_signs_only crossedChildren
           (fun _ => {[ "(1 0) => (1 1)" := 1%Q ]})
           (fun _ => {[ "(1 0) => (1 1)" := (1 # 2)%Q ]})).
  intros _ k. unfold valueOf.
  destruct (decide (k = "(1 0) => (1 1)")) as [->|Hne].
  - rewrite !lookup_singleton_eq. simpl. split; reflexivity.
  - rewrite !lookup_singleton_ne by done. reflexivity.
Defined.

(** ** The model construction on a valid layering *)

(** [perms] sorts the layer by identifier and adds its pair variables. *)
Lemma perms_sorts ids li h layer :
  h_layers h !! li = Some layer ->
  (forall n, n ∈ layer -> is_Some (ids !! n)) ->
  is_Some (h_model h) ->
  exists sorted h',
    perms ids li h = (Ok tt, h')
    /\ Js.sortBy (comp ids) layer = Ok sorted
    /\ h_layers h' = <[li := sorted]> (h_layers h)
    /\ is_Some (h_model h')
    /\ (forall k, hasVar k h -> hasVar k h')
    /\ (forall a b k, apart sorted a b -> key ids [a; b] = Ok k -> hasVar k h').
Proof.
  intros Hli Hids Hm.
  destruct (sortBy_perm (comp ids) layer) as (sorted & Hsort & Hperm).
  { intros a b Ha Hb. apply comp_ok; by apply Hids. }
  assert (Hids' : forall n, n ∈ sorted -> is_Some (ids !! n)).
  { intros n Hn. apply Hids. by rewrite <- Hperm. }
  set (h1 := {| h_layers := <[li := sorted]> (h_layers h); h_model := h_model h |}).
  assert (Hb : builds none (pairVariables ids sorted >>> triangles ids sorted)
                 (fun k => (exists a b, before_in sorted a b /\ key ids [a; b] = Ok k)
                           \/ none k)).
  { apply builds_then; [by apply pairVariables_builds|].
    apply triangles_builds; [exact Hids'|].
    intros a b k Hab Hk. right. eauto. }
  destruct (Hb h1) as (h' & Hrun & Hl & Hm' & Hmono & Hnew); [exact Hm|intros ? []|].
  exists sorted, h'. split.
  - unfold perms, bind at 1, sortLayer. rewrite Hli, Hsort. fold h1.
    unfold bind at 1, getLayer. simpl h_layers.
    rewrite list_lookup_insert_eq by (by eapply lookup_lt_Some). simpl.
    exact Hrun.
  - repeat split; auto.
    intros a b k Hab Hk. apply Hnew. left.
    destruct (apart_before_in _ _ _ Hab) as [Hb1|Hb2]; [by eauto|].
    exists b, a. split; [exact Hb2|]. by rewrite key_swap.
Qed.

Lemma sortBy_Permutation {A} (cmp : A -> A -> Res Q) l l' :
  Js.sortBy cmp l = Ok l' -> l' ≡ₚ l.
Proof.
  revert l'. induction l as [|x l IH]; intros l'; simpl.
  - by intros [= <-].
  - destruct (Js.sortBy cmp l) as [r|e]; simpl; [|discriminate].
    specialize (IH r eq_refl). rewrite <- IH. clear IH. revert l'.
    induction r as [|y r IHr]; intros l'; simpl.
    + by intros [= <-].
    + destruct (cmp x y) as [c|e]; simpl; [|discriminate].
      destruct (Qle_bool c 0); [by intros [= <-]|].
      destruct (Js.insertBy cmp x r) as [r'|e]; simpl; [|discriminate].
      intros [= <-]. rewrite (IHr r' eq_refl). apply Permutation_swap.
Qed.

(** The first loop of the call: every layer sorted by identifier, with its
    pair variables in the model. *)
Lemma perms_phase (layers : list (list Node)) :
  let ids := buildIds layers in
  exists h2,
    forM_ (indices layers) (perms ids)
          {| h_layers := layers; h_model := Some initModel |} = (Ok tt, h2)
    /\ is_Some (h_model h2)
    /\ Forall2 (fun l l' => Js.sortBy (comp ids) l = Ok l') layers (h_layers h2)
    /\ forall l' a b k, l' ∈ h_layers h2 -> apart l' a b ->
         key ids [a; b] = Ok k -> hasVar k h2.
Proof.
  intros ids.
  set (h1 := {| h_layers := layers; h_model := Some initModel |}).
  assert (Hids : forall layer n, layer ∈ layers -> n ∈ layer -> is_Some (ids !! n)).
  { intros layer n Hl Hn. by eapply buildIds_dom. }
  set (I := fun (i : nat) (h : Heap) =>
    length (h_layers h) = length layers /\ is_Some (h_model h)
    /\ (forall li, (i <= li)%nat -> h_layers h !! li = layers !! li)
    /\ forall li l, (li < i)%nat -> layers !! li = Some l ->
         exists l', h_layers h !! li = Some l'
           /\ Js.sortBy (comp ids) l = Ok l'
           /\ forall a b k, apart l' a b -> key ids [a; b] = Ok k -> hasVar k h).
  destruct (forM_seq_inv I (perms ids) 0 (length layers)) with (h := h1)
    as (h2 & Hrun2 & Hlen2 & Hm2 & _ & Hdone2).
  { intros i h [_ Hi] (Hlen & Hm & Hrest & Hdone).
    destruct (lookup_lt_is_Some_2 layers i) as [l0 Hl0]; [lia|].
    assert (Hlayer : h_layers h !! i = Some l0) by (rewrite Hrest by lia; done).
    destruct (perms_sorts ids i h l0 Hlayer)
      as (sorted & h' & Hrun & Hsort & Hl' & Hm' & Hmono & Hnew); [|exact Hm|].
    { intros n Hn. apply (Hids l0); [by eapply list_elem_of_lookup_2|done]. }
    exists h'. split; [exact Hrun|]. unfold I. rewrite Hl'.
    split; [by rewrite length_insert|]. split; [exact Hm'|]. split.
    - intros li Hli. rewrite list_lookup_insert_ne by lia. apply Hrest. lia.
    - intros li l Hli Hl. destruct (decide (li = i)) as [->|Hne].
      + rewrite list_lookup_insert_eq by lia. exists sorted.
        rewrite Hl0 in Hl. injection Hl as <-. by repeat split.
      + rewrite list_lookup_insert_ne by done.
        destruct (Hdone li l) as (l' & Hl1 & Hs1 & Hv1); [lia|exact Hl|].
        exists l'. repeat split; [exact Hl1|exact Hs1|].
        intros a b k Hab Hk. apply Hmono. by eapply Hv1. }
  { split; [reflexivity|]. split; [by eexists|]. split; [done|].
    intros li l Hli. lia. }
  simpl in Hdone2. exists h2. split; [exact Hrun2|]. split; [exact Hm2|]. split.
  - apply Forall2_same_length_lookup_2; [done|].
    intros i l l' Hl Hl'.
    destruct (Hdone2 i l) as (l1 & Hl1 & Hs1 & _);
      [by eapply lookup_lt_Some|exact Hl|].
    rewrite Hl' in Hl1. by injection Hl1 as ->.
  - intros l' a b k [i Hi]%list_elem_of_lookup_1 Hab Hk.
    destruct (lookup_lt_is_Some_2 layers i) as [l Hl].
    { rewrite <- Hlen2. by eapply lookup_lt_Some. }
    destruct (Hdone2 i l) as (l1 & Hl1 & _ & Hv); [by eapply lookup_lt_Some|exact Hl|].
    rewrite Hi in Hl1. injection Hl1 as <-. by eapply Hv.
Qed.

(** On a valid layering that passes the guard the construction returns
    normally with a model, each layer sorted by identifier. *)
Lemma optBuild_spec (ichildren : Node -> list Node) (options : OptOptions)
    (layers : list (list Node)) :
  valid_layering ichildren layers ->
  passes_guard options layers ->
  exists layers' model,
    optBuild ichildren options {| h_layers := layers; h_model := None |}
      = (Ok tt, {| h_layers := layers'; h_model := Some model |})
    /\ Forall2 (fun l l' => Js.sortBy (comp (buildIds layers)) l = Ok l')
               layers layers'.
Proof.
  intros Hvalid Hguard. unfold optBuild.
  rewrite bind_getLayers. cbv beta. cbn [h_layers].
  assert (Hg : negb (opt_clowntown options) && (2500 <? sizeOf layers)%Z = false).
  { destruct Hguard as [-> | Hle]; [reflexivity|].
    apply andb_false_iff. right. apply Z.ltb_ge. lia. }
  rewrite Hg, bind_putModel. cbv beta zeta. cbn [h_layers].
  set (ids := buildIds layers).
  assert (Hids : forall layer n, layer ∈ layers -> n ∈ layer -> is_Some (ids !! n)).
  { intros layer n Hl Hn. by eapply buildIds_dom. }
  destruct (perms_phase layers) as (h2 & Hrun2 & Hm2 & HF2 & Hvars2).
  fold ids in Hrun2, HF2, Hvars2.
  rewrite (bind_ok _ _ _ _ _ Hrun2).
  pose proof (Forall2_length _ _ _ HF2) as Hlen.
  set (J := fun (_ : nat) (h : Heap) =>
    h_layers h = h_layers h2 /\ is_Some (h_model h) /\
    forall k, hasVar k h2 -> hasVar k h).
  unfold indices at 1. rewrite slice_init, length_take.
  destruct (forM_seq_inv J (cross ichildren ids) 0
              ((length layers - 1) `min` length layers)) with (h := h2)
    as (h3 & Hrun3 & HL3 & Hm3 & Hvars3).
  { intros i h [_ Hi] (HL & Hm & Hmono).
    destruct (lookup_lt_is_Some_2 layers i) as [l0 Hl0]; [lia|].
    destruct (lookup_lt_is_Some_2 layers (S i)) as [n0 Hn0]; [lia|].
    destruct (Forall2_lookup_l _ _ _ i l0 HF2 Hl0) as (layer & Hlayer & Hsort).
    destruct (Forall2_lookup_l _ _ _ (S i) n0 HF2 Hn0) as (next & Hnext & Hsortn).
    pose proof (sortBy_Permutation _ _ _ Hsort) as Hperm.
    pose proof (sortBy_Permutation _ _ _ Hsortn) as Hpermn.
    assert (Hin : forall p c, p ∈ layer -> c ∈ ichildren p -> c ∈ n0).
    { intros p c Hp Hc. rewrite Hperm in Hp.
      destruct (Hvalid i l0 p c Hl0 Hp Hc) as (nx & Hnx & Hcn).
      rewrite Hn0 in Hnx. by inversion Hnx; subst. }
    destruct (cross_spec ichildren ids i h layer)
      as (h' & Hrun & Hl' & Hm' & Hmono').
    - by rewrite HL.
    - exact Hm.
    - intros n Hn. apply (Hids l0); [by eapply list_elem_of_lookup_2|].
      by rewrite <- Hperm.
    - intros p c Hp Hc. apply (Hids n0); [by eapply list_elem_of_lookup_2|].
      by eapply Hin.
    - intros a b k Hab Hk. apply Hmono.
      refine (Hvars2 layer a b k _ _ Hk); [by eapply list_elem_of_lookup_2|].
      destruct Hab as (x & y & Hxy & Hx & Hy). exists x, y.
      split; [lia|done].
    - intros p1 p2 c1 c2 k Hp1 Hp2 Hc1 Hc2 Hne Hk. apply Hmono.
      refine (Hvars2 next c1 c2 k _ _ Hk); [by eapply list_elem_of_lookup_2|].
      apply apart_distinct; [| |exact Hne]; rewrite Hpermn.
      + exact (Hin p1 c1 Hp1 Hc1).
      + exact (Hin p2 c2 Hp2 Hc2).
    - exists h'. split; [exact Hrun|]. split; [congruence|]. split; [exact Hm'|].
      intros k Hk. by apply Hmono', Hmono. }
  { by repeat split. }
  rewrite Hrun3. destruct h3 as [layers3 model3]. simpl in *.
  destruct Hm3 as [model ->]. subst layers3.
  by exists (h_layers h2), model.
Qed.

(** ** Layers of at most one node *)

Lemma heap_eta h : {| h_layers := h_layers h; h_model := h_model h |} = h.
Proof. by destruct h. Qed.

Lemma sortLayer_short li cmp h layer :
  h_layers h !! li = Some layer -> (length layer <= 1)%nat ->
  sortLayer li cmp h = (Ok tt, h).
Proof.
  intros Hli Hlen. unfold sortLayer.
  rewrite Hli, (sortBy_short _ _ Hlen), (list_insert_id _ _ _ Hli).
  by rewrite heap_eta.
Qed.

Lemma slice_init_short {A} (l : list A) :
  (length l <= 1)%nat -> Js.slice l 0 (Some (len l - 1)%Z) = [].
Proof. destruct l as [|x [|y l]]; [reflexivity..|simpl; lia]. Qed.

Lemma perms_short ids li h layer :
  h_layers h !! li = Some layer -> (length layer <= 1)%nat ->
  perms ids li h = (Ok tt, h).
Proof.
  intros Hli Hlen. unfold perms.
  rewrite (bind_ok _ _ _ _ _ (sortLayer_short li _ h layer Hli Hlen)).
  unfold bind, getLayer. rewrite Hli. simpl.
  unfold pairVariables, triangles. by rewrite (slice_init_short _ Hlen).
Qed.

Lemma cross_short ichildren ids li h layer :
  h_layers h !! li = Some layer -> (length layer <= 1)%nat ->
  cross ichildren ids li h = (Ok tt, h).
Proof.
  intros Hli Hlen. unfold cross, bind, getLayer. rewrite Hli. simpl.
  by rewrite (slice_init_short _ Hlen).
Qed.

(** X2. When no layer has more than one node, the call (past the guard)
    hands the solver the empty model and leaves the layers as they were,
    whatever the solver returns and whatever the edges are. *)
Theorem layers_of_one_node_stay
    (ichildren : Node -> list Node) (Solve : Model -> gmap string Q)
    (options : OptOptions) (layers : list (list Node)) :
  Forall (fun layer => (length layer <= 1)%nat) layers ->
  passes_guard options layers ->
  runOpt ichildren Solve options layers
  = (Ok tt, {| h_layers := layers; h_model := Some initModel |}).
Proof.
  intros Hshort Hguard. unfold runOpt, optCall.
  rewrite bind_getLayers. cbv beta. cbn [h_layers].
  assert (Hg : negb (opt_clowntown options) && (2500 <? sizeOf layers)%Z = false).
  { destruct Hguard as [-> | Hle]; [reflexivity|].
    apply andb_false_iff. right. apply Z.ltb_ge. lia. }
  rewrite Hg, bind_putModel. cbv beta zeta. cbn [h_layers].
  set (h1 := {| h_layers := layers; h_model := Some initModel |}).
  assert (Hat : forall li, (li < length layers)%nat ->
            exists layer, h_layers h1 !! li = Some layer /\ (length layer <= 1)%nat).
  { intros li Hli. destruct (lookup_lt_is_Some_2 layers li Hli) as [layer Hl].
    exists layer. split; [exact Hl|].
    by apply (Forall_lookup_1 _ _ _ _ Hshort Hl). }
  rewrite (bind_ok _ _ _ tt h1).
  2:{ apply forM_skip. intros li Hli. apply elem_of_seq in Hli.
      destruct (Hat li) as (layer & Hl & Hlen); [lia|]. by eapply perms_short. }
  rewrite (bind_ok _ _ _ tt h1).
  2:{ apply forM_skip. intros li Hli. apply elem_of_seq in Hli.
      pose proof (length_take_le layers (length layers - 1)).
      rewrite slice_init in Hli.
      destruct (Hat li) as (layer & Hl & Hlen); [lia|]. by eapply cross_short. }
  unfold bind at 1, getModel. simpl.
  apply forM_skip. intros li Hli. apply elem_of_seq in Hli.
  destruct (Hat li) as (layer & Hl & Hlen); [lia|]. by eapply sortLayer_short.
Qed.

Lemma layers_of_one_node_stay_witness :
  runOpt (fun n => [S n]) (fun _ => ∅) {| opt_clowntown := false |}
         [[0%nat]; [1%nat]; []; [2%nat]]
  = (Ok tt, {| h_layers := [[0%nat]; [1%nat]; []; [2%nat]];
               h_model := Some initModel |}).
Proof.
  apply (layers_of_one_node_stay (fun n => [S n]) (fun _ => ∅)
           {| opt_clowntown := false |} [[0%nat]; [1%nat]; []; [2%nat]]).
  - repeat constructor.
  - right. vm_compute. discriminate.
Defined.

(** ** Identifiers follow the positions *)

Lemma ascii_compare_refl (c : ascii) : Ascii.compare c c = Eq.
Proof.
  pose proof (Ascii.compare_antisym c c) as Hc.
  by destruct (Ascii.compare c c).
Qed.

Lemma compare_append (p a b : string) :
  String.compare (p +:+ a) (p +:+ b) = String.compare a b.
Proof.
  induction p as [|c p IH]; simpl; [reflexivity|].
  by rewrite ascii_compare_refl.
Qed.

Lemma idString_lt (i j j' : nat) :
  (j < j')%nat -> (j' < 10)%nat ->
  String.compare (idString i j) (idString i j') = Lt.
Proof.
  intros Hlt Hj'. unfold idString.
  rewrite 3!compare_append.
  do 10 (destruct j' as [|j'];
    [do 10 (destruct j as [|j]; [first [reflexivity | lia]|]); lia|]).
  lia.
Qed.

Lemma entries_snd {A} (l : list A) : (Js.entries l).*2 = l.
Proof.
  unfold Js.entries. rewrite fmap_imap.
  change (fun n : nat => snd ∘ (fun x : A => (n, x))) with (@const (A -> A) nat id).
  by rewrite imap_const, list_fmap_id.
Qed.

Lemma ids_fold_lookup (g : nat -> string) (ps : list (nat * Node)) :
  forall (ids : gmap Node string) n,
  let ids' := foldl (fun ids '(j, node) => <[node := g j]> ids) ids ps in
  (n ∉ ps.*2 -> ids' !! n = ids !! n)
  /\ (NoDup ps.*2 -> forall j, (j, n) ∈ ps -> ids' !! n = Some (g j)).
Proof.
  induction ps as [|[j0 node] ps IH]; intros ids n; simpl.
  - split; [done|]. intros _ j Hj. by apply elem_of_nil in Hj.
  - destruct (IH (<[node := g j0]> ids) n) as [Hout Hin]. split.
    + intros Hn. apply not_elem_of_cons in Hn as [Hne Hn].
      rewrite (Hout Hn). by rewrite lookup_insert_ne.
    + intros [Hnode Hnd]%NoDup_cons j Hj.
      apply elem_of_cons in Hj as [Heq|Hj].
      * injection Heq as -> ->. rewrite (Hout Hnode). by rewrite lookup_insert_eq.
      * by apply Hin.
Qed.

Lemma buildIds_fold_lookup (ls : list (nat * list Node)) :
  forall (ids : gmap Node string) n,
  let ids' :=
    foldl (fun ids '(i, layer) =>
             foldl (fun ids '(j, node) => <[node := idString i j]> ids)
                   ids (Js.entries layer)) ids ls in
  (n ∉ concat ls.*2 -> ids' !! n = ids !! n)
  /\ (NoDup (concat ls.*2) -> forall i layer j,
        (i, layer) ∈ ls -> layer !! j = Some n -> ids' !! n = Some (idString i j)).
Proof.
  induction ls as [|[i0 layer0] ls IH]; intros ids n; simpl.
  - split; [done|]. intros _ i layer j Hl. by apply elem_of_nil in Hl.
  - destruct (ids_fold_lookup (idString i0) (Js.entries layer0) ids n) as [Hout1 Hin1].
    rewrite entries_snd in Hout1, Hin1.
    match goal with
    | |- context [foldl _ ?ids1 ls] => destruct (IH ids1 n) as [Hout Hin]
    end.
    split.
    + intros Hn. apply not_elem_of_app in Hn as [Hn0 Hn].
      by rewrite (Hout Hn), (Hout1 Hn0).
    + intros (Hnd0 & Hdisj & Hnd)%NoDup_app i layer j Hl Hj.
      apply elem_of_cons in Hl as [Heq|Hl].
      * injection Heq as -> ->.
        assert (Hn0 : n ∈ layer0) by (by eapply list_elem_of_lookup_2).
        rewrite (Hout (Hdisj n Hn0)). apply (Hin1 Hnd0). by apply entries_lookup.
      * by eapply Hin.
Qed.

(** When no node stands twice in the layers, the identifier of a node
    tells its layer and its position. *)
Lemma buildIds_lookup (layers : list (list Node)) i layer j n :
  NoDup (concat layers) -> layers !! i = Some layer -> layer !! j = Some n ->
  buildIds layers !! n = Some (idString i j).
Proof.
  intros Hnd Hi Hj. unfold buildIds.
  destruct (buildIds_fold_lookup (Js.entries layers) ∅ n) as [_ Hin].
  rewrite entries_snd in Hin. apply (Hin Hnd i layer j); [|exact Hj].
  by apply entries_lookup.
Qed.

(** ** Sorting what is in order, or in reverse order *)

Lemma sortBy_in_order {A} (cmp : A -> A -> Res Q) (l : list A) :
  (forall i j x y, (i < j)%nat -> l !! i = Some x -> l !! j = Some y ->
     exists c, cmp x y = Ok c /\ Qle_bool c 0 = true) ->
  Js.sortBy cmp l = Ok l.
Proof.
  induction l as [|x l IH]; intros Hc; simpl; [reflexivity|].
  rewrite IH by (intros i j a b Hij Ha Hb; apply (Hc (S i) (S j)); [lia|done..]).
  simpl. destruct l as [|y l]; simpl; [reflexivity|].
  destruct (Hc 0%nat 1%nat x y) as (c & Hcmp & Hle); [lia|reflexivity..|].
  rewrite Hcmp. simpl. by rewrite Hle.
Qed.

Lemma insertBy_last {A} (cmp : A -> A -> Res Q) (x : A) (l : list A) :
  (forall y, y ∈ l -> exists c, cmp x y = Ok c /\ Qle_bool c 0 = false) ->
  Js.insertBy cmp x l = Ok (l ++ [x]).
Proof.
  induction l as [|y l IH]; intros Hc; simpl; [reflexivity|].
  destruct (Hc y) as (c & Hcmp & Hle); [by left|].
  rewrite Hcmp. simpl. rewrite Hle.
  rewrite IH by (intros z Hz; apply Hc; by right). reflexivity.
Qed.

Lemma sortBy_in_reverse {A} (cmp : A -> A -> Res Q) (l : list A) :
  (forall i j x y, (i < j)%nat -> l !! i = Some x -> l !! j = Some y ->
     exists c, cmp x y = Ok c /\ Qle_bool c 0 = false) ->
  Js.sortBy cmp l = Ok (reverse l).
Proof.
  induction l as [|x l IH]; intros Hc; simpl; [reflexivity|].
  rewrite IH by (intros i j a b Hij Ha Hb; apply (Hc (S i) (S j)); [lia|done..]).
  simpl. rewrite reverse_cons. apply insertBy_last.
  intros y Hy. rewrite elem_of_reverse in Hy.
  apply list_elem_of_lookup_1 in Hy as [j Hj].
  apply (Hc 0%nat (S j)); [lia|reflexivity|exact Hj].
Qed.

(** ** The final sort under a solver result of one sign *)

(** Sorting every layer, when the sort of a layer [l] gives [f l]. *)
Lemma sortLayers_fmap (cmp : Node -> Node -> Res Q) (f : list Node -> list Node)
    (layers : list (list Node)) (m : option Model) :
  (forall l, l ∈ layers -> Js.sortBy cmp l = Ok (f l)) ->
  forM_ (indices layers) (fun li => sortLayer li cmp)
        {| h_layers := layers; h_model := m |}
  = (Ok tt, {| h_layers := f <$> layers; h_model := m |}).
Proof.
  intros Hsort.
  set (I := fun (i : nat) (h : Heap) =>
    h_model h = m /\ length (h_layers h) = length layers
    /\ forall li l, layers !! li = Some l ->
         h_layers h !! li = Some (if decide (li < i)%nat then f l else l)).
  destruct (forM_seq_inv I (fun li => sortLayer li cmp) 0 (length layers))
    with (h := {| h_layers := layers; h_model := m |})
    as (h' & Hrun & Hm & Hlen & Hall).
  - intros i h [_ Hi] (Hm & Hlen & Hall).
    destruct (lookup_lt_is_Some_2 layers i) as [l Hl]; [lia|].
    pose proof (Hall i l Hl) as Hli.
    rewrite decide_False in Hli by lia.
    unfold sortLayer. rewrite Hli, (Hsort l) by (by eapply list_elem_of_lookup_2).
    eexists. split; [reflexivity|]. unfold I. cbn [h_layers h_model].
    split; [exact Hm|]. split; [by rewrite length_insert|].
    intros li l' Hl'. destruct (decide (li = i)) as [->|Hne].
    + rewrite list_lookup_insert_eq by lia. rewrite decide_True by lia.
      rewrite Hl in Hl'. by injection Hl' as ->.
    + rewrite list_lookup_insert_ne by done. rewrite (Hall li l' Hl').
      destruct (decide (li < i)%nat), (decide (li < S i)%nat); try lia; done.
  - split; [reflexivity|]. split; [reflexivity|]. intros li l Hl.
    cbn [h_layers]. rewrite Hl. by destruct (decide (li < 0)%nat); [lia|].
  - unfold indices. rewrite Hrun. f_equal. destruct h' as [ls m']. simpl in *.
    subst m'. f_equal. apply list_eq. intros li. rewrite list_lookup_fmap.
    destruct (layers !! li) as [l|] eqn:Hl; simpl.
    + rewrite (Hall li l Hl). rewrite decide_True; [done|].
      by eapply lookup_lt_Some.
    + apply lookup_ge_None. apply lookup_ge_None in Hl. lia.
Qed.

Section ByPosition.

Variable layers : list (list Node).
Hypothesis Hnodup : NoDup (concat layers).
Hypothesis Hsmall : Forall (fun layer => (length layer <= 10)%nat) layers.

Lemma comp_by_position i layer j j' x y :
  layers !! i = Some layer -> (j < j')%nat ->
  layer !! j = Some x -> layer !! j' = Some y ->
  comp (buildIds layers) x y = Ok (-1)%Q.
Proof.
  intros Hi Hjj Hx Hy. unfold comp.
  rewrite (buildIds_lookup layers i layer j x Hnodup Hi Hx).
  rewrite (buildIds_lookup layers i layer j' y Hnodup Hi Hy). simpl.
  unfold Js.localeCompare. rewrite idString_lt; [reflexivity|exact Hjj|].
  pose proof (Forall_lookup_1 _ _ _ _ Hsmall Hi) as Hlen. simpl in Hlen.
  apply lookup_lt_Some in Hy. lia.
Qed.

(** [perms] leaves a layer of at most ten nodes in its order. *)
Lemma sort_by_id_stays layer :
  layer ∈ layers -> Js.sortBy (comp (buildIds layers)) layer = Ok layer.
Proof.
  intros [i Hi]%list_elem_of_lookup_1. apply sortBy_in_order.
  intros j j' x y Hjj Hx Hy. exists (-1)%Q. split; [|reflexivity].
  by eapply comp_by_position.
Qed.

Lemma finalComp_by_position (o : gmap string Q) i layer j j' x y :
  layers !! i = Some layer -> (j < j')%nat ->
  layer !! j = Some x -> layer !! j' = Some y ->
  exists k, key (buildIds layers) [x; y] = Ok k
    /\ x <> y
    /\ finalComp (buildIds layers) o x y = Ok (-1 * directionOf (valueOf o k))%Q.
Proof.
  intros Hi Hjj Hx Hy.
  assert (Hl : layer ∈ layers) by (by eapply list_elem_of_lookup_2).
  destruct (key_pair_ok (buildIds layers) layer x y) as [k Hk].
  { intros n Hn. by eapply buildIds_dom. }
  { by eapply list_elem_of_lookup_2. }
  { by eapply list_elem_of_lookup_2. }
  exists k. split; [exact Hk|]. split.
  - intros ->.
    assert (Hnd : NoDup layer).
    { apply list_elem_of_lookup_1 in Hl as [i' Hi'].
      rewrite <- (take_drop_middle _ _ _ Hi') in Hnodup.
      rewrite concat_app, concat_cons in Hnodup.
      apply NoDup_app in Hnodup as (_ & _ & Hnd).
      by apply NoDup_app in Hnd as (Hnd & _). }
    pose proof (NoDup_lookup _ _ _ _ Hnd Hx Hy). lia.
  - unfold finalComp.
    rewrite (comp_by_position i layer j j' x y Hi Hjj Hx Hy), Hk. simpl.
    by rewrite orElse_directionOf.
Qed.

End ByPosition.

Lemma optBuild_keeps_order (ichildren : Node -> list Node) (options : OptOptions)
    (layers : list (list Node)) :
  valid_layering ichildren layers -> passes_guard options layers ->
  NoDup (concat layers) ->
  Forall (fun layer => (length layer <= 10)%nat) layers ->
  exists model,
    optBuild ichildren options {| h_layers := layers; h_model := None |}
    = (Ok tt, {| h_layers := layers; h_model := Some model |}).
Proof.
  intros Hvalid Hguard Hnodup Hsmall.
  destruct (optBuild_spec ichildren options layers Hvalid Hguard)
    as (layers' & model & Hrun & HF).
  exists model. rewrite Hrun. do 2 f_equal.
  apply list_eq. intros i. destruct (layers !! i) as [l|] eqn:Hl.
  - destruct (Forall2_lookup_l _ _ _ i l HF Hl) as (l' & Hl' & Hsort).
    rewrite (sort_by_id_stays layers Hnodup Hsmall l) in Hsort
      by (by eapply list_elem_of_lookup_2).
    rewrite Hl'. by injection Hsort as ->.
  - apply lookup_ge_None. apply lookup_ge_None in Hl.
    rewrite <- (Forall2_length _ _ _ HF). exact Hl.
Qed.

(** X3. On a valid layering without repeated node and with at most ten nodes
    in a layer, a solver result that is positive at every pair variable makes
    the call return the layers in the order they were given. *)
Theorem positive_pairs_keep_the_order
    (ichildren : Node -> list Node) (Solve : Model -> gmap string Q)
    (options : OptOptions) (layers : list (list Node)) :
  valid_layering ichildren layers -> passes_guard options layers ->
  NoDup (concat layers) ->
  Forall (fun layer => (length layer <= 10)%nat) layers ->
  (forall m layer a b k, layer ∈ layers -> a ∈ layer -> b ∈ layer -> a <> b ->
     key (buildIds layers) [a; b] = Ok k -> (0 < valueOf (Solve m) k)%Q) ->
  exists model,
    runOpt ichildren Solve options layers
    = (Ok tt, {| h_layers := layers; h_model := Some model |}).
Proof.
  intros Hvalid Hguard Hnodup Hsmall Hpos.
  destruct (optBuild_keeps_order ichildren options layers Hvalid Hguard Hnodup Hsmall)
    as [model Hbuild].
  exists model. unfold runOpt. rewrite optCall_split, Hbuild. cbn [h_model h_layers].
  rewrite (sortLayers_fmap _ (fun l => l)); [by rewrite list_fmap_id|].
  intros l Hl. pose proof Hl as [i Hi]%list_elem_of_lookup_1.
  apply sortBy_in_order. intros j j' x y Hjj Hx Hy.
  destruct (finalComp_by_position layers Hnodup Hsmall (Solve model)
              i l j j' x y Hi Hjj Hx Hy) as (k & Hk & Hne & ->).
  eexists. split; [reflexivity|]. apply Qle_bool_iff.
  assert (0 < valueOf (Solve model) k)%Q as Hv.
  { apply (Hpos model l x y k Hl); [by eapply list_elem_of_lookup_2..|done|done]. }
  destruct (directionOf_sign (valueOf (Solve model) k)) as [Hp _].
  specialize (Hp Hv). lra.
Qed.

(** X4. Under the same conditions a solver result that is positive at no pair
    variable (an empty result, say) makes the call return every layer
    reversed. *)
Theorem no_positive_pair_reverses_the_layers
    (ichildren : Node -> list Node) (Solve : Model -> gmap string Q)
    (options : OptOptions) (layers : list (list Node)) :
  valid_layering ichildren layers -> passes_guard options layers ->
  NoDup (concat layers) ->
  Forall (fun layer => (length layer <= 10)%nat) layers ->
  (forall m layer a b k, layer ∈ layers -> a ∈ layer -> b ∈ layer -> a <> b ->
     key (buildIds layers) [a; b] = Ok k -> ~ (0 < valueOf (Solve m) k)%Q) ->
  exists model,
    runOpt ichildren Solve options layers
    = (Ok tt, {| h_layers := reverse <$> layers; h_model := Some model |}).
Proof.
  intros Hvalid Hguard Hnodup Hsmall Hneg.
  destruct (optBuild_keeps_order ichildren options layers Hvalid Hguard Hnodup Hsmall)
    as [model Hbuild].
  exists model. unfold runOpt. rewrite optCall_split, Hbuild. cbn [h_model h_layers].
  apply sortLayers_fmap.
  intros l Hl. pose proof Hl as [i Hi]%list_elem_of_lookup_1.
  apply sortBy_in_reverse. intros j j' x y Hjj Hx Hy.
  destruct (finalComp_by_position layers Hnodup Hsmall (Solve model)
              i l j j' x y Hi Hjj Hx Hy) as (k & Hk & Hne & ->).
  eexists. split; [reflexivity|].
  assert (~ (0 < valueOf (Solve model) k)%Q) as Hv.
  { apply (Hneg model l x y k Hl); [by eapply list_elem_of_lookup_2..|done|done]. }
  destruct (directionOf_sign (valueOf (Solve model) k)) as [_ Hn].
  specialize (Hn Hv).
  destruct (Qle_bool (-1 * directionOf (valueOf (Solve model) k)) 0) eqn:Hb;
    [|reflexivity].
  apply Qle_bool_iff in Hb. lra.
Qed.

Definition onesOrdering : gmap string Q :=
  list_to_map [("(0 0) => (0 1)", 1%Q); ("(1 0) => (1 1)", 1%Q)].

Lemma crossedLayers_nodup : NoDup (concat crossedLayers).
Proof. apply (bool_decide_unpack _). vm_compute. exact I. Qed.

Lemma crossedLayers_small :
  Forall (fun layer => (length layer <= 10)%nat) crossedLayers.
Proof. repeat constructor; simpl; lia. Qed.

Lemma positive_pairs_keep_the_order_witness :
  exists model,
    runOpt crossedChildren (fun _ => onesOrdering) {| opt_clowntown := false |}
           crossedLayers
    = (Ok tt, {| h_layers := crossedLayers; h_model := Some model |}).
Proof.
  apply (positive_pairs_keep_the_order crossedChildren (fun _ => onesOrdering)
           {| opt_clowntown := false |} crossedLayers).
  - exact crossedLayers_valid.
  - right. vm_compute. discriminate.
  - exact crossedLayers_nodup.
  - exact crossedLayers_small.
  - intros _ layer a b k Hl Ha Hb Hne Hk. unfold crossedLayers in Hl.
    repeat (apply elem_of_cons in Hl as [->|Hl]); [| |by apply elem_of_nil in Hl].
    all: repeat (apply elem_of_cons in Ha as [->|Ha]); try (by apply elem_of_nil in Ha).
    all: repeat (apply elem_of_cons in Hb as [->|Hb]);
      try (by apply elem_of_nil in Hb); try done.
    all: vm_compute in Hk; injection Hk as <-; vm_compute; reflexivity.
Defined.

Lemma no_positive_pair_reverses_the_layers_witness :
  exists model,
    runOpt crossedChildren (fun _ => ∅) {| opt_clowntown := false |} crossedLayers
    = (Ok tt, {| h_layers := reverse <$> crossedLayers; h_model := Some model |}).
Proof.
  apply (no_positive_pair_reverses_the_layers crossedChildren (fun _ => ∅)
           {| opt_clowntown := false |} crossedLayers).
  - exact crossedLayers_valid.
  - right. vm_compute. discriminate.
  - exact crossedLayers_nodup.
  - exact crossedLayers_small.
  - intros _ layer a b k _ _ _ _ _. unfold valueOf. rewrite lookup_empty.
    simpl. intros Hlt. by apply Qlt_irrefl in Hlt.
Defined.

(** ** Keys do not depend on the order of the nodes *)

(** The code unit order on strings. *)
Definition string_le (a b : string) : Prop := String.compare a b <> Gt.

Lemma ascii_compare_lt a b : Ascii.compare a b = Lt <-> (N_of_ascii a < N_of_ascii b)%N.
Proof. unfold Ascii.compare. apply N.compare_lt_iff. Qed.

Lemma ascii_compare_gt a b : Ascii.compare a b = Gt <-> (N_of_ascii b < N_of_ascii a)%N.
Proof. unfold Ascii.compare. apply N.compare_gt_iff. Qed.

Lemma string_le_trans : Transitive string_le.
Proof.
  unfold string_le. intros a. induction a as [|c1 a IH]; intros [|c2 b] [|c3 c];
    simpl; try done.
  destruct (Ascii.compare c1 c2) eqn:E12; [| |done].
  - apply Ascii.compare_eq_iff in E12 as ->.
    destruct (Ascii.compare c2 c3) eqn:E23; [|done..]. apply IH.
  - intros _.
    destruct (Ascii.compare c2 c3) eqn:E23; [| |done]; intros _.
    + apply Ascii.compare_eq_iff in E23 as <-. by rewrite E12.
    + apply ascii_compare_lt in E12. apply ascii_compare_lt in E23.
      assert (Ascii.compare c1 c3 = Lt) as ->; [|done].
      apply ascii_compare_lt. by eapply N.lt_trans.
Qed.

Lemma string_le_antisym : AntiSymm eq string_le.
Proof.
  unfold string_le. intros a b Hab Hba.
  rewrite String.compare_antisym in Hba.
  destruct (String.compare a b) eqn:E; [|done..].
  by apply String.compare_eq_iff.
Qed.

Lemma string_le_total a b : string_le a b \/ string_le b a.
Proof.
  unfold string_le. rewrite (String.compare_antisym a b).
  destruct (String.compare b a); simpl; auto.
Qed.

Lemma insertString_perm x l : Js.insertString x l ≡ₚ x :: l.
Proof.
  induction l as [|y l IH]; simpl; [done|].
  destruct (String.compare x y); try done.
  rewrite IH. apply Permutation_swap.
Qed.

Lemma sortStrings_perm l : Js.sortStrings l ≡ₚ l.
Proof.
  induction l as [|x l IH]; simpl; [done|].
  unfold Js.sortStrings in *. simpl. by rewrite insertString_perm, IH.
Qed.

Lemma insertString_sorted x l :
  Sorted string_le l -> Sorted string_le (Js.insertString x l).
Proof.
  induction l as [|y l IH]; intros Hs; simpl.
  - by repeat constructor.
  - apply Sorted_inv in Hs as [Hs Hhd].
    destruct (String.compare x y) eqn:E.
    + constructor; [by constructor|]. constructor. unfold string_le. by rewrite E.
    + constructor; [by constructor|]. constructor. unfold string_le. by rewrite E.
    + constructor; [by apply IH|].
      assert (Hyx : string_le y x).
      { unfold string_le. rewrite String.compare_antisym, E. done. }
      destruct l as [|z l]; simpl.
      * by constructor.
      * apply HdRel_inv in Hhd. destruct (String.compare x z); by constructor.
Qed.

Lemma sortStrings_sorted l : Sorted string_le (Js.sortStrings l).
Proof.
  induction l as [|x l IH]; [constructor|].
  unfold Js.sortStrings in *. simpl. by apply insertString_sorted.
Qed.

Lemma sortStrings_Permutation l l' :
  l ≡ₚ l' -> Js.sortStrings l = Js.sortStrings l'.
Proof.
  intros Hp.
  apply (@Sorted_unique _ string_le string_le_trans string_le_antisym);
    [apply sortStrings_sorted..|].
  by rewrite !sortStrings_perm.
Qed.

Lemma ids_Permutation (ids : gmap Node string) (l l' : list Node) :
  l ≡ₚ l' ->
  (exists strs strs',
      res_map (fun n => def (ids !! n)) l = Ok strs
      /\ res_map (fun n => def (ids !! n)) l' = Ok strs' /\ strs ≡ₚ strs')
  \/ (res_map (fun n => def (ids !! n)) l = Err UndefinedError
      /\ res_map (fun n => def (ids !! n)) l' = Err UndefinedError).
Proof.
  induction 1 as [|x l l' Hp IH|x y l|l l' l'' Hp1 IH1 Hp2 IH2]; simpl.
  - left. by exists [], [].
  - destruct (ids !! x) as [s|]; simpl; [|by right].
    destruct IH as [(strs & strs' & -> & -> & Hs)|[-> ->]]; simpl; [|by right].
    left. exists (s :: strs), (s :: strs'). repeat split. by apply Permutation_skip.
  - destruct (ids !! x) as [s|], (ids !! y) as [t|]; simpl; try (by right).
    destruct (res_map _ l) as [strs|e] eqn:Hl; simpl.
    + left. exists (t :: s :: strs), (s :: t :: strs).
      repeat split; apply Permutation_swap.
    + right. assert (e = UndefinedError) as ->; [|done].
      clear -Hl. revert e Hl. induction l as [|z l IHl]; simpl; [done|].
      intros e. destruct (ids !! z); simpl; [|by intros [= <-]].
      destruct (res_map _ l); simpl; [done|]. intros [= <-]. by apply IHl.
  - destruct IH1 as [(s1 & s2 & H1 & H2 & Hs12)|[H1 H2]],
      IH2 as [(s2' & s3 & H2' & H3 & Hs23)|[H2' H3]].
    + left. exists s1, s3. repeat split; [done..|].
      rewrite H2 in H2'. injection H2' as <-. by rewrite Hs12.
    + rewrite H2 in H2'. discriminate.
    + rewrite H2 in H2'. discriminate.
    + by right.
Qed.

(** X5. The key of a list of nodes does not depend on the order in which the
    nodes are given, and neither does the exception when a node has no
    identifier. *)
Theorem key_does_not_depend_on_order
    (ids : gmap Node string) (nodes nodes' : list Node) :
  nodes ≡ₚ nodes' -> key ids nodes = key ids nodes'.
Proof.
  intros Hp. unfold key.
  destruct (ids_Permutation ids nodes nodes' Hp)
    as [(strs & strs' & -> & -> & Hs)|[-> ->]]; simpl; [|reflexivity].
  by rewrite (sortStrings_Permutation strs strs' Hs).
Qed.

Lemma key_does_not_depend_on_order_witness :
  [0; 1; 2]%nat ≡ₚ [2; 0; 1]%nat
  /\ key (buildIds [[0; 1; 2]%nat]) [0; 1; 2]%nat
     = key (buildIds [[0; 1; 2]%nat]) [2; 0; 1]%nat.
Proof.
  assert (Hp : [0; 1; 2]%nat ≡ₚ [2; 0; 1]%nat) by solve_Permutation.
  split; [exact Hp|].
  apply (key_does_not_depend_on_order (buildIds [[0; 1; 2]%nat]) _ _ Hp).
Defined.

(** ** A child outside the layers *)

Lemma bind_ok_inv {A B} (m : M A) (f : A -> M B) h b h' :
  bind m f h = (Ok b, h') -> exists a h1, m h = (Ok a, h1) /\ f a h1 = (Ok b, h').
Proof.
  unfold bind. destruct (m h) as [[a|e] h1]; [|discriminate]. by exists a, h1.
Qed.

(** A loop that returns normally has run its body normally on every
    element, on heaps that satisfy what the body preserves. *)
Lemma forM_ok_inv {A} (P : Heap -> Prop) (f : A -> M unit) (l : list A) :
  (forall x h h', f x h = (Ok tt, h') -> P h -> P h') ->
  forall h h', P h -> forM_ l f h = (Ok tt, h') ->
  forall x, x ∈ l -> exists h1 h2, P h1 /\ f x h1 = (Ok tt, h2).
Proof.
  intros Hf. induction l as [|y l IH]; intros h h' Hh Hrun x Hx;
    [by apply elem_of_nil in Hx|].
  simpl in Hrun. apply bind_ok_inv in Hrun as ([] & h1 & Hy & Hrest).
  apply elem_of_cons in Hx as [->|Hx]; [by exists h, h1|].
  apply (IH h1 h'); [by eapply Hf|done..].
Qed.

Lemma ids_fold_dom_inv (g : nat -> string) (ps : list (nat * Node))
    (ids : gmap Node string) n :
  is_Some (foldl (fun ids '(j, node) => <[node := g j]> ids) ids ps !! n) ->
  is_Some (ids !! n) \/ n ∈ ps.*2.
Proof.
  revert ids. induction ps as [|[j node] ps IH]; intros ids; simpl; [by left|].
  intros Hn. destruct (IH _ Hn) as [Hin|Hin]; [|right; by right].
  destruct (decide (node = n)) as [->|Hne]; [right; by left|].
  left. by rewrite lookup_insert_ne in Hin.
Qed.

Lemma buildIds_fold_dom_inv (ls : list (nat * list Node)) (ids : gmap Node string) n :
  is_Some (foldl (fun ids '(i, layer) =>
             foldl (fun ids '(j, node) => <[node := idString i j]> ids)
                   ids (Js.entries layer)) ids ls !! n) ->
  is_Some (ids !! n) \/ exists layer, layer ∈ ls.*2 /\ n ∈ layer.
Proof.
  revert ids. induction ls as [|[i layer] ls IH]; intros ids; simpl; [by left|].
  intros Hn. destruct (IH _ Hn) as [Hin|(l & Hl & Hnl)].
  - destruct (ids_fold_dom_inv _ _ _ _ Hin) as [Hids|Hlayer]; [by left|].
    right. exists layer. split; [by left|].
    unfold Js.entries in Hlayer. rewrite fmap_imap in Hlayer.
    change (fun n0 : nat => snd ∘ (fun x : nat => (n0, x)))
      with (@const (nat -> nat) nat id) in Hlayer.
    by rewrite imap_const, list_fmap_id in Hlayer.
  - right. exists l. split; [by right|done].
Qed.

(** Only the nodes of the layers have an identifier. *)
Lemma buildIds_dom_inv (layers : list (list Node)) n :
  is_Some (buildIds layers !! n) -> exists layer, layer ∈ layers /\ n ∈ layer.
Proof.
  intros Hn. destruct (buildIds_fold_dom_inv _ _ _ Hn) as [Hin|(l & Hl & Hnl)].
  - rewrite lookup_empty in Hin. by destruct Hin.
  - exists l. split; [|done]. unfold Js.entries in Hl. rewrite fmap_imap in Hl.
    change (fun n0 : nat => snd ∘ (fun x : list nat => (n0, x)))
      with (@const (list nat -> list nat) nat id) in Hl.
    by rewrite imap_const, list_fmap_id in Hl.
Qed.

Lemma key_missing ids (nodes : list Node) n :
  n ∈ nodes -> ids !! n = None -> key ids nodes = Err UndefinedError.
Proof.
  intros Hn Hnone. unfold key.
  assert (res_map (fun n => def (ids !! n)) nodes = Err UndefinedError) as ->;
    [|reflexivity].
  induction nodes as [|x nodes IH]; [by apply elem_of_nil in Hn|]. simpl.
  destruct (ids !! x) as [s|] eqn:Hx; simpl; [|reflexivity].
  apply elem_of_cons in Hn as [->|Hn]; [congruence|]. by rewrite IH.
Qed.

(** [cross] leaves the layers alone, whether it returns or raises. *)
Definition keeps_layers {A} (m : M A) : Prop :=
  forall h, h_layers (m h).2 = h_layers h.

Lemma keeps_layers_bind {A B} (m : M A) (f : A -> M B) :
  keeps_layers m -> (forall a, keeps_layers (f a)) -> keeps_layers (bind m f).
Proof.
  intros Hm Hf h. unfold bind. specialize (Hm h).
  destruct (m h) as [[a|e] h1]; simpl in *; [|exact Hm].
  by rewrite (Hf a h1).
Qed.

Lemma keeps_layers_forM {A} (l : list A) (f : A -> M unit) :
  (forall x, keeps_layers (f x)) -> keeps_layers (forM_ l f).
Proof.
  intros Hf. induction l as [|x l IH]; [done|].
  simpl. apply keeps_layers_bind; [apply Hf|by intros _].
Qed.

Lemma keeps_layers_lift {A} (r : Res A) : keeps_layers (lift r).
Proof. done. Qed.

Lemma keeps_layers_ret {A} (a : A) : keeps_layers (ret a).
Proof. done. Qed.

Lemma keeps_layers_getLayer li : keeps_layers (getLayer li).
Proof. done. Qed.

Lemma keeps_layers_setVariable k c : keeps_layers (setVariable k c).
Proof. intros h. unfold setVariable, bind, getModel. by destruct (h_model h). Qed.

Lemma keeps_layers_setConstraint k b : keeps_layers (setConstraint k b).
Proof. intros h. unfold setConstraint, bind, getModel. by destruct (h_model h). Qed.

Lemma keeps_layers_setCoef k c v : keeps_layers (setCoef k c v).
Proof.
  intros h. unfold setCoef, bind, getModel. destruct (h_model h) as [m|]; [|done].
  simpl. by destruct (variables m !! k).
Qed.

Lemma keeps_layers_cross ichildren ids li : keeps_layers (cross ichildren ids li).
Proof.
  unfold cross.
  repeat first
    [ apply keeps_layers_getLayer | apply keeps_layers_lift | apply keeps_layers_ret
    | apply keeps_layers_setVariable | apply keeps_layers_setConstraint
    | apply keeps_layers_setCoef
    | apply keeps_layers_forM; intros ?
    | match goal with |- keeps_layers (let '(_, _) := ?p in _) => destruct p end
    | match goal with |- keeps_layers (if ?b then _ else _) => destruct b end
    | apply keeps_layers_bind; [|intros ?] ].
Qed.

(** X6. The call does not check its input, but it cannot build the crossing
    terms of a child that stands in no layer.  When a layer other than the
    last holds two nodes with two different children, one of which is in no
    layer, the call raises an exception while it builds the model: the
    solver is not consulted. *)
Theorem child_outside_the_layers_raises
    (ichildren : Node -> list Node) (Solve : Model -> gmap string Q)
    (options : OptOptions) (layers : list (list Node))
    (li : nat) (layer : list Node) (p1 p2 c1 c2 : Node) :
  layers !! li = Some layer -> (S li < length layers)%nat ->
  p1 ∈ layer -> p2 ∈ layer -> p1 <> p2 ->
  c1 ∈ ichildren p1 -> c2 ∈ ichildren p2 -> c1 <> c2 ->
  (forall l, l ∈ layers -> c1 ∉ l) ->
  exists e h',
    optBuild ichildren options {| h_layers := layers; h_model := None |} = (Err e, h')
    /\ runOpt ichildren Solve options layers = (Err e, h').
Proof.
  intros Hli Hlast Hp1 Hp2 Hp Hc1 Hc2 Hc Hout.
  unfold runOpt. rewrite optCall_split.
  destruct (optBuild ichildren options _) as [[[]|e] h'] eqn:Hbuild;
    [exfalso|by exists e, h'].
  unfold optBuild in Hbuild. rewrite bind_getLayers in Hbuild.
  cbv beta in Hbuild. cbn [h_layers] in Hbuild.
  destruct (negb (opt_clowntown options) && (2500 <? sizeOf layers)%Z);
    [discriminate|].
  rewrite bind_putModel in Hbuild. cbv beta zeta in Hbuild. cbn [h_layers] in Hbuild.
  set (ids := buildIds layers) in *.
  apply bind_ok_inv in Hbuild as ([] & h2 & Hperms & Hcross).
  destruct (perms_phase layers) as (h2' & Hrun2 & _ & HF2 & _).
  fold ids in Hrun2, HF2. rewrite Hperms in Hrun2. injection Hrun2 as <-.
  destruct (Forall2_lookup_l _ _ _ li layer HF2 Hli) as (sorted & Hsorted & Hsort).
  pose proof (sortBy_Permutation _ _ _ Hsort) as Hperm.
  assert (Hnone : ids !! c1 = None).
  { destruct (ids !! c1) as [s|] eqn:Hs; [|reflexivity].
    destruct (buildIds_dom_inv layers c1) as (l & Hl & Hcl); [by eexists|].
    destruct (Hout l Hl Hcl). }
  (* the round of [cross] for the layer *)
  destruct (forM_ok_inv (fun h => h_layers h = h_layers h2)
              (cross ichildren ids) _
              ltac:(intros x h h1 Hx Hh;
                    rewrite <- Hh, <- (keeps_layers_cross ichildren ids x h);
                    by rewrite Hx)
              h2 h' eq_refl Hcross li)
    as (h3 & h4 & Hh3 & Hround).
  { unfold indices. rewrite slice_init, length_take. apply elem_of_seq. lia. }
  unfold cross in Hround. apply bind_ok_inv in Hround as (layer' & h3' & Hget & Hround).
  unfold getLayer in Hget. rewrite Hh3, Hsorted in Hget. injection Hget as <- <-.
  (* the two parents, in the order in which they stand *)
  assert (Hpair : exists q1 q2 d1 d2, before_in sorted q1 q2
            /\ d1 ∈ ichildren q1 /\ d2 ∈ ichildren q2 /\ d1 <> d2
            /\ (c1 = d1 \/ c1 = d2)).
  { destruct (apart_before_in sorted p1 p2) as [Hb|Hb].
    { apply apart_distinct; [by rewrite Hperm..|done]. }
    - exists p1, p2, c1, c2. repeat split; auto.
    - exists p2, p1, c2, c1. repeat split; auto. }
  destruct Hpair as (q1 & q2 & d1 & d2 & Hb & Hd1 & Hd2 & Hd & Hc1d).
  destruct (before_in_pairs_loop sorted q1 q2 Hb) as (i & Hi & Hq2).
  rewrite slice_init in Hround.
  destruct (forM_ok_inv (fun _ => True) _ _ ltac:(done) h3 h4 I Hround (i, q1) Hi)
    as (h5 & h6 & _ & Hround1).
  cbv beta iota in Hround1.
  replace (Z.of_nat i + 1)%Z with (Z.of_nat (S i)) in Hround1 by lia.
  rewrite slice_from in Hround1.
  destruct (forM_ok_inv (fun _ => True) _ _ ltac:(done) h5 h6 I Hround1 q2 Hq2)
    as (h7 & h8 & _ & Hround2).
  cbv beta in Hround2.
  apply bind_ok_inv in Hround2 as (pairp & h7' & _ & Hround2).
  destruct (forM_ok_inv (fun _ => True) _ _ ltac:(done) h7' h8 I Hround2 d1 Hd1)
    as (h9 & h10 & _ & Hround3).
  cbv beta in Hround3.
  destruct (forM_ok_inv (fun _ => True) _ _ ltac:(done) h9 h10 I Hround3 d2 Hd2)
    as (h11 & h12 & _ & Hround4).
  cbv beta in Hround4.
  rewrite decide_False in Hround4 by done.
  apply bind_ok_inv in Hround4 as (pairc & h11' & Hkey & _).
  unfold lift in Hkey.
  rewrite (key_missing ids [d1; d2] c1) in Hkey; [discriminate| |exact Hnone].
  destruct Hc1d as [->| ->]; [by left|right; by left].
Qed.

Definition strayChildren (n : Node) : list Node :=
  match n with
  | 0%nat => [2%nat]
  | 1%nat => [7%nat]
  | _ => []
  end.

Lemma child_outside_the_layers_raises_witness :
  exists e h',
    optBuild strayChildren {| opt_clowntown := false |}
             {| h_layers := [[0; 1]; [2; 3]]%nat; h_model := None |} = (Err e, h')
    /\ runOpt strayChildren (fun _ => ∅) {| opt_clowntown := false |}
              [[0; 1]; [2; 3]]%nat = (Err e, h').
Proof.
  apply (child_outside_the_layers_raises strayChildren (fun _ => ∅)
           {| opt_clowntown := false |} [[0; 1]; [2; 3]]%nat
           0 [0; 1]%nat 1%nat 0%nat 7%nat 2%nat).
  - reflexivity.
  - simpl. lia.
  - right. by left.
  - by left.
  - discriminate.
  - by left.
  - by left.
  - discriminate.
  - intros l Hl Hc.
    repeat (apply elem_of_cons in Hl as [->|Hl]); [| |by apply elem_of_nil in Hl].
    all: repeat (apply elem_of_cons in Hc as [Hc|Hc]; [discriminate|]);
      by apply elem_of_nil in Hc.
Defined.

(** ** Operators at work *)

Lemma runOpt_guarded ichildren Solve layers :
  (2500 < sizeOf layers)%Z ->
  runOpt ichildren Solve {| opt_clowntown := false |} layers
  = (Err SizeGuardError, {| h_layers := layers; h_model := None |}).
Proof.
  intros Hbig. unfold runOpt, optCall. rewrite bind_getLayers. simpl.
  apply Z.ltb_lt in Hbig. by rewrite Hbig.
Qed.

Lemma runOpt_unguarded ichildren Solve layers :
  (runOpt ichildren Solve {| opt_clowntown := true |} layers).1
  <> Err SizeGuardError.
Proof.
  unfold runOpt, optCall. rewrite bind_getLayers. simpl.
  rewrite bind_putModel.
  match goal with
  | |- context [bind ?m ?f] => assert (Hpg : past_guard (bind m f))
  end.
  { repeat guard_step. }
  apply Hpg. by eexists.
Qed.

(** X7. The operator that [opt()] returns has the guard on: its getter
    answers [false] and called on a layering over the limit it raises the
    size-guard error.  The operator its setter returns for [true] does not
    raise that error on the same layering, while the first operator, called
    again afterwards, still does. *)
Theorem default_operator_guards_until_overridden
    (ichildren : Node -> list Node) (Solve : Model -> gmap string Q)
    (s : list OptOptions) (layers : list (list Node)) :
  (2500 < sizeOf layers)%Z ->
  exists op s1 op' s2,
    opt (@nil unit) s = (Ok op, s1)
    /\ clowntown op None s1 = (Ok (inl false), s1)
    /\ callOpt ichildren Solve op s1 layers
       = (Err SizeGuardError, {| h_layers := layers; h_model := None |})
    /\ clowntown op (Some true) s1 = (Ok (inr op'), s2)
    /\ (callOpt ichildren Solve op' s2 layers).1 <> Err SizeGuardError
    /\ callOpt ichildren Solve op s2 layers
       = (Err SizeGuardError, {| h_layers := layers; h_model := None |}).
Proof.
  intros Hbig.
  set (o := {| opt_clowntown := false |}). set (o' := {| opt_clowntown := true |}).
  pose proof (deref_alloc_new s o) as Hnew.
  destruct (deref_alloc_old (alloc o s).2 o o' _ Hnew) as [Hold _].
  pose proof (deref_alloc_new (alloc o s).2 o') as Hnew'.
  unfold alloc in Hnew, Hold, Hnew'. simpl in Hnew, Hold, Hnew'.
  exists (buildOptOperator (length s)), (s ++ [o]),
    (buildOptOperator (length (s ++ [o]))), ((s ++ [o]) ++ [o']).
  unfold opt, clowntown, callOpt, alloc. simpl.
  rewrite Hnew, Hold, Hnew'.
  repeat split; try reflexivity; try (by apply runOpt_guarded).
  apply runOpt_unguarded.
Qed.

Lemma default_operator_guards_until_overridden_witness :
  exists op s1 op' s2,
    opt (@nil unit) [] = (Ok op, s1)
    /\ clowntown op None s1 = (Ok (inl false), s1)
    /\ callOpt (fun _ => []) (fun _ => ∅) op s1 wideLayering
       = (Err SizeGuardError, {| h_layers := wideLayering; h_model := None |})
    /\ clowntown op (Some true) s1 = (Ok (inr op'), s2)
    /\ (callOpt (fun _ => []) (fun _ => ∅) op' s2 wideLayering).1
       <> Err SizeGuardError
    /\ callOpt (fun _ => []) (fun _ => ∅) op s2 wideLayering
       = (Err SizeGuardError, {| h_layers := wideLayering; h_model := None |}).
Proof.
  apply (default_operator_guards_until_overridden
           (fun _ => []) (fun _ => ∅) [] wideLayering).
  reflexivity.
Defined.

(** ** The queue comparator is a total order on the [before] lists *)

Lemma compFrom_drop i l : forall r, compFrom i l r = compFrom 0 l (drop i r).
Proof.
  revert i. induction l as [|x l IH]; intros i r; simpl; [reflexivity|].
  rewrite lookup_drop, Nat.add_0_r.
  destruct (r !! i) as [y|]; [|reflexivity].
  destruct (x <? y)%Z; [reflexivity|]. destruct (y <? x)%Z; [reflexivity|].
  rewrite (IH (S i) r), (IH 1%nat (drop i r)), drop_drop.
  by rewrite Nat.add_1_r.
Qed.

Lemma compBefore_cons x l y r :
  compBefore (x :: l) (y :: r)
  = if (x <? y)%Z then true else if (y <? x)%Z then false else compBefore l r.
Proof.
  unfold compBefore. simpl.
  destruct (x <? y)%Z; [reflexivity|]. destruct (y <? x)%Z; [reflexivity|].
  by rewrite compFrom_drop.
Qed.

Lemma compBefore_refl l : compBefore l l = true.
Proof.
  induction l as [|x l IH]; [reflexivity|].
  by rewrite compBefore_cons, Z.ltb_irrefl.
Qed.

Lemma compBefore_total a : forall b, compBefore a b = true \/ compBefore b a = true.
Proof.
  induction a as [|x a IH]; intros b; [by left|].
  destruct b as [|y b]; [by right|].
  rewrite !compBefore_cons.
  destruct (Z.ltb_spec x y), (Z.ltb_spec y x); try lia; auto.
Qed.

Lemma compBefore_antisym a : forall b,
  compBefore a b = true -> compBefore b a = true -> a = b.
Proof.
  induction a as [|x a IH]; intros [|y b]; try done.
  rewrite !compBefore_cons.
  destruct (Z.ltb_spec x y), (Z.ltb_spec y x); try lia; try done.
  intros Hab Hba. assert (x = y) as -> by lia. f_equal. by apply IH.
Qed.

Lemma compBefore_trans a : forall b c,
  compBefore a b = true -> compBefore b c = true -> compBefore a c = true.
Proof.
  induction a as [|x a IH]; intros [|y b] [|z c]; try done.
  rewrite !compBefore_cons.
  destruct (Z.ltb_spec x y), (Z.ltb_spec y x), (Z.ltb_spec y z), (Z.ltb_spec z y),
    (Z.ltb_spec x z), (Z.ltb_spec z x); try lia; try done.
  apply IH.
Qed.

(** X8. The comparator of the queue is a total order on the nodes' [before]
    lists: it holds of a node and itself, of two nodes in one direction at
    least, in both directions only when the lists are equal, and it is
    transitive. *)
Theorem queue_comparator_total_order
    (data : gmap Node Data) (a b c : Node) (da db dc : Data) :
  data !! a = Some da -> data !! b = Some db -> data !! c = Some dc ->
  cgComp data a a = Ok true
  /\ (cgComp data a b = Ok true \/ cgComp data b a = Ok true)
  /\ (cgComp data a b = Ok true -> cgComp data b a = Ok true ->
      before da = before db)
  /\ (cgComp data a b = Ok true -> cgComp data b c = Ok true ->
      cgComp data a c = Ok true).
Proof.
  intros Ha Hb Hc. unfold cgComp. rewrite Ha, Hb, Hc. simpl.
  split; [by rewrite compBefore_refl|]. split.
  - destruct (compBefore_total (before da) (before db)) as [->| ->]; auto.
  - split.
    + intros [= Hab] [= Hba]. by apply compBefore_antisym.
    + intros [= Hab] [= Hbc]. f_equal. by eapply compBefore_trans.
Qed.

Lemma queue_comparator_total_order_witness :
  cgComp prefixData 0 0 = Ok true
  /\ (cgComp prefixData 0 1 = Ok true \/ cgComp prefixData 1 0 = Ok true)
  /\ (cgComp prefixData 0 1 = Ok true -> cgComp prefixData 1 0 = Ok true ->
      [3%Z] = [3%Z; 1%Z])
  /\ (cgComp prefixData 0 1 = Ok true -> cgComp prefixData 1 1 = Ok true ->
      cgComp prefixData 0 1 = Ok true).
Proof.
  apply (queue_comparator_total_order prefixData 0 1 1
           {| before := [3%Z]; parents := [] |}
           {| before := [3%Z; 1%Z]; parents := [] |}
           {| before := [3%Z; 1%Z]; parents := [] |}); reflexivity.
Defined.

(** X9. With width 0 the maximum width the call uses is the integer square
    root [w] of the number of nodes: [w * w <= n < (w + 1) * (w + 1)]. *)
Theorem auto_width_is_floor_sqrt (options : CGOptions) (dag : Dag) :
  cg_width options = 0%Z ->
  let w := maxWidthOf options dag in
  (0 <= w /\ w * w <= size dag < (w + 1) * (w + 1))%Z.
Proof.
  intros Hw w. subst w. unfold maxWidthOf. rewrite Hw. simpl.
  assert (Hn : (0 <= size dag)%Z) by (unfold size; lia).
  rewrite (floorSqrtPlusHalf_sqrt _ Hn).
  pose proof (Z.sqrt_spec (size dag) Hn) as Hs.
  pose proof (Z.sqrt_nonneg (size dag)). unfold Z.succ in Hs. lia.
Qed.

Lemma auto_width_is_floor_sqrt_witness :
  cg_width {| cg_width := 0 |} = 0%Z
  /\ let w := maxWidthOf {| cg_width := 0 |} squareDag in
     (0 <= w /\ w * w <= size squareDag < (w + 1) * (w + 1))%Z.
Proof.
  split; [reflexivity|].
  apply (auto_width_is_floor_sqrt {| cg_width := 0 |} squareDag). reflexivity.
Defined.

(** ** How the layering fills its layers *)

(** Every layer below [layer] holds a node. *)
Definition gapless (layerOf : gmap Node Z) (layer : Z) : Prop :=
  forall l, (0 <= l < layer)%Z -> exists n, layerOf !! n = Some l.

(** Every layer below [layer] is full, or holds a parent of a node of the
    next layer. *)
Definition tight (dag : Dag) (maxWidth : Z) (layerOf : gmap Node Z) (layer : Z)
    : Prop :=
  forall l, (0 <= l < layer)%Z ->
    countAt dag layerOf l = maxWidth
    \/ exists p c, p ∈ d_nodes dag /\ c ∈ d_children dag p
         /\ layerOf !! p = Some l /\ layerOf !! c = Some (l + 1)%Z.

Lemma every_false {A} (f : A -> Res bool) (l : list A) :
  every f l = Ok false -> exists x, x ∈ l /\ f x = Ok false.
Proof.
  induction l as [|y l IH]; simpl; [discriminate|].
  destruct (f y) as [[|]|e] eqn:Hy; simpl; [|intros _|discriminate].
  - intros Hl. destruct (IH Hl) as (x & Hx & Hfx). exists x. split; [by right|done].
  - exists y. split; [by left|done].
Qed.

Section Filling.

Context {pq : Type} `{PriorityQueueLaws pq}.
Variable dag : Dag.
Variable maxWidth : Z.
Hypothesis Hwf : wf_dag dag.
Hypothesis HmaxWidth : d_nodes dag <> [] -> (1 <= maxWidth)%Z.
Hypothesis HmaxWidth0 : (0 <= maxWidth)%Z.

(** What one round of the loop does to the layers: the node polled goes to
    the current layer, or to a new one when the current layer is full or
    holds one of its parents. *)
Lemma visit_layers (D : list Node) p (st st' : CG) :
  p ∈ d_nodes dag -> p ∉ D -> ready dag D (occ []) p ->
  data_inv dag D (occ []) (s_data st) ->
  queue_inv dag D (occ []) [p] (pq_items (s_queue st)) ->
  layer_inv dag maxWidth D (s_layer_of st) (s_layer st) (s_width st) ->
  visit dag maxWidth p st = Ok st' ->
  s_layer_of st !! p = None
  /\ ((s_layer_of st' = <[p := s_layer st]> (s_layer_of st)
       /\ s_layer st' = s_layer st)
      \/ (s_layer_of st' = <[p := (s_layer st + 1)%Z]> (s_layer_of st)
          /\ s_layer st' = (s_layer st + 1)%Z
          /\ (countAt dag (s_layer_of st) (s_layer st) = maxWidth
              \/ exists x, x ∈ d_nodes dag /\ p ∈ d_children dag x
                   /\ s_layer_of st !! x = Some (s_layer st)))).
Proof.
  intros Hp HpD Hready Hdata Hqueue Hlayers Hvisit.
  destruct Hlayers as (_ & _ & Hdom & Hrange & _ & Hcount & Hmax).
  assert (Hnone : s_layer_of st !! p = None).
  { destruct (s_layer_of st !! p) eqn:E; [|reflexivity].
    destruct HpD. apply Hdom. by eexists. }
  split; [exact Hnone|].
  destruct (Hdata p Hp) as (d & Hd & Hpar & _).
  unfold visit in Hvisit.
  destruct (if (s_width st <? maxWidth)%Z then _ else _) as [fits|e] eqn:Hcond;
    [|discriminate].
  cbn [res_bind] in Hvisit.
  match type of Hvisit with
  | context [res_fold visitChild _ ?st1] =>
      destruct (visit_children dag Hwf D p st1 Hp HpD Hready)
        as (st2 & Hrun & _ & _ & E1 & _ & E3 & _);
        [by destruct fits | by destruct fits |];
      rewrite Hrun in Hvisit
  end.
  cbn [res_bind] in Hvisit. injection Hvisit as <-. cbn [s_layer_of s_layer].
  rewrite E1, E3. destruct fits; cbn [s_layer_of s_layer]; [by left|right].
  split; [reflexivity|]. split; [reflexivity|].
  destruct (Z.ltb_spec (s_width st) maxWidth) as [Hlt|Hge].
  - right. rewrite Hd in Hcond. cbn [def res_bind] in Hcond.
    destruct (every_false _ _ Hcond) as (x & Hx & Hfx).
    rewrite Hpar in Hx. apply elem_of_parentsOf in Hx as [Hxn Hxc].
    destruct (s_layer_of st !! x) as [lx|] eqn:Hlx; [|discriminate].
    cbn [def res_bind] in Hfx. injection Hfx as Hfx. apply Z.ltb_ge in Hfx.
    specialize (Hrange x lx Hlx).
    exists x. split; [exact Hxn|]. split; [exact Hxc|]. rewrite Hlx. f_equal. lia.
  - left. specialize (Hmax (s_layer st)). lia.
Qed.

Lemma visit_gapless (D : list Node) p (st st' : CG) :
  p ∈ d_nodes dag -> p ∉ D -> ready dag D (occ []) p ->
  data_inv dag D (occ []) (s_data st) ->
  queue_inv dag D (occ []) [p] (pq_items (s_queue st)) ->
  layer_inv dag maxWidth D (s_layer_of st) (s_layer st) (s_width st) ->
  gapless (s_layer_of st) (s_layer st) ->
  visit dag maxWidth p st = Ok st' ->
  gapless (s_layer_of st') (s_layer st').
Proof.
  intros Hp HpD Hready Hdata Hqueue Hlayers Hgap Hvisit.
  destruct (visit_layers D p st st' Hp HpD Hready Hdata Hqueue Hlayers Hvisit)
    as [Hnone Hcase].
  destruct Hlayers as (_ & _ & _ & _ & _ & Hcount & _).
  assert (Hkeep : forall l' l, (exists n, s_layer_of st !! n = Some l) ->
            exists n, <[p := l']> (s_layer_of st) !! n = Some l).
  { intros l' l [n Hn]. exists n. rewrite lookup_insert_ne; [exact Hn|].
    intros ->. by rewrite Hnone in Hn. }
  destruct Hcase as [[-> ->]|(-> & -> & Hwhy)]; intros l Hl; apply Hkeep.
  - by apply Hgap.
  - destruct (decide (l = s_layer st)) as [->|Hne]; [|apply Hgap; lia].
    destruct Hwhy as [Hfull|(x & _ & _ & Hx)]; [|by exists x].
    assert (Hpos : (1 <= countAt dag (s_layer_of st) (s_layer st))%Z).
    { rewrite Hfull. apply HmaxWidth. intros Hnil. rewrite Hnil in Hp.
      by apply elem_of_nil in Hp. }
    unfold countAt in Hpos.
    destruct (filter (fun n => s_layer_of st !! n = Some (s_layer st)) (d_nodes dag))
      as [|n ns] eqn:Hf; [simpl in Hpos; lia|].
    assert (Hn : n ∈ filter (fun n => s_layer_of st !! n = Some (s_layer st))
                   (d_nodes dag)) by (rewrite Hf; by left).
    apply list_elem_of_filter in Hn as [Hn _]. by exists n.
Qed.

Lemma visit_tight (D : list Node) p (st st' : CG) :
  p ∈ d_nodes dag -> p ∉ D -> ready dag D (occ []) p ->
  data_inv dag D (occ []) (s_data st) ->
  queue_inv dag D (occ []) [p] (pq_items (s_queue st)) ->
  layer_inv dag maxWidth D (s_layer_of st) (s_layer st) (s_width st) ->
  tight dag maxWidth (s_layer_of st) (s_layer st) ->
  visit dag maxWidth p st = Ok st' ->
  tight dag maxWidth (s_layer_of st') (s_layer st').
Proof.
  intros Hp HpD Hready Hdata Hqueue Hlayers Htight Hvisit.
  destruct (visit_layers D p st st' Hp HpD Hready Hdata Hqueue Hlayers Hvisit)
    as [Hnone Hcase].
  assert (Hkeep : forall l' l, l' <> l ->
            (countAt dag (s_layer_of st) l = maxWidth
             \/ exists x c, x ∈ d_nodes dag /\ c ∈ d_children dag x
                  /\ s_layer_of st !! x = Some l /\ s_layer_of st !! c = Some (l + 1)%Z) ->
            countAt dag (<[p := l']> (s_layer_of st)) l = maxWidth
            \/ exists x c, x ∈ d_nodes dag /\ c ∈ d_children dag x
                 /\ <[p := l']> (s_layer_of st) !! x = Some l
                 /\ <[p := l']> (s_layer_of st) !! c = Some (l + 1)%Z).
  { intros l' l Hne [Hfull|(x & c & Hx & Hc & Hlx & Hlc)].
    - left. rewrite (countAt_insert dag Hwf _ p l' l Hp Hnone).
      rewrite decide_False by done. lia.
    - right. exists x, c. repeat split; [done..| |].
      + rewrite lookup_insert_ne; [done|]. intros ->. congruence.
      + rewrite lookup_insert_ne; [done|]. intros ->. congruence. }
  destruct Hcase as [[-> ->]|(-> & -> & Hwhy)]; intros l Hl.
  - apply Hkeep; [lia|]. by apply Htight.
  - destruct (decide (l = s_layer st)) as [->|Hne];
      [|apply Hkeep; [lia|]; apply Htight; lia].
    destruct Hwhy as [Hfull|(x & Hx & Hc & Hlx)].
    + apply Hkeep; [lia|]. by left.
    + right. exists x, p. repeat split; [done..| |].
      * rewrite lookup_insert_ne; [done|]. intros ->. congruence.
      * by rewrite lookup_insert_eq.
Qed.

(** The loop under a further property of the layers that every round keeps. *)
Lemma loop_with (K : gmap Node Z -> Z -> Prop) :
  (forall D p st st',
     p ∈ d_nodes dag -> p ∉ D -> ready dag D (occ []) p ->
     data_inv dag D (occ []) (s_data st) ->
     queue_inv dag D (occ []) [p] (pq_items (s_queue st)) ->
     layer_inv dag maxWidth D (s_layer_of st) (s_layer st) (s_width st) ->
     K (s_layer_of st) (s_layer st) ->
     visit dag maxWidth p st = Ok st' ->
     K (s_layer_of st') (s_layer st')) ->
  forall (fuel : nat) (st : CG) (D : list Node),
  data_inv dag D (occ []) (s_data st) ->
  queue_inv dag D (occ []) [] (pq_items (s_queue st)) ->
  layer_inv dag maxWidth D (s_layer_of st) (s_layer st) (s_width st) ->
  (0 <= s_layer st)%Z ->
  K (s_layer_of st) (s_layer st) ->
  (length (d_nodes dag) - length D < fuel)%nat ->
  exists st' D',
    loop dag maxWidth fuel st = Ok st'
    /\ queue_inv dag D' (occ []) [] (pq_items (s_queue st'))
    /\ layer_inv dag maxWidth D' (s_layer_of st') (s_layer st') (s_width st')
    /\ pq_items (s_queue st') = []
    /\ K (s_layer_of st') (s_layer st').
Proof.
  intros Hkeep.
  induction fuel as [|fuel IH]; intros st D Hdata Hqueue Hlayers Hnonneg HK Hfuel;
    [lia|].
  simpl. destruct (decide (pq_items (s_queue st) = [])) as [Hempty|Hne].
  - rewrite (pq_poll_empty _ _ Hempty). simpl. by exists st, D.
  - destruct Hqueue as (Hnd & Hitems & Hiff).
    destruct (pq_poll_items (cgComp (s_data st)) (s_queue st) Hne)
      as (x & q & -> & Hperm).
    { apply cgComp_total. intros n Hn. eapply data_inv_dom; [exact Hdata|].
      by apply Hitems. }
    simpl.
    assert (Hx : x ∈ pq_items (s_queue st)) by (rewrite Hperm; by left).
    destruct (Hitems x Hx) as (Hxn & HxD & _).
    rewrite Hperm in Hnd. apply NoDup_cons in Hnd as [Hxq Hndq].
    set (st1 := {| s_data := s_data st; s_layer_of := s_layer_of st;
                   s_queue := q; s_i := s_i st; s_layer := s_layer st;
                   s_width := s_width st |}).
    assert (Hready : ready dag D (occ []) x).
    { apply Hiff; [exact Hxn|apply not_elem_of_nil|by left]. }
    assert (Hqueue1 : queue_inv dag D (occ []) [x] (pq_items (s_queue st1))).
    { simpl. split; [exact Hndq|]. split.
      * intros n Hn. destruct (Hitems n) as (Hnn & HnD & _).
        { rewrite Hperm. by right. }
        split; [exact Hnn|]. split; [exact HnD|].
        intros ->%list_elem_of_singleton. done.
      * intros n Hn Hnx. rewrite <- (Hiff n Hn) by apply not_elem_of_nil.
        rewrite Hperm, elem_of_cons.
        assert (n <> x) by (intros ->; apply Hnx; by left). tauto. }
    destruct (visit_spec dag maxWidth Hwf HmaxWidth D x st1 Hxn HxD Hready Hdata
                Hqueue1 Hlayers Hnonneg)
      as (st2 & Hvisit & Hdata2 & Hqueue2 & Hlayers2 & Hnonneg2).
    pose proof (Hkeep D x st1 st2 Hxn HxD Hready Hdata Hqueue1 Hlayers HK Hvisit)
      as HK2.
    rewrite Hvisit. simpl. apply (IH st2 (x :: D)); [done..|].
    destruct Hlayers2 as (HndD & HsubD & _).
    pose proof (submseteq_length _ _ (NoDup_submseteq _ _ HndD HsubD)) as Hle.
    simpl in *. lia.
Qed.

End Filling.

(** The call under a further property of the layers that holds at the start
    and that every round keeps. *)
Lemma coffmanGrahamCall_with {pq : Type} `{PriorityQueueLaws pq}
    (options : CGOptions) (dag : Dag) (K : gmap Node Z -> Z -> Prop) :
  wf_dag dag -> (0 <= cg_width options)%Z ->
  K ∅ 0%Z ->
  (forall D p (st st' : CG (pq := pq)),
     p ∈ d_nodes dag -> p ∉ D -> ready dag D (occ []) p ->
     data_inv dag D (occ []) (s_data st) ->
     queue_inv dag D (occ []) [p] (pq_items (s_queue st)) ->
     layer_inv dag (maxWidthOf options dag) D (s_layer_of st) (s_layer st)
               (s_width st) ->
     K (s_layer_of st) (s_layer st) ->
     visit dag (maxWidthOf options dag) p st = Ok st' ->
     K (s_layer_of st') (s_layer st')) ->
  exists layerOf D layer width,
    coffmanGrahamCall (pq := pq) options dag = Ok layerOf
    /\ layer_inv dag (maxWidthOf options dag) D layerOf layer width
    /\ (forall n, n ∈ d_nodes dag -> n ∈ D)
    /\ K layerOf layer.
Proof.
  intros Hwf Hw HK0 Hkeep. destruct (maxWidthOf_pos options dag Hw) as [Hmw0 Hmw1].
  unfold coffmanGrahamCall.
  destruct (initData_spec dag Hwf) as (data & -> & Hdata). cbn [res_bind].
  destruct (enqueue_roots data (d_roots dag) pq_new) as (queue & -> & Hqueue).
  { intros n Hn. rewrite pq_new_items, app_nil_r in Hn.
    apply (wf_roots dag Hwf) in Hn as [Hn _]. rewrite (Hdata n Hn). by eexists. }
  rewrite pq_new_items, app_nil_r in Hqueue. cbn [res_bind].
  destruct (loop_with dag (maxWidthOf options dag) Hwf Hmw1 K Hkeep
              (S (length (d_nodes dag)))
              {| s_data := data; s_layer_of := ∅; s_queue := queue;
                 s_i := 0; s_layer := 0; s_width := 0 |} [])
    as (st & D & -> & Hq & Hl & Hempty & HK).
  - intros n Hn. eexists. split; [exact (Hdata n Hn)|]. simpl.
    split; [reflexivity|]. by rewrite filter_none_done.
  - simpl. split; [rewrite Hqueue; apply (wf_roots_nodup dag Hwf)|]. split.
    + intros n Hn. rewrite Hqueue in Hn. apply (wf_roots dag Hwf) in Hn as [Hn _].
      split; [exact Hn|]. split; apply not_elem_of_nil.
    + intros n Hn _. rewrite Hqueue. unfold ready, occ.
      rewrite filter_none_done. simpl. rewrite (wf_roots dag Hwf n). split.
      * intros [[_ Hr]|Hin]; [by rewrite Hr|destruct (not_elem_of_nil _ Hin)].
      * intros Hlen. left. split; [exact Hn|].
        by destruct (parentsOf dag n).
  - simpl. split; [apply NoDup_nil_2|]. split.
    { intros n Hn. destruct (not_elem_of_nil _ Hn). }
    split.
    { intros n. rewrite lookup_empty. split.
      - intros [? ?]. done.
      - intros Hn. destruct (not_elem_of_nil _ Hn). }
    split; [intros n l; by rewrite lookup_empty|].
    split; [intros c p lc; by rewrite lookup_empty|].
    split; [apply countAt_empty|].
    intros l. rewrite countAt_empty. exact Hmw0.
  - simpl. lia.
  - exact HK0.
  - simpl. lia.
  - cbn [res_bind]. exists (s_layer_of st), D, (s_layer st), (s_width st).
    split; [reflexivity|]. split; [exact Hl|]. split; [|exact HK].
    rewrite Hempty in Hq. exact (all_done dag Hwf D Hq).
Qed.

(** X10. On a dag the layering uses its layers without gaps: below the
    layer of any node every layer down to 0 holds a node, and the nodes of
    layer 0 are roots. *)
Theorem coffmanGraham_layers_without_gaps {pq : Type} `{PriorityQueueLaws pq}
    (options : CGOptions) (dag : Dag) :
  wf_dag dag -> (0 <= cg_width options)%Z ->
  exists layerOf,
    coffmanGrahamCall (pq := pq) options dag = Ok layerOf
    /\ (forall n l l', layerOf !! n = Some l -> (0 <= l' <= l)%Z ->
          exists n', n' ∈ d_nodes dag /\ layerOf !! n' = Some l')
    /\ (forall n, layerOf !! n = Some 0%Z -> n ∈ d_roots dag).
Proof.
  intros Hwf Hw. destruct (maxWidthOf_pos options dag Hw) as [Hmw0 Hmw1].
  destruct (coffmanGrahamCall_with options dag gapless Hwf Hw)
    as (layerOf & D & layer & width & Hrun & Hl & _ & Hgap).
  { intros l Hl. lia. }
  { intros D p st st'. by apply visit_gapless. }
  exists layerOf. split; [exact Hrun|].
  destruct Hl as (_ & Hsub & Hdom & Hrange & Hord & _ & _).
  assert (Hnode : forall n l, layerOf !! n = Some l -> n ∈ d_nodes dag).
  { intros n l Hn. apply Hsub, Hdom. by eexists. }
  split.
  - intros n l l' Hn Hl'.
    destruct (decide (l' = l)) as [->|Hne]; [exists n; split; [by eapply Hnode|done]|].
    destruct (Hgap l') as [n' Hn'].
    { specialize (Hrange n l Hn). lia. }
    exists n'. split; [by eapply Hnode|done].
  - intros n Hn. apply (wf_roots dag Hwf). split; [by eapply Hnode|].
    destruct (parentsOf dag n) as [|p ps] eqn:Hps; [reflexivity|].
    destruct (Hord n p 0%Z Hn) as (lp & Hlp & Hlt); [rewrite Hps; by left|].
    specialize (Hrange p lp Hlp). lia.
Qed.

Lemma coffmanGraham_layers_without_gaps_witness :
  exists layerOf,
    coffmanGrahamCall (pq := list Node) {| cg_width := 0 |} squareDag = Ok layerOf
    /\ (forall n l l', layerOf !! n = Some l -> (0 <= l' <= l)%Z ->
          exists n', n' ∈ d_nodes squareDag /\ layerOf !! n' = Some l')
    /\ (forall n, layerOf !! n = Some 0%Z -> n ∈ d_roots squareDag).
Proof.
  apply (coffmanGraham_layers_without_gaps (pq := list Node)
           {| cg_width := 0 |} squareDag).
  - exact squareDag_wf.
  - simpl. lia.
Defined.

(** X17. The layering opens a new layer only when it has to: in the result,
    every layer below the layer of some node is full (it holds as many nodes
    as the maximum width) or holds a parent of a node of the next layer. *)
Theorem coffmanGraham_layers_are_tight {pq : Type} `{PriorityQueueLaws pq}
    (options : CGOptions) (dag : Dag) :
  wf_dag dag -> (0 <= cg_width options)%Z ->
  exists layerOf,
    coffmanGrahamCall (pq := pq) options dag = Ok layerOf
    /\ (forall n l l', layerOf !! n = Some l -> (0 <= l' < l)%Z ->
          countAt dag layerOf l' = maxWidthOf options dag
          \/ exists p c, p ∈ d_nodes dag /\ c ∈ d_children dag p
               /\ layerOf !! p = Some l' /\ layerOf !! c = Some (l' + 1)%Z).
Proof.
  intros Hwf Hw. destruct (maxWidthOf_pos options dag Hw) as [Hmw0 Hmw1].
  destruct (coffmanGrahamCall_with options dag (tight dag (maxWidthOf options dag))
              Hwf Hw)
    as (layerOf & D & layer & width & Hrun & Hl & _ & Htight).
  { intros l Hl. lia. }
  { intros D p st st'. by apply visit_tight. }
  exists layerOf. split; [exact Hrun|].
  destruct Hl as (_ & _ & _ & Hrange & _).
  intros n l l' Hn Hl'. apply Htight. specialize (Hrange n l Hn). lia.
Qed.

Lemma coffmanGraham_layers_are_tight_witness :
  exists layerOf,
    coffmanGrahamCall (pq := list Node) {| cg_width := 0 |} squareDag = Ok layerOf
    /\ (forall n l l', layerOf !! n = Some l -> (0 <= l' < l)%Z ->
          countAt squareDag layerOf l' = maxWidthOf {| cg_width := 0 |} squareDag
          \/ exists p c, p ∈ d_nodes squareDag /\ c ∈ d_children squareDag p
               /\ layerOf !! p = Some l' /\ layerOf !! c = Some (l' + 1)%Z).
Proof.
  apply (coffmanGraham_layers_are_tight (pq := list Node)
           {| cg_width := 0 |} squareDag).
  - exact squareDag_wf.
  - simpl. lia.
Defined.

(** * The zherebko layout *)

(** ** The levels of the zherebko layout *)

Section Levels.

Variable nchildLinksTo : Node -> Node -> nat.

(** The level of [node] when [numLevels] levels are in use and [last] was
    placed last. *)
Definition levelAfter (numLevels : nat) (last : option Node) (node : Node) : nat :=
  match last with
  | Some l => if (1 <? nchildLinksTo l node)%nat then S numLevels else numLevels
  | None => numLevels
  end.

(** The rounds of the topological sort, from a given state on. *)
Fixpoint levelsFrom (numLevels : nat) (last : option Node) (l : list Node)
    : list (Node * nat) * nat :=
  match l with
  | [] => ([], numLevels)
  | node :: l' =>
      let level := levelAfter numLevels last node in
      let '(rest, n) := levelsFrom (S level) (Some node) l' in
      ((node, level) :: rest, n)
  end.

Lemma levelStep_fold (l : list Node) : forall levels numLevels last,
  exists last',
    foldl (Zherebko.levelStep nchildLinksTo) (levels, numLevels, last) l
    = (levels ++ (levelsFrom numLevels last l).1,
       (levelsFrom numLevels last l).2, last').
Proof.
  induction l as [|node l IH]; intros levels numLevels last; simpl.
  - exists last. by rewrite app_nil_r.
  - fold (levelAfter numLevels last node).
    destruct (IH (levels ++ [(node, levelAfter numLevels last node)])
                 (S (levelAfter numLevels last node)) (Some node)) as [last' ->].
    exists last'.
    destruct (levelsFrom (S (levelAfter numLevels last node)) (Some node) l)
      as [rest n]. simpl. by rewrite <- app_assoc.
Qed.

Lemma topologicalSort_levelsFrom (before : list Node) :
  Zherebko.topologicalSort before nchildLinksTo = levelsFrom 0 None before.
Proof.
  unfold Zherebko.topologicalSort.
  destruct (levelStep_fold before [] 0%nat None) as [last' ->]. simpl.
  by destruct (levelsFrom 0 None before).
Qed.

Lemma levelAfter_bounds numLevels prev node :
  (numLevels <= levelAfter numLevels prev node
   <= numLevels + match prev with Some _ => 1 | None => 0 end)%nat.
Proof.
  unfold levelAfter. destruct prev as [l|]; [|lia].
  destruct (1 <? nchildLinksTo l node)%nat; lia.
Qed.

Lemma levelsFrom_spec (l : list Node) : forall numLevels prev,
  let '(levels, n) := levelsFrom numLevels prev l in
  levels.*1 = l
  /\ (numLevels <= n)%nat
  /\ (forall i x lv, levels !! i = Some (x, lv) ->
        (numLevels + i <= lv
         <= numLevels + 2 * i + match prev with Some _ => 1 | None => 0 end)%nat
        /\ (lv < n)%nat)
  /\ (forall x lv, head levels = Some (x, lv) -> lv = levelAfter numLevels prev x)
  /\ (forall i a la b lb,
        levels !! i = Some (a, la) -> levels !! S i = Some (b, lb) ->
        lb = if (1 <? nchildLinksTo a b)%nat then (la + 2)%nat else (la + 1)%nat)
  /\ n = match last levels with Some (_, lv) => S lv | None => numLevels end.
Proof.
  induction l as [|node l IH]; intros numLevels prev; simpl.
  - repeat split; try done; lia.
  - specialize (IH (S (levelAfter numLevels prev node)) (Some node)).
    pose proof (levelAfter_bounds numLevels prev node) as Hb.
    destruct (levelsFrom (S (levelAfter numLevels prev node)) (Some node) l)
      as [rest n].
    destruct IH as (Hfst & Hle & Hrange & Hhead & Hstep & Hlast).
    split; [by rewrite fmap_cons, Hfst|]. split; [lia|]. split; [|split; [|split]].
    + intros [|i] x lv Hi; simpl in Hi.
      * injection Hi as <- <-. lia.
      * destruct (Hrange i x lv Hi). lia.
    + by intros x lv [= <- <-].
    + intros [|i] a la b lb Ha Hb'; simpl in Ha, Hb'.
      * injection Ha as <- <-.
        rewrite (Hhead b lb) by (by destruct rest as [|[] ?]; simplify_eq/=).
        simpl. destruct (1 <? nchildLinksTo node b)%nat; lia.
      * by eapply Hstep.
    + rewrite Hlast. destruct rest as [|[y ly] rest]; [reflexivity|].
      rewrite last_cons_cons.
      destruct (last ((y, ly) :: rest)) as [[? ?]|] eqn:E; [done|].
      by apply last_None in E.
Qed.

Lemma levels_increasing (levels : list (Node * nat)) :
  (forall i a la b lb,
     levels !! i = Some (a, la) -> levels !! S i = Some (b, lb) -> (la < lb)%nat) ->
  forall i j a la b lb, (i < j)%nat ->
    levels !! i = Some (a, la) -> levels !! j = Some (b, lb) -> (la < lb)%nat.
Proof.
  intros Hstep i j. induction j as [|j IH]; intros a la b lb Hij Ha Hb; [lia|].
  destruct (lookup_lt_is_Some_2 levels j) as [[c lc] Hc].
  { apply lookup_lt_Some in Hb. lia. }
  pose proof (Hstep j c lc b lb Hc Hb) as Hlt.
  destruct (decide (i = j)) as [->|Hne].
  - rewrite Ha in Hc. by injection Hc as -> ->.
  - specialize (IH a la c lc ltac:(lia) Ha Hc). lia.
Qed.

End Levels.

Lemma topologicalSort_spec (before : list Node) (nchildLinksTo : Node -> Node -> nat) :
  let '(levels, numLevels) := Zherebko.topologicalSort before nchildLinksTo in
  levels.*1 = before
  /\ (forall i x lv, levels !! i = Some (x, lv) ->
        (i <= lv <= 2 * i)%nat /\ (lv < numLevels)%nat)
  /\ (forall i a la b lb,
        levels !! i = Some (a, la) -> levels !! S i = Some (b, lb) ->
        lb = if (1 <? nchildLinksTo a b)%nat then (la + 2)%nat else (la + 1)%nat)
  /\ (forall i j a la b lb, (i < j)%nat ->
        levels !! i = Some (a, la) -> levels !! j = Some (b, lb) -> (la < lb)%nat)
  /\ numLevels = match last levels with Some (_, lv) => S lv | None => 0%nat end.
Proof.
  rewrite topologicalSort_levelsFrom.
  pose proof (levelsFrom_spec nchildLinksTo before 0 None) as Hspec.
  destruct (levelsFrom nchildLinksTo 0 None before) as [levels numLevels].
  destruct Hspec as (Hfst & _ & Hrange & _ & Hstep & Hlast).
  split; [exact Hfst|]. split; [|split; [exact Hstep|split; [|exact Hlast]]].
  - intros i x lv Hi. destruct (Hrange i x lv Hi). lia.
  - apply levels_increasing. intros i a la b lb Ha Hb.
    rewrite (Hstep i a la b lb Ha Hb).
    destruct (1 <? nchildLinksTo a b)%nat; lia.
Qed.


(** X11. The topological sort of the layout numbers the nodes in the order
    of [idescendants("before")], from level 0 on and strictly upwards: a node
    is one level above the node before it, or two when that node has more
    than one link to it; so the node at place [i] has a level between [i]
    and [2 i], and the number of levels is one more than the last level. *)
Theorem topological_levels (before : list Node) (nchildLinksTo : Node -> Node -> nat) :
  let '(levels, numLevels) := Zherebko.topologicalSort before nchildLinksTo in
  levels.*1 = before
  /\ (forall i x lv, levels !! i = Some (x, lv) ->
        (i <= lv <= 2 * i)%nat /\ (lv < numLevels)%nat)
  /\ (forall i a la b lb,
        levels !! i = Some (a, la) -> levels !! S i = Some (b, lb) ->
        lb = if (1 <? nchildLinksTo a b)%nat then (la + 2)%nat else (la + 1)%nat)
  /\ (forall i j a la b lb, (i < j)%nat ->
        levels !! i = Some (a, la) -> levels !! j = Some (b, lb) -> (la < lb)%nat)
  /\ numLevels = match last levels with Some (_, lv) => S lv | None => 0%nat end.
Proof. exact (topologicalSort_spec before nchildLinksTo). Qed.

(** ** The range of the lanes *)

Lemma widen_fold (inds : list (option Z)) : forall r : Z * Z,
  let r' := foldl Zherebko.widen r inds in
  (r'.1 <= r.1)%Z /\ (r.2 <= r'.2)%Z
  /\ (forall ind, Some ind ∈ inds -> (r'.1 <= ind <= r'.2)%Z)
  /\ (r'.1 = r.1 \/ Some r'.1 ∈ inds)
  /\ (r'.2 = r.2 \/ Some r'.2 ∈ inds).
Proof.
  induction inds as [|ind inds IH]; intros r; simpl.
  - split; [lia|]. split; [lia|].
    split; [intros i Hin; by apply elem_of_nil in Hin|]. split; by left.
  - destruct (IH (Zherebko.widen r ind)) as (Hlo & Hhi & Hin & Hmin & Hmax).
    assert (Hw : ((Zherebko.widen r ind).1 <= r.1)%Z /\ (r.2 <= (Zherebko.widen r ind).2)%Z
                 /\ (forall i, ind = Some i ->
                       ((Zherebko.widen r ind).1 <= i <= (Zherebko.widen r ind).2)%Z)
                 /\ ((Zherebko.widen r ind).1 = r.1 \/ Some (Zherebko.widen r ind).1 = ind)
                 /\ ((Zherebko.widen r ind).2 = r.2 \/ Some (Zherebko.widen r ind).2 = ind)).
    { destruct ind as [i|]; simpl.
      - split; [lia|]. split; [lia|]. split; [intros ? [= <-]; lia|]. split.
        + destruct (Z.min_spec r.1 i) as [[_ ->]|[_ ->]]; auto.
        + destruct (Z.max_spec r.2 i) as [[_ ->]|[_ ->]]; auto.
      - split; [lia|]. split; [lia|]. split; [intros ? [=]|]. split; by left. }
    destruct Hw as (Hlo' & Hhi' & Hin' & Hmin' & Hmax').
    split; [lia|]. split; [lia|]. split; [|split].
    + intros i Hi. apply elem_of_cons in Hi as [<-|Hi]; [|by apply Hin].
      specialize (Hin' i eq_refl). lia.
    + destruct Hmin as [Heq|Hm]; [|right; by right].
      rewrite Heq. destruct Hmin' as [->|Hm']; [by left|].
      right. rewrite Hm'. by left.
    + destruct Hmax as [Heq|Hm]; [|right; by right].
      rewrite Heq. destruct Hmax' as [->|Hm']; [by left|].
      right. rewrite Hm'. by left.
Qed.

Lemma widen_all_fold (ls : list (list (option Z))) : forall r : Z * Z,
  let r' := foldl (fun r inds => foldl Zherebko.widen r inds) r ls in
  (r'.1 <= r.1)%Z /\ (r.2 <= r'.2)%Z
  /\ (forall inds ind, inds ∈ ls -> Some ind ∈ inds -> (r'.1 <= ind <= r'.2)%Z)
  /\ (r'.1 = r.1 \/ exists inds, inds ∈ ls /\ Some r'.1 ∈ inds)
  /\ (r'.2 = r.2 \/ exists inds, inds ∈ ls /\ Some r'.2 ∈ inds).
Proof.
  induction ls as [|inds ls IH]; intros r; simpl.
  - split; [lia|]. split; [lia|].
    split; [intros inds ind Hin; by apply elem_of_nil in Hin|]. split; by left.
  - destruct (widen_fold inds r) as (Hlo' & Hhi' & Hin' & Hmin' & Hmax').
    destruct (IH (foldl Zherebko.widen r inds)) as (Hlo & Hhi & Hin & Hmin & Hmax).
    split; [lia|]. split; [lia|]. split; [|split].
    + intros inds' i Hi Hii. apply elem_of_cons in Hi as [->|Hi]; [|by eapply Hin].
      specialize (Hin' i Hii). lia.
    + destruct Hmin as [Heq|(inds' & Hl & Hm)].
      * rewrite Heq. destruct Hmin' as [->|Hm']; [by left|].
        right. exists inds. split; [by left|done].
      * right. exists inds'. split; [by right|done].
    + destruct Hmax as [Heq|(inds' & Hl & Hm)].
      * rewrite Heq. destruct Hmax' as [->|Hm']; [by left|].
        right. exists inds. split; [by left|done].
      * right. exists inds'. split; [by right|done].
Qed.

Lemma indexRange_spec (indices : gmap Node (list (option Z))) :
  let '(minIndex, maxIndex) := Zherebko.indexRange indices in
  (minIndex <= 0 <= maxIndex)%Z
  /\ (forall source inds index ind,
        indices !! source = Some inds -> inds !! index = Some (Some ind) ->
        (minIndex <= ind <= maxIndex)%Z)
  /\ (minIndex = 0%Z \/ exists source inds index,
        indices !! source = Some inds /\ inds !! index = Some (Some minIndex))
  /\ (maxIndex = 0%Z \/ exists source inds index,
        indices !! source = Some inds /\ inds !! index = Some (Some maxIndex)).
Proof.
  unfold Zherebko.indexRange.
  pose proof (widen_all_fold (map_to_list indices).*2 (0, 0)%Z) as Hfold.
  destruct (foldl _ (0, 0)%Z (map_to_list indices).*2) as [minIndex maxIndex].
  simpl in Hfold. destruct Hfold as (Hlo & Hhi & Hin & Hmin & Hmax).
  assert (Hmem : forall inds, inds ∈ (map_to_list indices).*2 <->
                   exists source, indices !! source = Some inds).
  { intros inds. rewrite list_elem_of_fmap. split.
    - intros [[source inds'] [-> Hx]]. exists source. by apply elem_of_map_to_list.
    - intros [source Hs]. exists (source, inds). split; [done|].
      by apply elem_of_map_to_list. }
  split; [lia|]. split; [|split].
  - intros source inds index ind Hs Hi. apply (Hin inds).
    + apply Hmem. by exists source.
    + by eapply list_elem_of_lookup_2.
  - destruct Hmin as [->|(inds & Hl & Hm)]; [by left|]. right.
    apply Hmem in Hl as [source Hs]. apply list_elem_of_lookup_1 in Hm as [index Hi].
    by exists source, inds, index.
  - destruct Hmax as [->|(inds & Hl & Hm)]; [by left|]. right.
    apply Hmem in Hl as [source Hs]. apply list_elem_of_lookup_1 in Hm as [index Hi].
    by exists source, inds, index.
Qed.

(** X12. The lane range of the layout: [minIndex <= 0 <= maxIndex], every
    lane that [greedy] assigned to a link lies between the two, and each of
    the two is 0 or the lane of some link. *)
Theorem lane_range (indices : gmap Node (list (option Z))) :
  let '(minIndex, maxIndex) := Zherebko.indexRange indices in
  (minIndex <= 0 <= maxIndex)%Z
  /\ (forall source inds index ind,
        indices !! source = Some inds -> inds !! index = Some (Some ind) ->
        (minIndex <= ind <= maxIndex)%Z)
  /\ (minIndex = 0%Z \/ exists source inds index,
        indices !! source = Some inds /\ inds !! index = Some (Some minIndex))
  /\ (maxIndex = 0%Z \/ exists source inds index,
        indices !! source = Some inds /\ inds !! index = Some (Some maxIndex)).
Proof. exact (indexRange_spec indices). Qed.

(** ** The coordinates the layout assigns *)

Section Layout.

Variable before : list Node.
Variable nchildLinksTo : Node -> Node -> nat.
Variable nodes : list Node.
Variable childLinks : Node -> list Node.
Variable greedy : list (Node * nat) -> gmap Node (list (option Z)).
Variable op : Zherebko.Operator.

Lemma assignNodes_spec (nodex : Zherebko.number) (levels : list (Node * nat)) :
  forall (coords : gmap Node Zherebko.Point) n,
  let coords' := Zherebko.assignNodes op nodex levels coords in
  (n ∉ levels.*1 -> coords' !! n = coords !! n)
  /\ (NoDup levels.*1 -> forall lv, (n, lv) ∈ levels ->
        coords' !! n
        = Some {| Zherebko.p_x := nodex;
                  Zherebko.p_y := ((Zherebko.ofZ (Z.of_nat lv) + 0.5)
                                   * Zherebko.o_nodeHeight op)%float |}).
Proof.
  induction levels as [|[node layer] levels IH]; intros coords n; simpl.
  - split; [done|]. intros _ lv Hl. by apply elem_of_nil in Hl.
  - match goal with
    | |- context [Zherebko.assignNodes op nodex levels ?c] =>
        destruct (IH c n) as [Hout Hin]
    end.
    unfold Zherebko.assignNodes in *. simpl. split.
    + intros Hn. apply not_elem_of_cons in Hn as [Hne Hn].
      rewrite (Hout Hn). by rewrite lookup_insert_ne.
    + intros [Hnode Hnd]%NoDup_cons lv Hl.
      apply elem_of_cons in Hl as [Heq|Hl].
      * injection Heq as -> ->. rewrite (Hout Hnode). by rewrite lookup_insert_eq.
      * by apply Hin.
Qed.

(** The links of one source. *)
Lemma assignLink_fold (minIndex : Z) (inds : list (option Z)) (source : Node)
    (ps : Zherebko.Point) (links : list (nat * Node)) :
  forall d : Zherebko.Drawing,
  Zherebko.node_at d !! source = Some ps ->
  (forall index target, (index, target) ∈ links ->
     is_Some (Zherebko.node_at d !! target)) ->
  exists d',
    Zherebko.foldM (Zherebko.assignLink op minIndex inds source) links d = Some d'
    /\ Zherebko.node_at d' = Zherebko.node_at d
    /\ (forall link, link.1 <> source \/ link.2 ∉ links.*1 ->
          Zherebko.points_of d' !! link = Zherebko.points_of d !! link)
    /\ (NoDup links.*1 -> forall index target pt, (index, target) ∈ links ->
          Zherebko.node_at d !! target = Some pt ->
          Zherebko.points_of d' !! (source, index)
          = Some (Zherebko.linkPoints op minIndex ps pt
                    (default None (inds !! index)))).
Proof.
  induction links as [|[index target] links IH]; intros d Hs Ht; simpl.
  - exists d. repeat split; auto. intros _ ? ? ? Hl. by apply elem_of_nil in Hl.
  - rewrite Hs. destruct (Ht index target) as [pt Hpt]; [by left|]. rewrite Hpt.
    match goal with
    | |- context [Zherebko.foldM _ links ?d1] => destruct (IH d1) as (d' & -> & Hn & Hout & Hin)
    end.
    { exact Hs. }
    { intros i t Hl. simpl. apply (Ht i t). by right. }
    simpl in Hn, Hout, Hin. exists d'. split; [reflexivity|]. split; [exact Hn|].
    split.
    + intros [s i] Hl. simpl in Hl. rewrite Hout.
      * apply lookup_insert_ne. intros [= -> ->].
        destruct Hl as [Hl|Hl]; [done|]. apply Hl. by left.
      * simpl. destruct Hl as [Hl|Hl]; [by left|right].
        intros Hin'. apply Hl. by right.
    + intros [Hi Hnd]%NoDup_cons i t pt' Hl Hpt'.
      apply elem_of_cons in Hl as [Heq|Hl].
      * injection Heq as -> ->. rewrite Hout by (by right).
        rewrite lookup_insert_eq. rewrite Hpt in Hpt'. by injection Hpt' as ->.
      * by apply (Hin Hnd i t pt' Hl).
Qed.

Lemma entries_fst_NoDup {A} (l : list A) : NoDup (Js.entries l).*1.
Proof.
  unfold Js.entries. rewrite fmap_imap.
  change (fun n : nat => fst ∘ (fun x : A => (n, x)))
    with (fun (n : nat) (_ : A) => n).
  rewrite imap_seq_0, list_fmap_id. apply NoDup_seq.
Qed.

Lemma elem_of_entries_fst {A} (l : list A) i :
  i ∈ (Js.entries l).*1 <-> is_Some (l !! i).
Proof.
  unfold Js.entries. rewrite fmap_imap.
  change (fun n : nat => fst ∘ (fun x : A => (n, x)))
    with (fun (n : nat) (_ : A) => n).
  rewrite imap_seq_0, list_fmap_id, elem_of_seq, lookup_lt_is_Some. lia.
Qed.

(** The links of all sources. *)
Lemma assignLinks_fold (indices : gmap Node (list (option Z))) (minIndex : Z)
    (coords : gmap Node Zherebko.Point) (ns : list Node) :
  (forall s, s ∈ ns -> is_Some (coords !! s)) ->
  (forall s t, s ∈ ns -> t ∈ childLinks s -> is_Some (coords !! t)) ->
  forall d : Zherebko.Drawing,
  Zherebko.node_at d = coords ->
  exists d',
    Zherebko.foldM
      (fun d source =>
         Zherebko.foldM
           (Zherebko.assignLink op minIndex (default [] (indices !! source)) source)
           (Js.entries (childLinks source)) d) ns d = Some d'
    /\ Zherebko.node_at d' = coords
    /\ (forall s i, s ∉ ns \/ childLinks s !! i = None ->
          Zherebko.points_of d' !! (s, i) = Zherebko.points_of d !! (s, i))
    /\ (forall s i t ps pt, s ∈ ns -> childLinks s !! i = Some t ->
          coords !! s = Some ps -> coords !! t = Some pt ->
          Zherebko.points_of d' !! (s, i)
          = Some (Zherebko.linkPoints op minIndex ps pt
                    (default None (default [] (indices !! s) !! i)))).
Proof.
  induction ns as [|source ns IH]; intros Hs Ht d Hd; simpl.
  - exists d. repeat split; auto. intros ? ? ? ? ? Hin. by apply elem_of_nil in Hin.
  - destruct (Hs source) as [ps Hps]; [by left|].
    destruct (assignLink_fold minIndex (default [] (indices !! source)) source ps
                (Js.entries (childLinks source)) d)
      as (d1 & -> & Hn1 & Hout1 & Hin1).
    { by rewrite Hd. }
    { intros i t Hl. rewrite Hd. apply (Ht source t); [by left|].
      apply entries_lookup in Hl. by eapply list_elem_of_lookup_2. }
    destruct (IH ltac:(intros s' Hs'; apply Hs; by right)
                 ltac:(intros s' t Hs'; apply Ht; by right) d1)
      as (d' & -> & Hn & Hout & Hin).
    { by rewrite Hn1. }
    exists d'. split; [reflexivity|]. split; [exact Hn|]. split.
    + intros s i Hl. rewrite (Hout s i).
      * apply Hout1. simpl. destruct Hl as [Hl|Hl].
        -- left. intros ->. apply Hl. by left.
        -- destruct (decide (s = source)) as [->|Hne]; [right|by left].
           rewrite elem_of_entries_fst, Hl. by intros [? ?].
      * destruct Hl as [Hl|Hl]; [left|by right].
        intros Hin'. apply Hl. by right.
    + intros s i t ps' pt Hin' Hl Hps' Hpt.
      destruct (decide (s ∈ ns)) as [Hns|Hns]; [by eapply Hin|].
      apply elem_of_cons in Hin' as [->|Hin']; [|done].
      rewrite (Hout source i) by (by left).
      rewrite Hps in Hps'. injection Hps' as <-.
      apply (Hin1 (entries_fst_NoDup _) i t pt); [by apply entries_lookup|].
      by rewrite Hd.
Qed.

(** The drawing before it is rescaled, and what the call returns from it. *)
Lemma layout_core (d : Zherebko.Drawing) :
  NoDup before ->
  (forall s, s ∈ nodes -> s ∈ before) ->
  (forall s t, s ∈ nodes -> t ∈ childLinks s -> t ∈ before) ->
  let '(levels, numLevels) := Zherebko.topologicalSort before nchildLinksTo in
  let '(minIndex, maxIndex) := Zherebko.indexRange (greedy levels) in
  let place lv :=
    {| Zherebko.p_x := ((- Zherebko.ofZ minIndex) * Zherebko.o_edgeGap op
                        + Zherebko.o_nodeWidth op / 2)%float;
       Zherebko.p_y := ((Zherebko.ofZ (Z.of_nat lv) + 0.5)
                        * Zherebko.o_nodeHeight op)%float |} in
  let width := ((Zherebko.ofZ maxIndex - Zherebko.ofZ minIndex)
                * Zherebko.o_edgeGap op + Zherebko.o_nodeWidth op)%float in
  let height := (Zherebko.ofZ (Z.of_nat numLevels) * Zherebko.o_nodeHeight op)%float in
  exists d2,
    Zherebko.zherebkoCall before nchildLinksTo nodes childLinks greedy op d
    = match Zherebko.o_sizeVal op with
      | None => Some ({| Zherebko.i_width := width; Zherebko.i_height := height |}, d2)
      | Some (newWidth, newHeight) =>
          match Zherebko.rescale nodes childLinks newWidth newHeight width height
                  levels d2 with
          | None => None
          | Some d3 =>
              Some ({| Zherebko.i_width := newWidth;
                       Zherebko.i_height := newHeight |}, d3)
          end
      end
    /\ (forall n lv, (n, lv) ∈ levels -> Zherebko.node_at d2 !! n = Some (place lv))
    /\ (forall n, n ∉ before ->
          Zherebko.node_at d2 !! n = Zherebko.node_at d !! n)
    /\ (forall s i t ls lt, s ∈ nodes -> childLinks s !! i = Some t ->
          (s, ls) ∈ levels -> (t, lt) ∈ levels ->
          Zherebko.points_of d2 !! (s, i)
          = Some (Zherebko.linkPoints op minIndex (place ls) (place lt)
                    (default None (default [] (greedy levels !! s) !! i))))
    /\ (forall s i, s ∉ nodes \/ childLinks s !! i = None ->
          Zherebko.points_of d2 !! (s, i) = Zherebko.points_of d !! (s, i)).
Proof.
  intros Hnd Hsrc Htgt. unfold Zherebko.zherebkoCall.
  pose proof (topologicalSort_spec before nchildLinksTo) as Hlv.
  destruct (Zherebko.topologicalSort before nchildLinksTo) as [levels numLevels].
  destruct Hlv as (Hfst & _).
  destruct (Zherebko.indexRange (greedy levels)) as [minIndex maxIndex].
  set (nodex := ((- Zherebko.ofZ minIndex) * Zherebko.o_edgeGap op
                 + Zherebko.o_nodeWidth op / 2)%float).
  set (coords := Zherebko.assignNodes op nodex levels (Zherebko.node_at d)).
  assert (Hplaced : forall n lv, (n, lv) ∈ levels ->
            coords !! n
            = Some {| Zherebko.p_x := nodex;
                      Zherebko.p_y := ((Zherebko.ofZ (Z.of_nat lv) + 0.5)
                                       * Zherebko.o_nodeHeight op)%float |}).
  { intros n lv Hl.
    destruct (assignNodes_spec nodex levels (Zherebko.node_at d) n) as [_ Hin].
    apply Hin; [by rewrite Hfst|exact Hl]. }
  assert (Hlevel : forall n, n ∈ before -> exists lv, (n, lv) ∈ levels).
  { intros n Hn. rewrite <- Hfst in Hn.
    apply list_elem_of_fmap in Hn as [[n' lv] [-> Hl]]. by exists lv. }
  destruct (assignLinks_fold (greedy levels) minIndex coords nodes)
    with (d := {| Zherebko.node_at := coords; Zherebko.points_of := Zherebko.points_of d |})
    as (d' & Hrun & Hn & Hout & Hin).
  { intros s Hs. destruct (Hlevel s (Hsrc s Hs)) as [lv Hl].
    rewrite (Hplaced s lv Hl). by eexists. }
  { intros s t Hs Ht. destruct (Hlevel t (Htgt s t Hs Ht)) as [lv Hl].
    rewrite (Hplaced t lv Hl). by eexists. }
  { reflexivity. }
  unfold Zherebko.assignLinks. rewrite Hrun. exists d'.
  split; [reflexivity|]. rewrite Hn. split; [exact Hplaced|]. split; [|split].
  - intros n Hn'.
    destruct (assignNodes_spec nodex levels (Zherebko.node_at d) n) as [Hout' _].
    apply Hout'. by rewrite Hfst.
  - intros s i t ls lt Hs Hi Hls Hlt.
    by apply (Hin s i t _ _ Hs Hi (Hplaced s ls Hls) (Hplaced t lt Hlt)).
  - intros s i Hl. by rewrite (Hout s i Hl).
Qed.

End Layout.

(** ** Rescaling *)

Lemma rescale_nodes_fold (W H w h : Zherebko.number) (levels : list (Node * nat)) :
  forall coords : gmap Node Zherebko.Point,
  (forall n, n ∈ levels.*1 -> is_Some (coords !! n)) ->
  NoDup levels.*1 ->
  exists coords',
    Zherebko.foldM
      (fun coords '(node, _) =>
         match coords !! node with
         | Some p => Some (<[node := Zherebko.scaleNode W H w h p]> coords)
         | None => None
         end) levels coords = Some coords'
    /\ (forall n, n ∈ levels.*1 ->
          coords' !! n = Zherebko.scaleNode W H w h <$> coords !! n)
    /\ (forall n, n ∉ levels.*1 -> coords' !! n = coords !! n).
Proof.
  induction levels as [|[node lv] levels IH]; intros coords Hdom Hnd.
  - exists coords. split; [reflexivity|]. split; [|done].
    intros n Hn. by apply elem_of_nil in Hn.
  - simpl in Hnd. apply NoDup_cons in Hnd as [Hnode Hnd].
    destruct (Hdom node) as [p Hp]; [by left|].
    simpl. rewrite Hp.
    match goal with
    | |- context [Zherebko.foldM _ levels ?c] =>
        destruct (IH c) as (coords' & -> & Hin & Hout)
    end.
    { intros n Hn. destruct (decide (n = node)) as [->|Hne].
      - rewrite lookup_insert_eq. by eexists.
      - rewrite lookup_insert_ne by done. apply Hdom. by right. }
    { exact Hnd. }
    exists coords'. split; [reflexivity|]. split.
    + intros n Hn. simpl in Hn. apply elem_of_cons in Hn as [->|Hn].
      * by rewrite (Hout node Hnode), lookup_insert_eq, Hp.
      * rewrite (Hin n Hn). rewrite lookup_insert_ne; [done|]. intros ->. done.
    + intros n Hn. simpl in Hn. apply not_elem_of_cons in Hn as [Hne Hn].
      rewrite (Hout n Hn). by rewrite lookup_insert_ne.
Qed.

Lemma rescale_links_fold (W H w h : Zherebko.number) (links : list (Node * nat)) :
  forall pts : gmap (Node * nat) (list Zherebko.Point),
  NoDup links ->
  let pts' :=
    foldl (fun pts link =>
             <[link := Zherebko.scalePoint W H w h <$> default [] (pts !! link)]> pts)
          pts links in
  (forall link, link ∈ links ->
     pts' !! link = Some (Zherebko.scalePoint W H w h <$> default [] (pts !! link)))
  /\ (forall link, link ∉ links -> pts' !! link = pts !! link).
Proof.
  induction links as [|link links IH]; intros pts Hnd.
  - split; [|done]. intros l Hl. by apply elem_of_nil in Hl.
  - apply NoDup_cons in Hnd as [Hlink Hnd]. simpl.
    match goal with
    | |- context [foldl _ ?c links] => destruct (IH c Hnd) as [Hin Hout]
    end.
    split.
    + intros l Hl. apply elem_of_cons in Hl as [->|Hl].
      * by rewrite (Hout link Hlink), lookup_insert_eq.
      * rewrite (Hin l Hl). rewrite lookup_insert_ne; [done|]. intros ->. done.
    + intros l Hl. apply not_elem_of_cons in Hl as [Hne Hl].
      rewrite (Hout l Hl). by rewrite lookup_insert_ne.
Qed.

Lemma elem_of_ilinks (nodes : list Node) (childLinks : Node -> list Node) s i :
  (s, i) ∈ Zherebko.ilinks nodes childLinks
  <-> s ∈ nodes /\ is_Some (childLinks s !! i).
Proof.
  unfold Zherebko.ilinks. rewrite list_elem_of_bind. split.
  - intros (s' & Hl & Hs). apply list_elem_of_fmap in Hl as ([i' t] & Heq & Hl).
    injection Heq as -> ->. split; [exact Hs|].
    apply entries_lookup in Hl. by eexists.
  - intros [Hs [t Ht]]. exists s. split; [|exact Hs].
    apply list_elem_of_fmap. exists (i, t). split; [done|]. by apply entries_lookup.
Qed.

Lemma ilinks_NoDup (nodes : list Node) (childLinks : Node -> list Node) :
  NoDup nodes -> NoDup (Zherebko.ilinks nodes childLinks).
Proof.
  intros Hnd. unfold Zherebko.ilinks. apply NoDup_bind; [| |exact Hnd].
  - intros s1 s2 [s i] _ _ H1 H2.
    apply list_elem_of_fmap in H1 as ([i1 t1] & Heq1 & _).
    apply list_elem_of_fmap in H2 as ([i2 t2] & Heq2 & _).
    congruence.
  - intros s _. unfold Js.entries. rewrite fmap_imap.
    change (fun n : nat => (fun '(index, _) => (s, index)) ∘ (fun x : Node => (n, x)))
      with (fun (n : nat) (_ : Node) => (s, n)).
    rewrite imap_seq_0. apply NoDup_fmap_2; [|apply NoDup_seq].
    by intros i j [= ->].
Qed.

(** The call under a size is the call without one, followed by [rescale]. *)
Lemma sized_call (before : list Node) (nchildLinksTo : Node -> Node -> nat)
    (nodes : list Node) (childLinks : Node -> list Node)
    (greedy : list (Node * nat) -> gmap Node (list (option Z)))
    (nodeWidth nodeHeight edgeGap W H : Zherebko.number) (d : Zherebko.Drawing) :
  Zherebko.zherebkoCall before nchildLinksTo nodes childLinks greedy
    (Zherebko.buildOperator nodeWidth nodeHeight edgeGap (Some (W, H))) d
  = match Zherebko.zherebkoCall before nchildLinksTo nodes childLinks greedy
            (Zherebko.buildOperator nodeWidth nodeHeight edgeGap None) d with
    | None => None
    | Some (info, d1) =>
        match Zherebko.rescale nodes childLinks W H
                (Zherebko.i_width info) (Zherebko.i_height info)
                (Zherebko.topologicalSort before nchildLinksTo).1 d1 with
        | None => None
        | Some d2 => Some ({| Zherebko.i_width := W; Zherebko.i_height := H |}, d2)
        end
    end.
Proof.
  unfold Zherebko.zherebkoCall.
  destruct (Zherebko.topologicalSort before nchildLinksTo) as [levels numLevels].
  destruct (Zherebko.indexRange (greedy levels)) as [minIndex maxIndex].
  cbn [Zherebko.o_sizeVal Zherebko.o_nodeWidth Zherebko.o_nodeHeight
       Zherebko.o_edgeGap Zherebko.buildOperator fst].
  match goal with
  | |- match ?a with _ => _ end = match match ?b with _ => _ end with _ => _ end =>
      change b with a; destruct a as [d1|]; reflexivity
  end.
Qed.

(** ** The drawing of the layout *)

(** X13. Without a size set, and on a dag whose nodes [idescendants("before")]
    hands out once each, the layout call returns, and in the drawing it
    leaves all nodes of the dag stand in one column; every link starts at the
    place of its source and ends at the place of its target; a link without
    a lane has no further point, a link on a lane has one or two further
    points, on one vertical line that all links of that lane share, the first
    a node height below the source and the second, which is there when the
    two are more than half a node height apart, a node height above the
    target; nodes that are not of the dag and links that are not child links
    of its nodes keep what they had. *)
Theorem layout_joins_links_to_nodes
    (before : list Node) (nchildLinksTo : Node -> Node -> nat)
    (nodes : list Node) (childLinks : Node -> list Node)
    (greedy : list (Node * nat) -> gmap Node (list (option Z)))
    (op : Zherebko.Operator) (d : Zherebko.Drawing) :
  Zherebko.o_sizeVal op = None ->
  NoDup before ->
  (forall s, s ∈ nodes -> s ∈ before) ->
  (forall s t, s ∈ nodes -> t ∈ childLinks s -> t ∈ before) ->
  exists info d' (column : Zherebko.number) (laneAt : Z -> Zherebko.number),
    Zherebko.zherebkoCall before nchildLinksTo nodes childLinks greedy op d
    = Some (info, d')
    /\ (forall n, n ∈ before ->
          exists y, Zherebko.node_at d' !! n
                    = Some {| Zherebko.p_x := column; Zherebko.p_y := y |})
    /\ (forall n, n ∉ before ->
          Zherebko.node_at d' !! n = Zherebko.node_at d !! n)
    /\ (forall s i t, s ∈ nodes -> childLinks s !! i = Some t ->
          exists ps pt mid,
            Zherebko.node_at d' !! s = Some ps
            /\ Zherebko.node_at d' !! t = Some pt
            /\ Zherebko.points_of d' !! (s, i) = Some (ps :: mid ++ [pt])
            /\ mid = match default None (default [] (greedy (Zherebko.topologicalSort before nchildLinksTo).1 !! s) !! i) with
                     | None => []
                     | Some ind =>
                         let y1 := (Zherebko.p_y ps + Zherebko.o_nodeHeight op)%float in
                         let y2 := (Zherebko.p_y pt - Zherebko.o_nodeHeight op)%float in
                         {| Zherebko.p_x := laneAt ind; Zherebko.p_y := y1 |}
                         :: (if (Zherebko.o_nodeHeight op / 2 <? y2 - y1)%float
                             then [{| Zherebko.p_x := laneAt ind; Zherebko.p_y := y2 |}]
                             else [])
                     end)
    /\ (forall s i, s ∉ nodes \/ childLinks s !! i = None ->
          Zherebko.points_of d' !! (s, i) = Zherebko.points_of d !! (s, i)).
Proof.
  intros Hsize Hnd Hsrc Htgt.
  pose proof (layout_core before nchildLinksTo nodes childLinks greedy op d
                Hnd Hsrc Htgt) as Hcore.
  pose proof (topologicalSort_spec before nchildLinksTo) as Hlv.
  destruct (Zherebko.topologicalSort before nchildLinksTo) as [levels numLevels].
  destruct Hlv as (Hfst & _). cbn [fst].
  destruct (Zherebko.indexRange (greedy levels)) as [minIndex maxIndex].
  destruct Hcore as (d2 & Hrun & Hplaced & Hout & Hlinks & Hother).
  rewrite Hsize in Hrun.
  assert (Hlevel : forall n, n ∈ before -> exists lv, (n, lv) ∈ levels).
  { intros n Hn. rewrite <- Hfst in Hn.
    apply list_elem_of_fmap in Hn as [[n' lv] [-> Hl]]. by exists lv. }
  eexists _, d2, _, (Zherebko.laneX op minIndex).
  split; [exact Hrun|]. split; [|split; [exact Hout|split; [|exact Hother]]].
  - intros n Hn. destruct (Hlevel n Hn) as [lv Hl].
    eexists. exact (Hplaced n lv Hl).
  - intros s i t Hs Hi.
    destruct (Hlevel s (Hsrc s Hs)) as [ls Hls].
    destruct (Hlevel t (Htgt s t Hs (list_elem_of_lookup_2 _ _ _ Hi))) as [lt Hlt].
    eexists _, _, _. split; [exact (Hplaced s ls Hls)|].
    split; [exact (Hplaced t lt Hlt)|].
    split; [|reflexivity].
    rewrite (Hlinks s i t ls lt Hs Hi Hls Hlt). unfold Zherebko.linkPoints.
    destruct (default None (default [] (greedy levels !! s) !! i)) as [ind|];
      [|reflexivity].
    cbn zeta. cbn [Zherebko.p_y].
    match goal with |- context [if ?c then _ else _] => destruct c end; reflexivity.
Qed.

(** X15. A size only rescales the drawing: on a dag whose nodes are handed
    out once each, the call of an operator with the size [W, H] returns
    exactly [W] and [H], and its drawing is the drawing of the same operator
    without a size, where [width] and [height] are what that call returns,
    with every node of the dag moved from [(x, y)] to
    [(x * (W / width), y * (H / height))] and every point of every link moved
    from [(x, y)] to [((x * W) / width, (y * H) / height)], all in binary64;
    everything else is the same in both drawings. *)
Theorem sized_layout_is_the_scaled_layout
    (before : list Node) (nchildLinksTo : Node -> Node -> nat)
    (nodes : list Node) (childLinks : Node -> list Node)
    (greedy : list (Node * nat) -> gmap Node (list (option Z)))
    (nodeWidth nodeHeight edgeGap W H : Zherebko.number) (d : Zherebko.Drawing) :
  NoDup before -> NoDup nodes ->
  (forall s, s ∈ nodes -> s ∈ before) ->
  (forall s t, s ∈ nodes -> t ∈ childLinks s -> t ∈ before) ->
  exists info d1 d2,
    Zherebko.zherebkoCall before nchildLinksTo nodes childLinks greedy
      (Zherebko.buildOperator nodeWidth nodeHeight edgeGap None) d
    = Some (info, d1)
    /\ Zherebko.zherebkoCall before nchildLinksTo nodes childLinks greedy
         (Zherebko.buildOperator nodeWidth nodeHeight edgeGap (Some (W, H))) d
       = Some ({| Zherebko.i_width := W; Zherebko.i_height := H |}, d2)
    /\ (forall n, n ∈ before ->
          Zherebko.node_at d2 !! n
          = (fun p =>
               {| Zherebko.p_x := (Zherebko.p_x p * (W / Zherebko.i_width info))%float;
                  Zherebko.p_y := (Zherebko.p_y p * (H / Zherebko.i_height info))%float |})
            <$> Zherebko.node_at d1 !! n)
    /\ (forall n, n ∉ before ->
          Zherebko.node_at d2 !! n = Zherebko.node_at d1 !! n)
    /\ (forall s i, s ∈ nodes -> is_Some (childLinks s !! i) ->
          Zherebko.points_of d2 !! (s, i)
          = fmap (fun p =>
                    {| Zherebko.p_x := (Zherebko.p_x p * W / Zherebko.i_width info)%float;
                       Zherebko.p_y := (Zherebko.p_y p * H / Zherebko.i_height info)%float |})
            <$> Zherebko.points_of d1 !! (s, i))
    /\ (forall s i, s ∉ nodes \/ childLinks s !! i = None ->
          Zherebko.points_of d2 !! (s, i) = Zherebko.points_of d1 !! (s, i)).
Proof.
  intros Hnd Hnd' Hsrc Htgt. rewrite sized_call.
  pose proof (layout_core before nchildLinksTo nodes childLinks greedy
                (Zherebko.buildOperator nodeWidth nodeHeight edgeGap None) d
                Hnd Hsrc Htgt) as Hcore.
  pose proof (topologicalSort_spec before nchildLinksTo) as Hlv.
  destruct (Zherebko.topologicalSort before nchildLinksTo) as [levels numLevels].
  destruct Hlv as (Hfst & _). cbn [fst].
  destruct (Zherebko.indexRange (greedy levels)) as [minIndex maxIndex].
  destruct Hcore as (d1 & Hrun & Hplaced & _ & Hlinks & _).
  cbn [Zherebko.o_sizeVal Zherebko.buildOperator] in Hrun. rewrite Hrun.
  cbn [Zherebko.i_width Zherebko.i_height].
  match goal with
  | |- context [Zherebko.rescale _ _ _ _ ?w ?h _ _] =>
      set (width := w); set (height := h)
  end.
  unfold Zherebko.rescale.
  destruct (rescale_nodes_fold W H width height levels (Zherebko.node_at d1))
    as (coords & -> & Hin & Hout).
  { intros n Hn. apply list_elem_of_fmap in Hn as [[n' lv] [-> Hl]]. cbn [fst].
    rewrite (Hplaced n' lv Hl). by eexists. }
  { by rewrite Hfst. }
  destruct (rescale_links_fold W H width height (Zherebko.ilinks nodes childLinks)
              (Zherebko.points_of d1) (ilinks_NoDup nodes childLinks Hnd'))
    as [Hin' Hout'].
  eexists _, d1, _. split; [reflexivity|]. split; [reflexivity|].
  cbn [Zherebko.node_at Zherebko.points_of]. rewrite <- Hfst.
  split; [exact Hin|]. split; [exact Hout|]. split.
  - intros s i Hs [t Hi].
    rewrite (Hin' (s, i)) by (apply elem_of_ilinks; split; [done|by eexists]).
    assert (Hlevel : forall n, n ∈ before -> exists lv, (n, lv) ∈ levels).
    { intros n Hn. rewrite <- Hfst in Hn.
      apply list_elem_of_fmap in Hn as [[n' lv] [-> Hl]]. by exists lv. }
    destruct (Hlevel s (Hsrc s Hs)) as [ls Hls].
    destruct (Hlevel t (Htgt s t Hs (list_elem_of_lookup_2 _ _ _ Hi))) as [lt Hlt].
    by rewrite (Hlinks s i t ls lt Hs Hi Hls Hlt).
  - intros s i Hl. apply Hout'. rewrite elem_of_ilinks.
    intros [Hs [t Ht]]. destruct Hl as [Hl|Hl]; [done|congruence].
Qed.

(** A dag of three nodes in a chain, with a second link from the first node
    to the last on lane 1. *)
Definition chainLinks (n : Node) : list Node :=
  match n with
  | 0%nat => [1; 2]%nat
  | 1%nat => [2%nat]
  | _ => []
  end.

Definition chainLanes (_ : list (Node * nat)) : gmap Node (list (option Z)) :=
  {[ 0%nat := [None; Some 1%Z] ]}.

Definition emptyDrawing : Zherebko.Drawing :=
  {| Zherebko.node_at := ∅; Zherebko.points_of := ∅ |}.

Lemma chain_nodup : NoDup [0; 1; 2]%nat.
Proof. apply (bool_decide_unpack _). vm_compute. exact I. Qed.

Lemma chain_targets s t :
  s ∈ [0; 1; 2]%nat -> t ∈ chainLinks s -> t ∈ [0; 1; 2]%nat.
Proof.
  intros Hs Ht.
  repeat (apply elem_of_cons in Hs as [->|Hs]); [| | |by apply elem_of_nil in Hs];
    simpl in Ht;
    repeat (apply elem_of_cons in Ht as [->|Ht]); try (by apply elem_of_nil in Ht);
    apply (bool_decide_unpack _); vm_compute; exact I.
Qed.

Lemma layout_joins_links_to_nodes_witness :
  exists info d' (column : Zherebko.number) (laneAt : Z -> Zherebko.number),
    Zherebko.zherebkoCall [0; 1; 2]%nat (fun _ _ => 1%nat) [0; 1; 2]%nat
      chainLinks chainLanes (Zherebko.buildOperator 1 1 1 None)%float emptyDrawing
    = Some (info, d')
    /\ (forall n, n ∈ [0; 1; 2]%nat ->
          exists y, Zherebko.node_at d' !! n
                    = Some {| Zherebko.p_x := column; Zherebko.p_y := y |})
    /\ (forall n, n ∉ [0; 1; 2]%nat ->
          Zherebko.node_at d' !! n = Zherebko.node_at emptyDrawing !! n)
    /\ (forall s i t, s ∈ [0; 1; 2]%nat -> chainLinks s !! i = Some t ->
          exists ps pt mid,
            Zherebko.node_at d' !! s = Some ps
            /\ Zherebko.node_at d' !! t = Some pt
            /\ Zherebko.points_of d' !! (s, i) = Some (ps :: mid ++ [pt])
            /\ mid = match default None (default [] (chainLanes (Zherebko.topologicalSort [0; 1; 2]%nat (fun _ _ => 1%nat)).1 !! s) !! i) with
                     | None => []
                     | Some ind =>
                         let y1 := (Zherebko.p_y ps + 1)%float in
                         let y2 := (Zherebko.p_y pt - 1)%float in
                         {| Zherebko.p_x := laneAt ind; Zherebko.p_y := y1 |}
                         :: (if (1 / 2 <? y2 - y1)%float
                             then [{| Zherebko.p_x := laneAt ind; Zherebko.p_y := y2 |}]
                             else [])
                     end)
    /\ (forall s i, s ∉ [0; 1; 2]%nat \/ chainLinks s !! i = None ->
          Zherebko.points_of d' !! (s, i) = Zherebko.points_of emptyDrawing !! (s, i)).
Proof.
  apply (layout_joins_links_to_nodes [0; 1; 2]%nat (fun _ _ => 1%nat)
           [0; 1; 2]%nat chainLinks chainLanes
           (Zherebko.buildOperator 1 1 1 None)%float emptyDrawing).
  - reflexivity.
  - exact chain_nodup.
  - done.
  - exact chain_targets.
Defined.

Lemma sized_layout_is_the_scaled_layout_witness :
  exists info d1 d2,
    Zherebko.zherebkoCall [0; 1; 2]%nat (fun _ _ => 1%nat) [0; 1; 2]%nat
      chainLinks chainLanes (Zherebko.buildOperator 3 1 0 None)%float emptyDrawing
    = Some (info, d1)
    /\ Zherebko.zherebkoCall [0; 1; 2]%nat (fun _ _ => 1%nat) [0; 1; 2]%nat
         chainLinks chainLanes (Zherebko.buildOperator 3 1 0 (Some (10, 20)))%float
         emptyDrawing
       = Some ({| Zherebko.i_width := 10; Zherebko.i_height := 20 |}%float, d2)
    /\ (forall n, n ∈ [0; 1; 2]%nat ->
          Zherebko.node_at d2 !! n
          = (fun p =>
               {| Zherebko.p_x := (Zherebko.p_x p * (10 / Zherebko.i_width info))%float;
                  Zherebko.p_y := (Zherebko.p_y p * (20 / Zherebko.i_height info))%float |})
            <$> Zherebko.node_at d1 !! n)
    /\ (forall n, n ∉ [0; 1; 2]%nat ->
          Zherebko.node_at d2 !! n = Zherebko.node_at d1 !! n)
    /\ (forall s i, s ∈ [0; 1; 2]%nat -> is_Some (chainLinks s !! i) ->
          Zherebko.points_of d2 !! (s, i)
          = fmap (fun p =>
                    {| Zherebko.p_x := (Zherebko.p_x p * 10 / Zherebko.i_width info)%float;
                       Zherebko.p_y := (Zherebko.p_y p * 20 / Zherebko.i_height info)%float |})
            <$> Zherebko.points_of d1 !! (s, i))
    /\ (forall s i, s ∉ [0; 1; 2]%nat \/ chainLinks s !! i = None ->
          Zherebko.points_of d2 !! (s, i) = Zherebko.points_of d1 !! (s, i)).
Proof.
  apply (sized_layout_is_the_scaled_layout [0; 1; 2]%nat (fun _ _ => 1%nat)
           [0; 1; 2]%nat chainLinks chainLanes 3 1 0 10 20 emptyDrawing)%float.
  - exact chain_nodup.
  - exact chain_nodup.
  - done.
  - exact chain_targets.
Defined.

(** X16. The layout operator keeps what it is given without checking it: the
    factory refuses any argument and otherwise returns the operator with
    node size [1, 1, 1] and no size; each setter returns an operator whose
    getter answers the value set, whatever the value, and whose other
    setting is that of the operator it was called on. *)
Theorem zherebko_operator_settings {V} (a : V) (args : list V)
    (op : Zherebko.Operator)
    (val : Zherebko.number * Zherebko.number * Zherebko.number)
    (sizeVal : option (Zherebko.number * Zherebko.number)) :
  Zherebko.zherebko (a :: args) = Err ArgumentsError
  /\ (exists op0,
        Zherebko.zherebko (@nil V) = Ok op0
        /\ Zherebko.nodeSize op0 None = inl (1, 1, 1)%float
        /\ Zherebko.size op0 None = inl None)
  /\ (exists op',
        Zherebko.nodeSize op (Some val) = inr op'
        /\ Zherebko.nodeSize op' None = inl val
        /\ Zherebko.size op' None = Zherebko.size op None)
  /\ (exists op',
        Zherebko.size op (Some sizeVal) = inr op'
        /\ Zherebko.size op' None = inl sizeVal
        /\ Zherebko.nodeSize op' None = Zherebko.nodeSize op None).
Proof.
  split; [reflexivity|]. split; [by eexists|]. split.
  - destruct val as [[newWidth newHeight] newGap]. by eexists.
  - eexists. split; [reflexivity|]. split; [|reflexivity].
    by destruct sizeVal as [[w h]|].
Qed.
